(** * node-eventsource: the SSE frame parser, event assembler and
      connection manager of [src/eventsource.js], embedded in Rocq.

    The source file carries two variants of the client.  The current one
    (transport [undici], incremental byte scanning) is embedded in the
    top-level definitions; the earlier one (transport [node-fetch],
    whole-record splitting) is embedded in [Module Fetch] where a claim
    refers to it.

    Representation choices:
    - a Node [Buffer] is a [list ascii] (one [ascii] per byte), indexed
      from 0; [buffer[i]] out of range is [undefined] ([None]);
    - a JS string is a [string]; [Buffer.toString()] keeps the bytes
      (the wire format is UTF-8 text, and the fields compared by the
      code, "data", "event", "id", NUL, LF, are ASCII);
    - [null]/[undefined] are [None];
    - [this.emit(...)] appends to the log [emitted], and to [seen] the
      ready state a listener reads while it is called; what listeners
      do is the owner's business, but the listeners of [error] are
      counted, because [emit('error', err)] throws [err] on an emitter
      that has none;
    - integers are [Z], with the source's [-1] sentinels. *)

From Stdlib Require Import ZArith Ascii String List Lia Bool.
From stdpp Require Import base list strings gmap.

Local Open Scope string_scope.
Local Open Scope list_scope.
Local Open Scope Z_scope.

(** ** Constants *)

Inductive ReadyState := CONNECTING | CONNECTED | DISCONNECTED.

Definition COLON_CHARACTER : ascii := ascii_of_nat 58.
Definition SPACE_CHARACTER : ascii := ascii_of_nat 32.
Definition LINE_FEED_CHARACTER : ascii := ascii_of_nat 10.
Definition CARRIAGE_RETURN_CHARACTER : ascii := ascii_of_nat 13.

Record Options := mkOptions {
  initialReconnectDelay : Z;
  maximumReconnectDelay : Z;
  heartbeatTimeout : Z
}.

Definition DefaultOptions : Options :=
  {| initialReconnectDelay := 2 * 1000;
     maximumReconnectDelay := 30 * 1000;
     heartbeatTimeout := 30 * 1000 |}.

(** ** Buffers and strings *)

Abbreviation Buffer := (list ascii).

(** [buffer[i]] *)
Definition byte_at (buffer : Buffer) (i : Z) : option ascii :=
  if i <? 0 then None else buffer !! Z.to_nat i.

(** [buffer.slice(from, to)] for non-negative bounds *)
Definition slice (buffer : Buffer) (from to : Z) : Buffer :=
  take (Z.to_nat to - Z.to_nat from)%nat (drop (Z.to_nat from) buffer).

(** [buffer.slice(from)] *)
Definition slice_from (buffer : Buffer) (from : Z) : Buffer :=
  drop (Z.to_nat from) buffer.

(** [buffer.toString()] *)
Definition toString (buffer : Buffer) : string := string_of_list_ascii buffer.

(** [s.slice(0, -1)] *)
Fixpoint slice_0_m1 (s : string) : string :=
  match s with
  | EmptyString => EmptyString
  | String c EmptyString => EmptyString
  | String c rest => String c (slice_0_m1 rest)
  end.

Definition NUL : ascii := zero.

(** [s.includes('\0')] *)
Fixpoint includes_NUL (s : string) : bool :=
  match s with
  | EmptyString => false
  | String c rest => Ascii.eqb c NUL || includes_NUL rest
  end.

(** ['\n'] *)
Definition LF : string := String LINE_FEED_CHARACTER EmptyString.

(** ** The emitter *)

(** The errors a connection attempt can end with: the two thrown by
    [handleResponse] (the second with the content type as the template
    literal prints it), the [TypeError] of [contentType.includes] on a
    missing header, the heartbeat's, and whatever the transport rejects
    with. *)
Inductive Err :=
| ResponseNotOK (statusCode : Z)
| ContentTypeNotEventStream (contentType : string)
| TypeError
| NoHeartbeat (timeout : Z)
| TransportFailure (message : string).

(** What [this.emit] was called with: a lifecycle notification, an error
    with its detail, or an event on channel [channel] with the payload
    [{id, name, data}]. *)
Inductive Notification :=
| Connecting
| Connected
| Disconnected
| Error (detail : Err)
| Event (channel : string) (id : option string) (name : option string) (data : string).

(** Modelled from the spec: the backoff policy ([backoff.exponential], an
    external package).  It counts the attempts since the last reset and
    holds at most one pending timer; [backoff()] throws while a timer
    is pending, [reset()] clears both. *)
Record Backoff := mkBackoff {
  backoffNumber : nat;
  timerPending : bool
}.

(** The fields of [this] in [class EventSource], with the emitter's log
    and the transport's bookkeeping. *)
Record EventSource := mkEventSource {
  options : Options;
  readyState : ReadyState;
  lastEventId : option string;
  heartbeatInterval : option nat;    (* the writable the timer's callback destroys *)
  lastHeartbeat : option Z;
  backoff : Backoff;
  emitted : list Notification;       (* oldest first *)
  requests : list (gmap string string); (* headers of every request opened, oldest first *)
  destroyed : list (nat * Err);      (* writable.destroy(err) calls, oldest first *)
  seen : list ReadyState;            (* [readyState] as a listener reads it during
                                        each [emit], in step with [emitted] *)
  errorListeners : nat;              (* [this.listenerCount('error')] *)
  uncaught : option Err              (* what the promise of [connect()] rejected
                                        with; nothing handles it *)
}.

(** The locals of one [handleResponse] call, captured by
    [parseEventStreamLine] and by the writable's [write]. *)
Record Response := mkResponse {
  eventId : option string;
  eventName : option string;
  eventData : string;
  heartbeat : bool;                  (* is [heartbeat] a function? *)
  buffer : option Buffer;
  discardTrailingNewline : bool
}.

Definition emit (n : Notification) (this : EventSource) : EventSource :=
  mkEventSource (options this) (readyState this) (lastEventId this)
    (heartbeatInterval this) (lastHeartbeat this) (backoff this)
    (emitted this ++ [n]) (requests this) (destroyed this)
    (seen this ++ [readyState this]) (errorListeners this) (uncaught this).

Definition set_lastEventId (v : option string) (this : EventSource) : EventSource :=
  mkEventSource (options this) (readyState this) v
    (heartbeatInterval this) (lastHeartbeat this) (backoff this)
    (emitted this) (requests this) (destroyed this) (seen this)
    (errorListeners this) (uncaught this).

Definition set_lastHeartbeat (v : option Z) (this : EventSource) : EventSource :=
  mkEventSource (options this) (readyState this) (lastEventId this)
    (heartbeatInterval this) v (backoff this)
    (emitted this) (requests this) (destroyed this) (seen this)
    (errorListeners this) (uncaught this).

Definition set_readyState (v : ReadyState) (this : EventSource) : EventSource :=
  mkEventSource (options this) v (lastEventId this)
    (heartbeatInterval this) (lastHeartbeat this) (backoff this)
    (emitted this) (requests this) (destroyed this) (seen this)
    (errorListeners this) (uncaught this).

Definition set_heartbeatInterval (v : option nat) (this : EventSource) : EventSource :=
  mkEventSource (options this) (readyState this) (lastEventId this)
    v (lastHeartbeat this) (backoff this)
    (emitted this) (requests this) (destroyed this) (seen this)
    (errorListeners this) (uncaught this).

Definition set_backoff (v : Backoff) (this : EventSource) : EventSource :=
  mkEventSource (options this) (readyState this) (lastEventId this)
    (heartbeatInterval this) (lastHeartbeat this) v
    (emitted this) (requests this) (destroyed this) (seen this)
    (errorListeners this) (uncaught this).

(** [undici.stream(this.url, {headers}, ...)] is called. *)
Definition open_request (headers : gmap string string) (this : EventSource) : EventSource :=
  mkEventSource (options this) (readyState this) (lastEventId this)
    (heartbeatInterval this) (lastHeartbeat this) (backoff this)
    (emitted this) (requests this ++ [headers]) (destroyed this) (seen this)
    (errorListeners this) (uncaught this).

(** [writable.destroy(err)] is called on the writable [w]. *)
Definition destroy (w : nat) (err : Err) (this : EventSource) : EventSource :=
  mkEventSource (options this) (readyState this) (lastEventId this)
    (heartbeatInterval this) (lastHeartbeat this) (backoff this)
    (emitted this) (requests this) (destroyed this ++ [(w, err)]) (seen this)
    (errorListeners this) (uncaught this).

(** [this.on('error', listener)] and [this.off('error', listener)] change
    the number of listeners. *)
Definition set_errorListeners (v : nat) (this : EventSource) : EventSource :=
  mkEventSource (options this) (readyState this) (lastEventId this)
    (heartbeatInterval this) (lastHeartbeat this) (backoff this)
    (emitted this) (requests this) (destroyed this) (seen this)
    v (uncaught this).

(** The promise of [connect()] rejects with [err]. *)
Definition reject (err : Err) (this : EventSource) : EventSource :=
  mkEventSource (options this) (readyState this) (lastEventId this)
    (heartbeatInterval this) (lastHeartbeat this) (backoff this)
    (emitted this) (requests this) (destroyed this) (seen this)
    (errorListeners this) (Some err).

(** [this.emit('error', err)]: the listeners are called, and an emitter
    without a listener for [error] throws [err] instead. *)
Definition emit_error (err : Err) (this : EventSource) : Err + EventSource :=
  if Nat.eqb (errorListeners this) 0 then inl err else inr (emit (Error err) this).

Definition set_eventId (v : option string) (r : Response) : Response :=
  mkResponse v (eventName r) (eventData r) (heartbeat r) (buffer r)
    (discardTrailingNewline r).

Definition set_eventName (v : option string) (r : Response) : Response :=
  mkResponse (eventId r) v (eventData r) (heartbeat r) (buffer r)
    (discardTrailingNewline r).

Definition set_eventData (v : string) (r : Response) : Response :=
  mkResponse (eventId r) (eventName r) v (heartbeat r) (buffer r)
    (discardTrailingNewline r).

Definition set_buffer (v : option Buffer) (r : Response) : Response :=
  mkResponse (eventId r) (eventName r) (eventData r) (heartbeat r) v
    (discardTrailingNewline r).

Definition set_discardTrailingNewline (v : bool) (r : Response) : Response :=
  mkResponse (eventId r) (eventName r) (eventData r) (heartbeat r) (buffer r) v.

(** [x || 'message'] *)
Definition or_message (x : option string) : string :=
  match x with
  | Some EmptyString | None => "message"
  | Some s => s
  end.

(** ** The event assembler: [parseEventStreamLine] *)

Definition parseEventStreamLine (this : EventSource) (r : Response)
    (buffer : Buffer) (position fieldLength lineLength : Z)
    : EventSource * Response :=
  if lineLength =? 0 then
    let '(this, r) :=
      if 0 <? Z.of_nat (String.length (eventData r)) then
        (emit (Event (or_message (eventName r)) (eventId r) (eventName r)
                 (slice_0_m1 (eventData r))) this,
         set_eventData EmptyString r)
      else (this, r) in
    let '(this, r) :=
      match eventId r with
      | Some id => (set_lastEventId (Some id) this, set_eventId None r)
      | None => (this, r)
      end in
    (this, set_eventName None r)
  else if 0 <? fieldLength then
    let emptyValue := fieldLength <? 0 in
    let step := 0 in
    let field :=
      toString (slice buffer position
                  (position + (if emptyValue then lineLength else fieldLength))) in
    let step :=
      if emptyValue then lineLength
      else if negb (bool_decide (byte_at buffer (position + fieldLength + 1)
                                 = Some SPACE_CHARACTER))
           then fieldLength + 1
           else fieldLength + 2 in
    let position := position + step in
    let valueLength := lineLength - step in
    let value := toString (slice buffer position (position + valueLength)) in
    if String.eqb field "data" then
      (this, set_eventData (eventData r +:+ value +:+ LF) r)
    else if String.eqb field "event" then
      (this, set_eventName (Some value) r)
    else if String.eqb field "id" then
      (this, set_eventId (Some value) r)
    else (this, r)
  else (this, r).

(** ** The frame parser: the writable's [write] *)

(** The inner [for] loop of [write].  [rest] is the part of the buffer
    from [bufferIndex] on, so its head is [buffer[bufferIndex]] and it is
    empty exactly when [bufferIndex = bufferLength]. *)
Fixpoint scan_line (rest : Buffer) (position bufferIndex lineLength fieldLength : Z)
    (discard : bool) : Z * Z * bool :=
  match rest with
  | [] => (lineLength, fieldLength, discard)
  | character :: rest' =>
    if lineLength <? 0 then
      if Ascii.eqb character COLON_CHARACTER then
        scan_line rest' position (bufferIndex + 1) lineLength
          (if fieldLength <? 0 then bufferIndex - position else fieldLength)
          discard
      else if Ascii.eqb character CARRIAGE_RETURN_CHARACTER then
        scan_line rest' position (bufferIndex + 1) (bufferIndex - position)
          fieldLength true
      else if Ascii.eqb character LINE_FEED_CHARACTER then
        scan_line rest' position (bufferIndex + 1) (bufferIndex - position)
          fieldLength discard
      else scan_line rest' position (bufferIndex + 1) lineLength fieldLength discard
    else (lineLength, fieldLength, discard)
  end.

(** The [while (position < bufferLength)] loop of [write]; [fuel] bounds
    the number of iterations ([write_loop_fuel] shows the bound [write]
    passes is never reached). *)
Fixpoint write_loop (fuel : nat) (buffer : Buffer) (bufferLength : Z)
    (this : EventSource) (r : Response) (position : Z)
    : EventSource * Response * Z :=
  match fuel with
  | O => (this, r, position)
  | S fuel' =>
    if position <? bufferLength then
      let '(position, r) :=
        if discardTrailingNewline r then
          (if bool_decide (byte_at buffer position = Some LINE_FEED_CHARACTER)
           then position + 1 else position,
           set_discardTrailingNewline false r)
        else (position, r) in
      let '(lineLength, fieldLength, discard) :=
        scan_line (slice_from buffer position) position position (-1) (-1)
          (discardTrailingNewline r) in
      let r := set_discardTrailingNewline discard r in
      if lineLength <? 0 then (this, r, position)
      else
        let '(this, r) :=
          parseEventStreamLine this r buffer position fieldLength lineLength in
        write_loop fuel' buffer bufferLength this r (position + lineLength + 1)
    else (this, r, position)
  end.

(** [write(chunk, encoding, callback)] at time [now = Date.now()]. *)
Definition write (this : EventSource) (r : Response) (chunk : Buffer) (now : Z)
    : EventSource * Response :=
  let buffer := match buffer r with Some b => b ++ chunk | None => chunk end in
  let bufferLength := Z.of_nat (length buffer) in
  let '(this, r, position) :=
    write_loop (S (length buffer)) buffer bufferLength this r 0 in
  let r :=
    if position =? bufferLength then set_buffer None r
    else if 0 <? position then set_buffer (Some (slice_from buffer position)) r
    else set_buffer (Some buffer) r in
  let this := if heartbeat r then set_lastHeartbeat (Some now) this else this in
  (this, r).

(** ** Reading a stream as lines (used to state and prove the properties) *)

Definition is_terminator (c : ascii) : bool :=
  Ascii.eqb c CARRIAGE_RETURN_CHARACTER || Ascii.eqb c LINE_FEED_CHARACTER.

Definition terminator_free (l : Buffer) : bool :=
  forallb (fun c => negb (is_terminator c)) l.

(** Offset of the first colon of [line], counted from [i]; [-1] without one. *)
Fixpoint colon_index (line : Buffer) (i : Z) : Z :=
  match line with
  | [] => -1
  | c :: line' => if Ascii.eqb c COLON_CHARACTER then i else colon_index line' (i + 1)
  end.

(** The assembler run on one line standing alone in a buffer, followed by
    its terminator [t]. *)
Definition process_line (this : EventSource) (r : Response) (line : Buffer) (t : ascii)
    : EventSource * Response :=
  parseEventStreamLine this r (line ++ [t]) 0 (colon_index line 0)
    (Z.of_nat (length line)).

(** The parser read one byte at a time: [acc] is the line being read.
    This is the reference the scanning loop of [write] is compared with. *)
Fixpoint feed (acc : Buffer) (this : EventSource) (r : Response) (bs : Buffer)
    : EventSource * Response * Buffer :=
  match bs with
  | [] => (this, r, acc)
  | c :: bs' =>
    if discardTrailingNewline r && Ascii.eqb c LINE_FEED_CHARACTER then
      feed acc this (set_discardTrailingNewline false r) bs'
    else if is_terminator c then
      let '(this, r) :=
        process_line this
          (set_discardTrailingNewline (Ascii.eqb c CARRIAGE_RETURN_CHARACTER) r)
          acc c in
      feed [] this r bs'
    else feed (acc ++ [c]) this (set_discardTrailingNewline false r) bs'
  end.

(** The bytes of [b] after its last line terminator. *)
Fixpoint after_last_terminator (b : Buffer) : Buffer :=
  match b with
  | [] => []
  | c :: b' => if terminator_free b then b else after_last_terminator b'
  end.

(** Every CRLF pair, and every CR, rewritten as one LF. *)
Fixpoint normalize (b : Buffer) : Buffer :=
  match b with
  | [] => []
  | c :: b' =>
    if Ascii.eqb c CARRIAGE_RETURN_CHARACTER then
      match b' with
      | c' :: b'' =>
        if Ascii.eqb c' LINE_FEED_CHARACTER
        then LINE_FEED_CHARACTER :: normalize b''
        else LINE_FEED_CHARACTER :: normalize b'
      | [] => [LINE_FEED_CHARACTER]
      end
    else c :: normalize b'
  end.

(** The retained buffer as bytes ([null] holds none). *)
Definition buffer_bytes (r : Response) : Buffer :=
  match buffer r with Some b => b | None => [] end.

(** What [write] leaves in [buffer] between deliveries: either [null], or
    a non-empty line fragment with no terminator in it, in which case no
    line feed is due to be discarded. *)
Definition parser_inv (r : Response) : Prop :=
  match buffer r with
  | None => True
  | Some t => t <> [] /\ terminator_free t = true /\ discardTrailingNewline r = false
  end.

Definition bytes (s : string) : Buffer := list_ascii_of_string s.

(** [null] for no bytes, the bytes otherwise. *)
Definition retained (acc : Buffer) : option Buffer :=
  match acc with [] => None | _ => Some acc end.

(** The stream delivered as a sequence of chunks, each with the time of
    its delivery. *)
Fixpoint write_all (this : EventSource) (r : Response) (chunks : list (Buffer * Z))
    : EventSource * Response :=
  match chunks with
  | [] => (this, r)
  | (chunk, now) :: chunks' =>
    let '(this, r) := write this r chunk now in write_all this r chunks'
  end.

(** The locals of [handleResponse] as it initialises them. *)
Definition new_response (heartbeat : bool) : Response :=
  mkResponse None (Some EmptyString) EmptyString heartbeat None false.

(** An instance as the constructor leaves it before its [connect()]. *)
Definition new_EventSource (options : Options) : EventSource :=
  mkEventSource options DISCONNECTED None None None (mkBackoff 0 false) [] [] [] []
    0 None.

(** ** Lines, fields and records of the wire format *)

(** The field name of a line with a colon: the bytes before the first colon. *)
Definition line_field (line : Buffer) : string :=
  toString (take (Z.to_nat (colon_index line 0)) line).

(** The value of a line with a colon: the bytes after the first colon,
    less one leading space. *)
Definition line_value (line : Buffer) : string :=
  match drop (S (Z.to_nat (colon_index line 0))) line with
  | c :: v => if Ascii.eqb c SPACE_CHARACTER then toString v else toString (c :: v)
  | [] => EmptyString
  end.

(** What [parseEventStreamLine] does with a field and its value. *)
Definition assemble_field (r : Response) (field value : string) : Response :=
  if String.eqb field "data" then set_eventData (eventData r +:+ value +:+ LF) r
  else if String.eqb field "event" then set_eventName (Some value) r
  else if String.eqb field "id" then set_eventId (Some value) r
  else r.

(** A [data:] line: the field before its first colon is [data]. *)
Definition is_data_line (line : Buffer) : bool :=
  (0 <=? colon_index line 0) && String.eqb (line_field line) "data".

Definition data_values (lines : list Buffer) : list string :=
  map line_value (List.filter is_data_line lines).

(** An [id:] line: the field before its first colon is [id]. *)
Definition is_id_line (line : Buffer) : bool :=
  (0 <=? colon_index line 0) && String.eqb (line_field line) "id".

(** The pending id after the lines of a record: the value of the last
    [id:] line, [init] without one. *)
Definition pending_id (lines : list Buffer) (init : option string) : option string :=
  fold_left (fun acc line => if is_id_line line then Some (line_value line) else acc)
    lines init.


(** A line of a record: not blank, and with no terminator inside. *)
Definition record_line (line : Buffer) : bool :=
  negb (Nat.eqb (length line) 0) && terminator_free line.

(** The lines, each ended by LF. *)
Definition lines_stream (lines : list Buffer) : Buffer :=
  concat (map (fun line => line ++ [LINE_FEED_CHARACTER]) lines).

(** One record on the wire: its lines, then the blank line. *)
Definition record_stream (lines : list Buffer) : Buffer :=
  lines_stream lines ++ [LINE_FEED_CHARACTER].

(** The values, each followed by a line feed. *)
Fixpoint each_with_LF (values : list string) : string :=
  match values with
  | [] => EmptyString
  | v :: values' => v +:+ LF +:+ each_with_LF values'
  end.

(** The values joined by line feeds. *)
Fixpoint joined_by_LF (values : list string) : string :=
  match values with
  | [] => EmptyString
  | [v] => v
  | v :: values' => v +:+ LF +:+ joined_by_LF values'
  end.

(** ** The connection manager *)

(** [backoff.reset()] *)
Definition backoff_reset (b : Backoff) : Backoff := mkBackoff 0 false.

(** [backoff.backoff()]: [None] when it throws (a backoff is in progress). *)
Definition backoff_backoff (b : Backoff) : option Backoff :=
  if timerPending b then None else Some (mkBackoff (S (backoffNumber b)) true).

(** [[CONNECTING, CONNECTED].includes(readyState)] *)
Definition connecting_or_connected (s : ReadyState) : bool :=
  match s with CONNECTING | CONNECTED => true | DISCONNECTED => false end.

(** The truthiness of [this.lastEventId]: set, and not the empty string. *)
Definition truthy (v : option string) : bool :=
  match v with
  | Some EmptyString | None => false
  | Some _ => true
  end.

(** [connect()] up to its [await]: the new state, and whether a request
    was opened. *)
Definition connect (this : EventSource) : EventSource * bool :=
  if connecting_or_connected (readyState this) then (this, false)
  else
    let this := set_readyState CONNECTING this in
    let this := emit Connecting this in
    let headers : gmap string string := ∅ in
    let headers :=
      if truthy (lastEventId this)
      then match lastEventId this with
           | Some id => <["Last-Event-ID" := id]> headers
           | None => headers
           end
      else headers in
    (open_request headers this, true).

(** [connect()] after its [await]: [outcome] is the error the request
    rejected with, if it did.  When [emit('error', err)] throws inside
    the [catch] block nothing after it runs, and the promise of
    [connect()], which no caller awaits, rejects.  What the runtime
    does with the unhandled rejection is outside the model: the
    instance is followed as the code leaves it. *)
Definition connect_settled (outcome : option Err) (this : EventSource) : EventSource :=
  match
    match outcome with
    | Some err => emit_error err this
    | None => inr this
    end
  with
  | inl thrown => reject thrown this
  | inr this =>
    let this := emit Disconnected this in
    let this := set_readyState DISCONNECTED this in
    match backoff_backoff (backoff this) with
    | Some b => set_backoff b this
    | None => this
    end
  end.

(** [resetHeartbeatTimeout(callback)], where [callback] destroys the
    writable [w]: the new state, and whether the marking function is
    returned (the early return gives [undefined]). *)
Definition resetHeartbeatTimeout (w : nat) (this : EventSource) : EventSource * bool :=
  match heartbeatInterval this with
  | Some _ => (this, false)
  | None => (set_heartbeatInterval (Some w) this, true)
  end.

(** [s.includes(sub)] *)
Fixpoint includes (sub s : string) : bool :=
  String.prefix sub s ||
  match s with
  | EmptyString => false
  | String _ s' => includes sub s'
  end.

(** A value of the transport's [headers] object: a string, or an array
    of strings for a header the response repeats. *)
Inductive HeaderValue :=
| Single (value : string)
| Repeated (values : list string).

(** [contentType.includes(sub)]: a substring test on a string, a search
    for an element equal to [sub] on an array. *)
Definition header_includes (sub : string) (contentType : HeaderValue) : bool :=
  match contentType with
  | Single value => includes sub value
  | Repeated values => existsb (String.eqb sub) values
  end.

(** [`${contentType}`]: an array prints its elements joined by commas. *)
Definition header_text (contentType : HeaderValue) : string :=
  match contentType with
  | Single value => value
  | Repeated values => String.concat "," values
  end.

(** [handleResponse({statusCode, headers})], where [contentType] is
    [headers['content-type']] and [w] names the writable it creates: the
    error thrown, or the new state with the writable's locals. *)
Definition handleResponse (w : nat) (statusCode : Z) (contentType : option HeaderValue)
    (this : EventSource) : Err + EventSource * Response :=
  if negb (statusCode =? 200) then inl (ResponseNotOK statusCode)
  else
    match contentType with
    | None => inl TypeError
    | Some contentType =>
      if negb (header_includes "text/event-stream" contentType)
      then inl (ContentTypeNotEventStream (header_text contentType))
      else
        let this := set_backoff (backoff_reset (backoff this)) this in
        let '(this, heartbeat) := resetHeartbeatTimeout w this in
        let this := set_readyState CONNECTED this in
        let this := emit Connected this in
        inr (this, new_response heartbeat)
    end.

(** [this.lastHeartbeat > Date.now() - this.options.heartbeatTimeout];
    an [undefined] left side compares false. *)
Definition heartbeat_seen (this : EventSource) (now : Z) : bool :=
  match lastHeartbeat this with
  | Some t => now - heartbeatTimeout (options this) <? t
  | None => false
  end.

(** The client with its transport: the request in flight, if any, and
    the writable of its response once [handleResponse] returned one. *)
Record Client := mkClient {
  this_ : EventSource;
  inflight : nat;                       (* requests opened and not settled *)
  writable : option (nat * Response);   (* the active writable and its locals *)
  writables : nat                       (* writables created so far *)
}.

(** What reaches the client, one at a time. *)
Inductive Input :=
| Ready                                          (* the backoff timer elapses *)
| ResponseHead (statusCode : Z) (contentType : option HeaderValue)
| Chunk (chunk : Buffer) (now : Z)
| End
| Failure (message : string)                     (* the transport fails *)
| Tick (now : Z)                                 (* the heartbeat interval elapses *)
| On_error                                       (* the owner adds a listener for [error] *)
| Off_error.                                     (* the owner removes one *)

(** [connect()] called on the client. *)
Definition client_connect (c : Client) : Client :=
  let '(this, opened) := connect (this_ c) in
  mkClient this (if opened then S (inflight c) else inflight c) (writable c) (writables c).

(** The request of the client settles and [connect()] resumes. *)
Definition client_settle (outcome : option Err) (c : Client) : Client :=
  mkClient (connect_settled outcome (this_ c)) (pred (inflight c)) None (writables c).

(** The interval callback of [resetHeartbeatTimeout]. *)
Definition heartbeat_tick (now : Z) (c : Client) : Client :=
  match heartbeatInterval (this_ c) with
  | None => c
  | Some w =>
    if heartbeat_seen (this_ c) now then c
    else
      let err := NoHeartbeat (heartbeatTimeout (options (this_ c))) in
      let this := set_heartbeatInterval None (this_ c) in
      let this := destroy w err this in
      let c := mkClient this (inflight c) (writable c) (writables c) in
      match writable c with
      | Some (w', _) => if Nat.eqb w w' then client_settle (Some err) c else c
      | None => c
      end
  end.

Definition step (c : Client) (i : Input) : Client :=
  match i with
  | Ready =>
    if timerPending (backoff (this_ c)) then
      client_connect
        (mkClient (set_backoff (mkBackoff (backoffNumber (backoff (this_ c))) false) (this_ c))
           (inflight c) (writable c) (writables c))
    else c
  | ResponseHead statusCode contentType =>
    match inflight c, writable c with
    | S _, None =>
      match handleResponse (writables c) statusCode contentType (this_ c) with
      | inl err => client_settle (Some err) c
      | inr (this, r) =>
        mkClient this (inflight c) (Some (writables c, r)) (S (writables c))
      end
    | _, _ => c
    end
  | Chunk chunk now =>
    match writable c with
    | Some (w, r) =>
      let '(this, r) := write (this_ c) r chunk now in
      mkClient this (inflight c) (Some (w, r)) (writables c)
    | None => c
    end
  | End =>
    match writable c with
    | Some _ => client_settle None c
    | None => c
    end
  | Failure message =>
    match inflight c with
    | S _ => client_settle (Some (TransportFailure message)) c
    | O => c
    end
  | Tick now => heartbeat_tick now c
  | On_error =>
    mkClient (set_errorListeners (S (errorListeners (this_ c))) (this_ c))
      (inflight c) (writable c) (writables c)
  | Off_error =>
    mkClient (set_errorListeners (pred (errorListeners (this_ c))) (this_ c))
      (inflight c) (writable c) (writables c)
  end.

Definition run (c : Client) (inputs : list Input) : Client := fold_left step inputs c.


(** [new EventSource(url, options)]: the fields, then [this.connect()]. *)
Definition new_client (options : Options) : Client :=
  client_connect (mkClient (new_EventSource options) 0 None 0).

(** ** The earlier variant: [class EventSourceEvent] *)

Module Fetch.

(** The object built by [new EventSourceEvent(data)]. *)
Record EventSourceEvent := mkEventSourceEvent {
  id : option string;
  name : string;
  data : string
}.

(** [data.split(LINE_ENDING_REGEX)]: every CR and every LF separates
    (the alternation matches a lone CR before it can match CRLF). *)
Fixpoint split (s : string) : list string :=
  match s with
  | EmptyString => [EmptyString]
  | String c s' =>
    if is_terminator c then EmptyString :: split s'
    else match split s' with
         | line :: lines => String c line :: lines
         | [] => [String c EmptyString]
         end
  end.

(** [line.indexOf(':')], counted from [i] *)
Fixpoint indexOf_colon (line : string) (i : Z) : Z :=
  match line with
  | EmptyString => -1
  | String c line' =>
    if Ascii.eqb c COLON_CHARACTER then i else indexOf_colon line' (i + 1)
  end.

(** [line.substr(from)] and [line.substr(0, length)] *)
Definition substr_from (line : string) (from : Z) : string :=
  substring (Z.to_nat from) (String.length line - Z.to_nat from) line.
Definition substr_to (line : string) (length : Z) : string :=
  substring 0 (Z.to_nat length) line.

(** [line.startsWith(c)] for a one-character [c] *)
Definition startsWith (c : ascii) (line : string) : bool :=
  match line with
  | String c' _ => Ascii.eqb c' c
  | EmptyString => false
  end.

(** One turn of the constructor's loop over the lines, on the locals
    [(eventId, eventName, eventData)]. *)
Definition constructor_line (st : option string * string * string) (line : string)
    : option string * string * string :=
  let '(eventId, eventName, eventData) := st in
  if startsWith COLON_CHARACTER line then st
  else
    let colonIndex := indexOf_colon line 0 in
    let '(fieldName, fieldValue) :=
      if -1 <? colonIndex then
        let fieldName := substr_to line colonIndex in
        let fieldValue := substr_from line (colonIndex + 1) in
        (fieldName,
         if startsWith SPACE_CHARACTER fieldValue then substr_from fieldValue 1
         else fieldValue)
      else (line, EmptyString) in
    if String.eqb fieldName "event" then (eventId, fieldValue, eventData)
    else if String.eqb fieldName "data" then (eventId, eventName, eventData +:+ fieldValue +:+ LF)
    else if String.eqb fieldName "id" then
      if negb (includes_NUL fieldValue) then (Some fieldValue, eventName, eventData)
      else st
    else st.

Definition new_EventSourceEvent (data : string) : EventSourceEvent :=
  let '(eventId, eventName, eventData) :=
    fold_left constructor_line (split data) (None, EmptyString, EmptyString) in
  mkEventSourceEvent eventId
    (match eventName with EmptyString => "message" | _ => eventName end)
    eventData.

(** [get empty()] *)
Definition empty (e : EventSourceEvent) : bool :=
  match data e with EmptyString => true | _ => false end.

End Fetch.

(** The headers of the request [connect()] opens, if it opens one. *)
Definition request_headers (this : EventSource) : option (gmap string string) :=
  if snd (connect this) then last (requests (fst (connect this))) else None.


(** C9 as the specification states its teardown part: once an input has
    left the client disconnected, no heartbeat timer is armed. *)
Definition timer_stopped_by_teardown (c : Client) (i : Input) : Prop :=
  readyState (this_ (step c i)) = DISCONNECTED ->
  heartbeatInterval (this_ (step c i)) = None.

(** The three classes of failure of a connection attempt, each with the
    input that carries it and the error it ends the attempt with. *)
Inductive failure : Client -> Input -> Err -> Prop :=
| transport_failure c n message :
    inflight c = S n ->
    failure c (Failure message) (TransportFailure message)
| status_failure c n statusCode contentType :
    inflight c = S n -> writable c = None -> statusCode <> 200 ->
    failure c (ResponseHead statusCode contentType) (ResponseNotOK statusCode)
| content_type_failure c n contentType :
    inflight c = S n -> writable c = None ->
    header_includes "text/event-stream" contentType = false ->
    failure c (ResponseHead 200 (Some contentType))
      (ContentTypeNotEventStream (header_text contentType))
| content_type_missing c n :
    inflight c = S n -> writable c = None ->
    failure c (ResponseHead 200 None) TypeError
| heartbeat_failure c w r now :
    heartbeatInterval (this_ c) = Some w -> writable c = Some (w, r) ->
    heartbeat_seen (this_ c) now = false ->
    failure c (Tick now) (NoHeartbeat (heartbeatTimeout (options (this_ c)))).

(** C8 as the specification states its order: the state is already
    [DISCONNECTED] when the [disconnected] notification, the last one of
    a failed attempt, is emitted. *)
Definition disconnected_emitted_after_state_set (c : Client) (i : Input) : Prop :=
  last (emitted (this_ (step c i))) = Some Disconnected /\
  last (seen (this_ (step c i))) = Some DISCONNECTED.

(** A content type [handleResponse] accepts. *)
Definition event_stream : option HeaderValue := Some (Single "text/event-stream").


(** What holds of the client at all times: a request is in flight
    exactly while the state is [CONNECTING] or [CONNECTED] and
    [connect()] has not been left by a throw; a writable exists only in
    state [CONNECTED], with [connect()] waiting; and a [connect()] left
    by a throw has left the state as it was during the attempt. *)
Definition client_inv (c : Client) : Prop :=
  inflight c =
    (if connecting_or_connected (readyState (this_ c)) then
       match uncaught (this_ c) with Some _ => 0 | None => 1 end
     else 0)%nat /\
  (writable c <> None ->
   readyState (this_ c) = CONNECTED /\ uncaught (this_ c) = None) /\
  (uncaught (this_ c) <> None ->
   connecting_or_connected (readyState (this_ c)) = true).

(** ** Records and their events *)

(** An [event:] line: the field before its first colon is [event]. *)
Definition is_event_line (line : Buffer) : bool :=
  (0 <=? colon_index line 0) && String.eqb (line_field line) "event".

(** The pending event name after the lines of a record: the value of the
    last [event:] line, [init] without one. *)
Definition pending_name (lines : list Buffer) (init : option string) : option string :=
  fold_left (fun acc line => if is_event_line line then Some (line_value line) else acc)
    lines init.

(** What a record emits when the pending name and id before it are
    [name0] and [id0]: nothing without a [data:] line, one event
    otherwise. *)
Definition record_notification (lines : list Buffer) (name0 id0 : option string)
    : list Notification :=
  match data_values lines with
  | [] => []
  | values =>
    [Event (or_message (pending_name lines name0)) (pending_id lines id0)
       (pending_name lines name0) (joined_by_LF values)]
  end.



(** The locals of [handleResponse] after a blank line. *)
Definition reset_response (r : Response) : Response :=
  mkResponse None None EmptyString (heartbeat r) (buffer r) (discardTrailingNewline r).

(** A line the assembler passes over: a comment (first byte a colon), or
    a field other than [data], [event] and [id]. *)
Definition passed_over (line : Buffer) : bool :=
  (colon_index line 0 =? 0) ||
  ((0 <? colon_index line 0) &&
   negb (String.eqb (line_field line) "data") &&
   negb (String.eqb (line_field line) "event") &&
   negb (String.eqb (line_field line) "id")).

(** [line] has no colon in it. *)
Definition colon_free (line : Buffer) : bool :=
  forallb (fun c => negb (Ascii.eqb c COLON_CHARACTER)) line.

(** [line] does not begin with a space. *)
Definition no_leading_space (line : Buffer) : bool :=
  match line with
  | c :: _ => negb (Ascii.eqb c SPACE_CHARACTER)
  | [] => true
  end.

(** ** Notifications by kind *)

Definition is_Event (n : Notification) : bool :=
  match n with Event _ _ _ _ => true | _ => false end.

Definition is_Connecting (n : Notification) : bool :=
  match n with Connecting => true | _ => false end.

Definition is_Connected (n : Notification) : bool :=
  match n with Connected => true | _ => false end.

Definition is_Disconnected (n : Notification) : bool :=
  match n with Disconnected => true | _ => false end.

Definition is_Error (n : Notification) : bool :=
  match n with Error _ => true | _ => false end.

(** How many notifications of a kind were emitted. *)
Definition count (kind : Notification -> bool) (l : list Notification) : nat :=
  length (List.filter kind l).

(** The ready states a listener can read during a notification:
    [connecting] in state CONNECTING, [connected] and events in state
    CONNECTED, [error] and [disconnected] in either of the two. *)
Definition read_during (n : Notification) (s : ReadyState) : bool :=
  match n, s with
  | Connecting, CONNECTING => true
  | Connected, CONNECTED => true
  | Event _ _ _ _, CONNECTED => true
  | Error _, (CONNECTING | CONNECTED) => true
  | Disconnected, (CONNECTING | CONNECTED) => true
  | _, _ => false
  end.

(** The attempts that [connect()] left by a throw. *)
Definition thrown (this : EventSource) : nat :=
  match uncaught this with Some _ => 1 | None => 0 end.

(** What the notifications emitted so far always satisfy: one request
    per [connecting]; one [disconnected] per attempt that ended, but for
    the one [connect()] left by a throw; at most one [connected] per
    attempt; no [error] without its [disconnected]; and each
    notification emitted in a state [read_during] allows. *)
Definition trace_inv (c : Client) : Prop :=
  length (requests (this_ c)) = count is_Connecting (emitted (this_ c)) /\
  count is_Connecting (emitted (this_ c)) =
    (count is_Disconnected (emitted (this_ c)) + inflight c + thrown (this_ c))%nat /\
  (count is_Connected (emitted (this_ c)) <=
     count is_Disconnected (emitted (this_ c)) +
     match writable c with Some _ => 1 | None => 0 end + thrown (this_ c))%nat /\
  (count is_Error (emitted (this_ c)) <= count is_Disconnected (emitted (this_ c)))%nat /\
  Forall2 (fun n s => read_during n s = true) (emitted (this_ c)) (seen (this_ c)).

(** ** The earlier variant: the fields of an event text, and the
       [data] handler of [handleResponse] *)

Module FetchStream.

(** The field name and value the constructor's loop reads off a line;
    [None] for a comment. *)
Definition field_of (line : string) : option (string * string) :=
  if Fetch.startsWith COLON_CHARACTER line then None
  else
    let colonIndex := Fetch.indexOf_colon line 0 in
    if -1 <? colonIndex then
      let fieldValue := Fetch.substr_from line (colonIndex + 1) in
      Some (Fetch.substr_to line colonIndex,
            if Fetch.startsWith SPACE_CHARACTER fieldValue
            then Fetch.substr_from fieldValue 1 else fieldValue)
    else Some (line, EmptyString).

(** The fields of an event text, line by line. *)
Definition fields (text : string) : list (string * string) :=
  omap field_of (Fetch.split text).

(** The values of the fields named [name]. *)
Definition values_of (name : string) (fs : list (string * string)) : list string :=
  map snd (List.filter (fun fv => String.eqb (fst fv) name) fs).

(** Two terminators in a row somewhere in [s]. *)
Fixpoint has_event_ending (s : string) : bool :=
  match s with
  | EmptyString => false
  | String c s' =>
    match s' with
    | String c' _ => (is_terminator c && is_terminator c') || has_event_ending s'
    | EmptyString => false
    end
  end.


(** [buffer.split(EVENT_ENDING_REGEX)].  Each group of the expression
    tries a lone CR, then a lone LF, then CRLF, so a match is any two
    terminators in a row, found leftmost; the search resumes after the
    match. *)
Fixpoint split_events (s : string) : list string :=
  match s with
  | EmptyString => [EmptyString]
  | String c s' =>
    match s' with
    | String c' s'' =>
      if is_terminator c && is_terminator c' then EmptyString :: split_events s''
      else match split_events s' with
           | piece :: pieces => String c piece :: pieces
           | [] => [String c EmptyString]
           end
    | EmptyString => [String c EmptyString]
    end
  end.

(** What the [data] handler closes over and acts on: its [buffer], the
    instance's [lastEventId], the events emitted (channel and object),
    and the time the armed heartbeat timer is due. *)
Record Handler := mkHandler {
  buffer : string;
  lastEventId : option string;
  emitted : list (string * Fetch.EventSourceEvent);
  heartbeatTimeout : option Z
}.

(** [resetHeartbeatTimeout(callback)] at time [now]: the armed timer, if
    any, is cleared and a new one is due one timeout later. *)
Definition resetHeartbeatTimeout (timeout : Z) (now : Z) (h : Handler) : Handler :=
  mkHandler (buffer h) (lastEventId h) (emitted h) (Some (now + timeout)).

(** One turn of the handler's loop over the buffered events. *)
Definition buffered_event (h : Handler) (bufferedEvent : string) : Handler :=
  match bufferedEvent with
  | EmptyString => h
  | _ =>
    let event := Fetch.new_EventSourceEvent bufferedEvent in
    let h :=
      if negb (Fetch.empty event)
      then mkHandler (buffer h) (lastEventId h)
             (emitted h ++ [(Fetch.name event, event)]) (heartbeatTimeout h)
      else h in
    if truthy (Fetch.id event)
    then mkHandler (buffer h) (Fetch.id event) (emitted h) (heartbeatTimeout h)
    else h
  end.

(** The [data] handler of the earlier [handleResponse], called with
    [chunk.toString('utf8')] at time [now]. *)
Definition on_data (timeout : Z) (h : Handler) (chunk : string) (now : Z) : Handler :=
  let h := resetHeartbeatTimeout timeout now h in
  let h := mkHandler (buffer h +:+ chunk) (lastEventId h) (emitted h) (heartbeatTimeout h) in
  let bufferedEvents := split_events (buffer h) in
  if (length bufferedEvents <? 2)%nat then h
  else
    let h := fold_left buffered_event (removelast bufferedEvents) h in
    mkHandler EmptyString (lastEventId h) (emitted h) (heartbeatTimeout h).

End FetchStream.

(** ** Lines with their terminators *)

(** The three line terminators of the wire format. *)
Inductive Terminator := Term_LF | Term_CR | Term_CRLF.

Definition terminator_bytes (t : Terminator) : Buffer :=
  match t with
  | Term_LF => [LINE_FEED_CHARACTER]
  | Term_CR => [CARRIAGE_RETURN_CHARACTER]
  | Term_CRLF => [CARRIAGE_RETURN_CHARACTER; LINE_FEED_CHARACTER]
  end.

(** The lines on the wire, each ended by its own terminator. *)
Definition ended_lines (lines : list (Buffer * Terminator)) : Buffer :=
  concat (map (fun l => fst l ++ terminator_bytes (snd l)) lines).

(** The last of the lines is ended by a lone CR. *)
Definition ends_in_CR (lines : list (Buffer * Terminator)) : bool :=
  match last lines with
  | Some (_, Term_CR) => true
  | _ => false
  end.


(** * Properties *)

(** ** Bytes and terminators *)

Lemma is_terminator_cases c :
  is_terminator c = true ->
  c = CARRIAGE_RETURN_CHARACTER \/ c = LINE_FEED_CHARACTER.
Proof.
  unfold is_terminator. intros H. apply orb_true_iff in H.
  destruct H as [H | H]; apply Ascii.eqb_eq in H; auto.
Qed.

Lemma not_terminator_neq c :
  is_terminator c = false ->
  Ascii.eqb c CARRIAGE_RETURN_CHARACTER = false /\
  Ascii.eqb c LINE_FEED_CHARACTER = false.
Proof. unfold is_terminator. intros H. apply orb_false_iff in H. exact H. Qed.

Lemma terminator_not_colon c :
  is_terminator c = true -> Ascii.eqb c COLON_CHARACTER = false.
Proof. intros H. destruct (is_terminator_cases c H); subst; reflexivity. Qed.

Lemma terminator_free_app l1 l2 :
  terminator_free (l1 ++ l2) = terminator_free l1 && terminator_free l2.
Proof. unfold terminator_free. apply forallb_app. Qed.

Lemma terminator_free_cons c l :
  terminator_free (c :: l) = negb (is_terminator c) && terminator_free l.
Proof. reflexivity. Qed.

(** ** The scanning loop finds the first terminator *)

Lemma triple_eq {A B C} (a a' : A) (b b' : B) (c c' : C) :
  a = a' -> b = b' -> c = c' -> (a, b, c) = (a', b', c').
Proof. congruence. Qed.

Lemma scan_line_done rest p i ll fl d :
  0 <= ll -> scan_line rest p i ll fl d = (ll, fl, d).
Proof.
  intros H. destruct rest as [| c rest]; simpl; [reflexivity |].
  destruct (ll <? 0) eqn:E; [lia | reflexivity].
Qed.

Lemma colon_index_shift line i k :
  colon_index line i <> -1 -> colon_index line (i + k) = colon_index line i + k.
Proof.
  revert i. induction line as [| c line IH]; intros i H; simpl in *; [congruence |].
  destruct (Ascii.eqb c COLON_CHARACTER); [reflexivity |].
  replace (i + k + 1) with (i + 1 + k) by lia. apply IH, H.
Qed.

Lemma colon_index_none line i j :
  0 <= i -> 0 <= j -> colon_index line i = -1 -> colon_index line j = -1.
Proof.
  revert i j. induction line as [| c line IH]; intros i j Hi Hj H; simpl in *; [reflexivity |].
  destruct (Ascii.eqb c COLON_CHARACTER); [lia |].
  apply (IH (i + 1) (j + 1)); lia || assumption.
Qed.

Lemma colon_index_range line i :
  0 <= i ->
  colon_index line i = -1 \/ i <= colon_index line i < i + Z.of_nat (length line).
Proof.
  revert i. induction line as [| c line IH]; intros i Hi; simpl; [left; reflexivity |].
  destruct (Ascii.eqb c COLON_CHARACTER); [right; lia |].
  destruct (IH (i + 1) ltac:(lia)) as [-> | H]; [left; reflexivity | right; lia].
Qed.

Lemma scan_line_terminated line t rest p i fl d :
  terminator_free line = true -> is_terminator t = true ->
  p <= i -> -1 <= fl ->
  scan_line (line ++ t :: rest) p i (-1) fl d =
    (i - p + Z.of_nat (length line),
     (if fl <? 0 then colon_index line (i - p) else fl),
     d || Ascii.eqb t CARRIAGE_RETURN_CHARACTER).
Proof.
  revert i fl. induction line as [| c line IH]; intros i fl Hfree Ht Hpi Hfl.
  - simpl. rewrite (terminator_not_colon t Ht).
    destruct (is_terminator_cases t Ht) as [-> | ->]; simpl;
      rewrite scan_line_done by lia;
      (apply triple_eq; [lia | destruct (Z.ltb_spec fl 0); lia |
                         destruct d; reflexivity]).
  - rewrite terminator_free_cons in Hfree. apply andb_true_iff in Hfree.
    destruct Hfree as [Hc Hfree]. apply negb_true_iff in Hc.
    destruct (not_terminator_neq c Hc) as [Hcr Hlf].
    cbn [app scan_line]. change (-1 <? 0) with true. cbv iota.
    rewrite Hcr, Hlf. cbn [colon_index length].
    destruct (Ascii.eqb c COLON_CHARACTER) eqn:Hcolon.
    + rewrite IH by (try assumption; try lia; destruct (Z.ltb_spec fl 0); lia).
      apply triple_eq; [lia | | reflexivity].
      destruct (Z.ltb_spec fl 0) as [E | E].
      * destruct (Z.ltb_spec (i - p) 0); [lia | reflexivity].
      * destruct (Z.ltb_spec fl 0); [lia | reflexivity].
    + rewrite IH by (assumption || lia).
      apply triple_eq; [lia | | reflexivity].
      replace (i + 1 - p) with (i - p + 1) by lia. reflexivity.
Qed.

Lemma scan_line_unterminated line p i fl d :
  terminator_free line = true ->
  exists fl', scan_line line p i (-1) fl d = (-1, fl', d).
Proof.
  revert i fl. induction line as [| c line IH]; intros i fl Hfree.
  - simpl. eauto.
  - rewrite terminator_free_cons in Hfree. apply andb_true_iff in Hfree.
    destruct Hfree as [Hc Hfree]. apply negb_true_iff in Hc.
    destruct (not_terminator_neq c Hc) as [Hcr Hlf].
    cbn [scan_line]. change (-1 <? 0) with true. cbv iota. rewrite Hcr, Hlf.
    destruct (Ascii.eqb c COLON_CHARACTER); apply IH, Hfree.
Qed.

(** ** Indexing a buffer relative to a line *)

Lemma byte_at_shift (pre x : Buffer) j :
  0 <= j -> byte_at (pre ++ x) (Z.of_nat (length pre) + j) = byte_at x j.
Proof.
  intros Hj. unfold byte_at.
  destruct (Z.ltb_spec (Z.of_nat (length pre) + j) 0); [lia |].
  destruct (Z.ltb_spec j 0); [lia |].
  rewrite lookup_app_r by lia. f_equal. lia.
Qed.

Lemma byte_at_prefix (x y : Buffer) j :
  j < Z.of_nat (length x) -> byte_at (x ++ y) j = byte_at x j.
Proof.
  intros Hj. unfold byte_at. destruct (Z.ltb_spec j 0); [reflexivity |].
  apply lookup_app_l. lia.
Qed.

Lemma slice_shift (pre x : Buffer) a b :
  0 <= a -> 0 <= b ->
  slice (pre ++ x) (Z.of_nat (length pre) + a) (Z.of_nat (length pre) + b) = slice x a b.
Proof.
  intros Ha Hb. unfold slice.
  replace (Z.to_nat (Z.of_nat (length pre) + a)) with (length pre + Z.to_nat a)%nat by lia.
  rewrite drop_app_add. f_equal. lia.
Qed.

Lemma slice_prefix (x y : Buffer) a b :
  b <= Z.of_nat (length x) -> slice (x ++ y) a b = slice x a b.
Proof.
  intros Hb. unfold slice.
  destruct (Nat.le_gt_cases (Z.to_nat a) (length x)) as [Ha | Ha].
  - rewrite drop_app_le by exact Ha. apply take_app_le. rewrite length_drop. lia.
  - replace (Z.to_nat b - Z.to_nat a)%nat with 0%nat by lia. reflexivity.
Qed.

Lemma parseEventStreamLine_shift this r (pre x : Buffer) p fl ll :
  0 <= p -> 0 <= ll ->
  parseEventStreamLine this r (pre ++ x) (Z.of_nat (length pre) + p) fl ll =
  parseEventStreamLine this r x p fl ll.
Proof.
  intros Hp Hll. unfold parseEventStreamLine.
  destruct (ll =? 0); [reflexivity |].
  destruct (Z.ltb_spec 0 fl) as [Hfl | Hfl]; [| reflexivity].
  destruct (Z.ltb_spec fl 0) as [? | _]; [lia |].
  replace (Z.of_nat (length pre) + p + fl) with (Z.of_nat (length pre) + (p + fl)) by lia.
  rewrite slice_shift by lia.
  replace (Z.of_nat (length pre) + (p + fl) + 1)
    with (Z.of_nat (length pre) + (p + fl + 1)) by lia.
  rewrite byte_at_shift by lia.
  destruct (negb (bool_decide (byte_at x (p + fl + 1) = Some SPACE_CHARACTER))).
  - replace (Z.of_nat (length pre) + p + (fl + 1))
      with (Z.of_nat (length pre) + (p + (fl + 1))) by lia.
    replace (Z.of_nat (length pre) + (p + (fl + 1)) + (ll - (fl + 1)))
      with (Z.of_nat (length pre) + (p + (fl + 1) + (ll - (fl + 1)))) by lia.
    rewrite slice_shift by lia. reflexivity.
  - replace (Z.of_nat (length pre) + p + (fl + 2))
      with (Z.of_nat (length pre) + (p + (fl + 2))) by lia.
    replace (Z.of_nat (length pre) + (p + (fl + 2)) + (ll - (fl + 2)))
      with (Z.of_nat (length pre) + (p + (fl + 2) + (ll - (fl + 2)))) by lia.
    rewrite slice_shift by lia. reflexivity.
Qed.

Lemma parseEventStreamLine_prefix this r (x y : Buffer) p fl ll :
  0 <= p -> fl < ll -> p + ll < Z.of_nat (length x) ->
  parseEventStreamLine this r (x ++ y) p fl ll =
  parseEventStreamLine this r x p fl ll.
Proof.
  intros Hp Hfl Hll. unfold parseEventStreamLine.
  destruct (ll =? 0); [reflexivity |].
  destruct (Z.ltb_spec 0 fl) as [Hfl0 | Hfl0]; [| reflexivity].
  destruct (Z.ltb_spec fl 0) as [? | _]; [lia |].
  rewrite (slice_prefix x y) by lia.
  rewrite (byte_at_prefix x y) by lia.
  destruct (negb (bool_decide (byte_at x (p + fl + 1) = Some SPACE_CHARACTER)));
    rewrite (slice_prefix x y) by lia; reflexivity.
Qed.

(** Inside any buffer, the assembler sees a line as [process_line] does. *)
Lemma parseEventStreamLine_line this r (pre line rest : Buffer) t :
  parseEventStreamLine this r (pre ++ line ++ t :: rest) (Z.of_nat (length pre))
    (colon_index line 0) (Z.of_nat (length line)) =
  process_line this r line t.
Proof.
  unfold process_line.
  replace (Z.of_nat (length pre)) with (Z.of_nat (length pre) + 0) by lia.
  rewrite parseEventStreamLine_shift by lia.
  change (line ++ t :: rest) with (line ++ [t] ++ rest).
  rewrite app_assoc.
  destruct (colon_index_range line 0 ltac:(lia)) as [E | E].
  - rewrite E. unfold parseEventStreamLine.
    destruct (Z.of_nat (length line) =? 0); reflexivity.
  - apply parseEventStreamLine_prefix; try lia.
    rewrite length_app. simpl. lia.
Qed.

(** ** The byte-at-a-time reading *)

Lemma set_discardTrailingNewline_same r :
  set_discardTrailingNewline (discardTrailingNewline r) r = r.
Proof. destruct r; reflexivity. Qed.

Lemma set_discardTrailingNewline_twice d d' r :
  set_discardTrailingNewline d (set_discardTrailingNewline d' r) =
  set_discardTrailingNewline d r.
Proof. reflexivity. Qed.

Lemma split_line (b : Buffer) :
  terminator_free b = true \/
  exists line t rest,
    b = line ++ t :: rest /\ terminator_free line = true /\ is_terminator t = true.
Proof.
  induction b as [| c b IH]; [left; reflexivity |].
  destruct (is_terminator c) eqn:Hc.
  - right. exists [], c, b. auto.
  - destruct IH as [IH | (line & t & rest & -> & Hl & Ht)].
    + left. rewrite terminator_free_cons, Hc, IH. reflexivity.
    + right. exists (c :: line), t, rest. repeat split; try assumption.
      rewrite terminator_free_cons, Hc, Hl. reflexivity.
Qed.

Lemma feed_unterminated acc this r (l : Buffer) :
  discardTrailingNewline r = false -> terminator_free l = true ->
  feed acc this r l = (this, r, acc ++ l).
Proof.
  revert acc. induction l as [| c l IH]; intros acc Hd Hl; simpl.
  - rewrite app_nil_r. reflexivity.
  - rewrite terminator_free_cons in Hl. apply andb_true_iff in Hl.
    destruct Hl as [Hc Hl]. apply negb_true_iff in Hc.
    rewrite Hd, Hc. simpl.
    rewrite <- Hd at 1. rewrite set_discardTrailingNewline_same.
    rewrite IH by assumption. rewrite <- app_assoc. reflexivity.
Qed.

Lemma feed_line acc this r (line rest : Buffer) t :
  discardTrailingNewline r = false ->
  terminator_free line = true -> is_terminator t = true ->
  feed acc this r (line ++ t :: rest) =
    let '(this', r') :=
      process_line this
        (set_discardTrailingNewline (Ascii.eqb t CARRIAGE_RETURN_CHARACTER) r)
        (acc ++ line) t in
    feed [] this' r' rest.
Proof.
  revert acc. induction line as [| c line IH]; intros acc Hd Hl Ht.
  - simpl. rewrite Hd, Ht, app_nil_r. reflexivity.
  - rewrite terminator_free_cons in Hl. apply andb_true_iff in Hl.
    destruct Hl as [Hc Hl]. apply negb_true_iff in Hc.
    cbn [app feed]. rewrite Hd, Hc. cbn [andb].
    rewrite <- Hd at 1. rewrite set_discardTrailingNewline_same.
    rewrite IH by assumption. rewrite <- app_assoc. reflexivity.
Qed.

Lemma feed_app acc this r (b1 b2 : Buffer) :
  feed acc this r (b1 ++ b2) =
    let '(this', r', acc') := feed acc this r b1 in feed acc' this' r' b2.
Proof.
  revert acc this r. induction b1 as [| c b1 IH]; intros acc this r; [reflexivity |].
  cbn [app feed].
  destruct (discardTrailingNewline r && Ascii.eqb c LINE_FEED_CHARACTER); [apply IH |].
  destruct (is_terminator c); [| apply IH].
  destruct (process_line _ _ _ _) as [this' r']. apply IH.
Qed.

(** ** The scanning loop reads the stream as [feed] does *)

Lemma write_loop_feed n : forall fuel (buffer pre b : Buffer) this r,
  (length b <= n)%nat -> (n < fuel)%nat -> buffer = pre ++ b ->
  write_loop fuel buffer (Z.of_nat (length buffer)) this r (Z.of_nat (length pre)) =
    let '(this', r', acc) := feed [] this r b in
    (this', r', Z.of_nat (length buffer) - Z.of_nat (length acc)).
Proof.
  induction n as [| n IH]; intros fuel buffer pre b this r Hn Hfuel Hbuf.
  - destruct b; [| simpl in Hn; lia]. destruct fuel; [lia |].
    subst buffer. rewrite app_nil_r. simpl.
    rewrite Z.ltb_irrefl. f_equal. lia.
  - destruct fuel as [| fuel]; [lia |].
    destruct b as [| c b].
    { subst buffer. rewrite app_nil_r. simpl. rewrite Z.ltb_irrefl. f_equal. lia. }
    (* after the discard step the iteration scans [b1] from [pre1] *)
    assert (Htail : forall (pre1 b1 : Buffer) r1,
      buffer = pre1 ++ b1 -> (length b1 <= S n)%nat ->
      discardTrailingNewline r1 = false ->
      (let '(lineLength, fieldLength, discard) :=
         scan_line (slice_from buffer (Z.of_nat (length pre1)))
           (Z.of_nat (length pre1)) (Z.of_nat (length pre1)) (-1) (-1)
           (discardTrailingNewline r1) in
       let r := set_discardTrailingNewline discard r1 in
       if lineLength <? 0 then (this, r, Z.of_nat (length pre1))
       else
         let '(this, r) :=
           parseEventStreamLine this r buffer (Z.of_nat (length pre1))
             fieldLength lineLength in
         write_loop fuel buffer (Z.of_nat (length buffer)) this r
           (Z.of_nat (length pre1) + lineLength + 1)) =
      let '(this', r', acc) := feed [] this r1 b1 in
      (this', r', Z.of_nat (length buffer) - Z.of_nat (length acc))).
    { intros pre1 b1 r1 Hb1 Hlen Hd1.
      unfold slice_from. rewrite Nat2Z.id, Hb1, drop_app_length.
      destruct (split_line b1) as [Hfree | (line & t & rest & -> & Hl & Ht)].
      - destruct (scan_line_unterminated b1 (Z.of_nat (length pre1))
                    (Z.of_nat (length pre1)) (-1) (discardTrailingNewline r1) Hfree)
          as [fl' ->].
        rewrite feed_unterminated by assumption. simpl.
        rewrite set_discardTrailingNewline_same. f_equal.
        rewrite length_app. lia.
      - rewrite scan_line_terminated by (assumption || lia).
        rewrite feed_line by assumption. rewrite Hd1. cbn [orb app].
        replace (Z.of_nat (length pre1) - Z.of_nat (length pre1) +
                 Z.of_nat (length line)) with (Z.of_nat (length line)) by lia.
        replace (Z.of_nat (length pre1) - Z.of_nat (length pre1)) with 0 by lia.
        cbn [Z.ltb Z.compare].
        destruct (Z.ltb_spec (Z.of_nat (length line)) 0); [lia |].
        rewrite parseEventStreamLine_line.
        destruct (process_line _ _ _ _) as [this' r'].
        replace (Z.of_nat (length pre1) + Z.of_nat (length line) + 1)
          with (Z.of_nat (length (pre1 ++ line ++ [t])))
          by (rewrite !length_app; simpl; lia).
        rewrite <- Hb1.
        apply IH; [| lia |].
        + rewrite length_app in Hlen. simpl in Hlen. lia.
        + rewrite Hb1, <- !app_assoc. reflexivity. }
    cbn [write_loop].
    assert (Hlt : (Z.of_nat (length pre) <? Z.of_nat (length buffer)) = true).
    { apply Z.ltb_lt. subst buffer. rewrite length_app. simpl. lia. }
    rewrite Hlt.
    destruct (discardTrailingNewline r) eqn:Hd.
    + assert (Hat : byte_at buffer (Z.of_nat (length pre)) = Some c).
      { subst buffer. replace (Z.of_nat (length pre)) with (Z.of_nat (length pre) + 0) by lia.
        rewrite byte_at_shift by lia. reflexivity. }
      rewrite Hat. cbn [feed]. rewrite Hd. cbn [andb].
      destruct (Ascii.eqb_spec c LINE_FEED_CHARACTER) as [-> | Hne].
      * rewrite bool_decide_true by reflexivity.
        replace (Z.of_nat (length pre) + 1) with (Z.of_nat (length (pre ++ [LINE_FEED_CHARACTER])))
          by (rewrite length_app; simpl; lia).
        apply (Htail (pre ++ [LINE_FEED_CHARACTER]) b).
        -- rewrite Hbuf, <- app_assoc. reflexivity.
        -- simpl in Hn. lia.
        -- reflexivity.
      * rewrite bool_decide_false by congruence.
        etransitivity;
          [exact (Htail pre (c :: b) (set_discardTrailingNewline false r) Hbuf Hn eq_refl) |].
        apply Ascii.eqb_neq in Hne. cbn [feed]. rewrite Hne, andb_false_r.
        cbn [set_discardTrailingNewline discardTrailingNewline andb].
        rewrite !set_discardTrailingNewline_twice. reflexivity.
    + exact (Htail pre (c :: b) r Hbuf Hn Hd).
Qed.

Lemma write_loop_feed0 fuel (buffer : Buffer) this r :
  (length buffer < fuel)%nat ->
  write_loop fuel buffer (Z.of_nat (length buffer)) this r 0 =
    let '(this', r', acc) := feed [] this r buffer in
    (this', r', Z.of_nat (length buffer) - Z.of_nat (length acc)).
Proof.
  intros H.
  exact (write_loop_feed (length buffer) fuel buffer [] buffer this r
           (Nat.le_refl _) H eq_refl).
Qed.

(** The loop of [write] always ends by its own test: more fuel than
    [write] passes changes nothing. *)
Lemma write_loop_fuel fuel (buffer : Buffer) this r :
  (length buffer < fuel)%nat ->
  write_loop fuel buffer (Z.of_nat (length buffer)) this r 0 =
  write_loop (S (length buffer)) buffer (Z.of_nat (length buffer)) this r 0.
Proof.
  intros H. rewrite !write_loop_feed0 by lia. reflexivity.
Qed.

(** ** What the assembler leaves alone *)

Ltac unfold_response :=
  cbn [set_buffer set_eventData set_eventId set_eventName set_discardTrailingNewline
       eventData eventId eventName heartbeat buffer discardTrailingNewline].

Ltac parse_cases r :=
  destruct r as [? ? ? ? ? ?];
  unfold parseEventStreamLine; unfold_response;
  repeat first
    [ progress unfold_response
    | match goal with
      | |- context [if ?c then _ else _] => destruct c
      | |- context [match ?x with Some _ => _ | None => _ end] => destruct x
      end ].

Lemma parseEventStreamLine_set_buffer this r v (b : Buffer) p fl ll :
  parseEventStreamLine this (set_buffer v r) b p fl ll =
    let '(this', r') := parseEventStreamLine this r b p fl ll in
    (this', set_buffer v r').
Proof. parse_cases r; reflexivity. Qed.

Lemma parseEventStreamLine_set_lastHeartbeat this r v (b : Buffer) p fl ll :
  parseEventStreamLine (set_lastHeartbeat v this) r b p fl ll =
    let '(this', r') := parseEventStreamLine this r b p fl ll in
    (set_lastHeartbeat v this', r').
Proof. parse_cases r; reflexivity. Qed.

Lemma parseEventStreamLine_keeps this r (b : Buffer) p fl ll :
  let '(this', r') := parseEventStreamLine this r b p fl ll in
  heartbeat r' = heartbeat r /\ buffer r' = buffer r /\
  discardTrailingNewline r' = discardTrailingNewline r.
Proof. parse_cases r; auto. Qed.

Lemma feed_set_buffer v (bs : Buffer) : forall acc this r,
  feed acc this (set_buffer v r) bs =
    let '(this', r', acc') := feed acc this r bs in (this', set_buffer v r', acc').
Proof.
  induction bs as [| c bs IH]; intros acc this r; [reflexivity |].
  cbn [feed]. change (discardTrailingNewline (set_buffer v r)) with (discardTrailingNewline r).
  destruct (discardTrailingNewline r && Ascii.eqb c LINE_FEED_CHARACTER).
  { apply (IH acc this (set_discardTrailingNewline false r)). }
  destruct (is_terminator c).
  - unfold process_line.
    change (set_discardTrailingNewline (Ascii.eqb c CARRIAGE_RETURN_CHARACTER) (set_buffer v r))
      with (set_buffer v (set_discardTrailingNewline (Ascii.eqb c CARRIAGE_RETURN_CHARACTER) r)).
    rewrite parseEventStreamLine_set_buffer.
    destruct (parseEventStreamLine _ _ _ _ _ _) as [this' r']. apply IH.
  - apply (IH (acc ++ [c]) this (set_discardTrailingNewline false r)).
Qed.

Lemma feed_set_lastHeartbeat v (bs : Buffer) : forall acc this r,
  feed acc (set_lastHeartbeat v this) r bs =
    let '(this', r', acc') := feed acc this r bs in (set_lastHeartbeat v this', r', acc').
Proof.
  induction bs as [| c bs IH]; intros acc this r; [reflexivity |].
  cbn [feed].
  destruct (discardTrailingNewline r && Ascii.eqb c LINE_FEED_CHARACTER); [apply IH |].
  destruct (is_terminator c); [| apply IH].
  unfold process_line. rewrite parseEventStreamLine_set_lastHeartbeat.
  destruct (parseEventStreamLine _ _ _ _ _ _) as [this' r']. apply IH.
Qed.

Lemma feed_heartbeat (bs : Buffer) : forall acc this r,
  let '(this', r', acc') := feed acc this r bs in heartbeat r' = heartbeat r.
Proof.
  induction bs as [| c bs IH]; intros acc this r; [reflexivity |].
  cbn [feed].
  destruct (discardTrailingNewline r && Ascii.eqb c LINE_FEED_CHARACTER).
  { apply (IH acc this (set_discardTrailingNewline false r)). }
  destruct (is_terminator c).
  - unfold process_line.
    pose proof (parseEventStreamLine_keeps this
      (set_discardTrailingNewline (Ascii.eqb c CARRIAGE_RETURN_CHARACTER) r)
      (acc ++ [c]) 0 (colon_index acc 0) (Z.of_nat (length acc))) as K.
    destruct (parseEventStreamLine _ _ _ _ _ _) as [this' r'].
    destruct K as (K & _ & _).
    specialize (IH [] this' r'). destruct (feed [] this' r' bs) as [[? ?] ?].
    rewrite IH, K. reflexivity.
  - apply (IH (acc ++ [c]) this (set_discardTrailingNewline false r)).
Qed.

(** ** The retained fragment *)

Lemma after_last_terminator_free (b : Buffer) :
  terminator_free b = true -> after_last_terminator b = b.
Proof.
  destruct b as [| c b]; [reflexivity |]. intros H.
  cbn [after_last_terminator]. rewrite H. reflexivity.
Qed.

Lemma after_last_terminator_terminated (l rest : Buffer) t :
  is_terminator t = true ->
  after_last_terminator (l ++ t :: rest) = after_last_terminator rest.
Proof.
  intros Ht. induction l as [| c l IH].
  - cbn [app after_last_terminator]. rewrite terminator_free_cons, Ht. reflexivity.
  - cbn [app after_last_terminator]. rewrite terminator_free_cons, terminator_free_app,
      terminator_free_cons, Ht.
    cbn [negb andb]. rewrite !andb_false_r. exact IH.
Qed.

Lemma after_last_terminator_cons (rest : Buffer) t :
  is_terminator t = true ->
  after_last_terminator (t :: rest) = after_last_terminator rest.
Proof. exact (after_last_terminator_terminated [] rest t). Qed.

Lemma after_last_terminator_is_free (b : Buffer) :
  terminator_free (after_last_terminator b) = true.
Proof.
  induction b as [| c b IH]; [reflexivity |].
  cbn [after_last_terminator]. destruct (terminator_free (c :: b)) eqn:E; assumption.
Qed.

Lemma after_last_terminator_length (b : Buffer) :
  (length (after_last_terminator b) <= length b)%nat.
Proof.
  induction b as [| c b IH]; [reflexivity |].
  cbn [after_last_terminator]. destruct (terminator_free (c :: b)); simpl; lia.
Qed.

Lemma after_last_terminator_drop (b : Buffer) :
  drop (length b - length (after_last_terminator b)) b = after_last_terminator b.
Proof.
  induction b as [| c b IH]; [reflexivity |].
  cbn [after_last_terminator]. destruct (terminator_free (c :: b)).
  - rewrite Nat.sub_diag. reflexivity.
  - pose proof (after_last_terminator_length b).
    replace (length (c :: b) - length (after_last_terminator b))%nat
      with (S (length b - length (after_last_terminator b))) by (simpl; lia).
    exact IH.
Qed.

Lemma feed_retains (bs : Buffer) : forall acc this r,
  terminator_free acc = true ->
  (discardTrailingNewline r = true -> acc = []) ->
  let '(this', r', acc') := feed acc this r bs in
  acc' = after_last_terminator (acc ++ bs) /\
  (discardTrailingNewline r' = true -> acc' = []).
Proof.
  induction bs as [| c bs IH]; intros acc this r Hacc Hd.
  - simpl. rewrite app_nil_r, after_last_terminator_free by assumption. auto.
  - cbn [feed].
    destruct (discardTrailingNewline r) eqn:Ed.
    + rewrite (Hd eq_refl) in *. cbn [andb app].
      destruct (Ascii.eqb_spec c LINE_FEED_CHARACTER) as [-> | Hne].
      * specialize (IH [] this (set_discardTrailingNewline false r) eq_refl
                      ltac:(discriminate)).
        destruct (feed _ _ _ bs) as [[this' r'] acc'].
        rewrite (after_last_terminator_cons bs LINE_FEED_CHARACTER eq_refl).
        exact IH.
      * destruct (is_terminator c) eqn:Ec.
        -- pose proof (parseEventStreamLine_keeps this
             (set_discardTrailingNewline (Ascii.eqb c CARRIAGE_RETURN_CHARACTER) r)
             ([] ++ [c]) 0 (colon_index [] 0) (Z.of_nat (length (@nil ascii)))) as K.
           unfold process_line.
           destruct (parseEventStreamLine _ _ _ _ _ _) as [this1 r1].
           specialize (IH [] this1 r1 eq_refl ltac:(auto)).
           destruct (feed _ _ _ bs) as [[this' r'] acc'].
           rewrite (after_last_terminator_cons bs c Ec). exact IH.
        -- specialize (IH [c] this (set_discardTrailingNewline false r)).
           destruct (feed _ _ _ bs) as [[this' r'] acc'].
           apply IH; [| discriminate].
           rewrite terminator_free_cons, Ec. reflexivity.
    + cbn [andb]. destruct (is_terminator c) eqn:Ec.
      * unfold process_line.
        destruct (parseEventStreamLine _ _ _ _ _ _) as [this1 r1].
        specialize (IH [] this1 r1 eq_refl ltac:(auto)).
        destruct (feed _ _ _ bs) as [[this' r'] acc'].
        rewrite (after_last_terminator_terminated acc bs c Ec). exact IH.
      * specialize (IH (acc ++ [c]) this (set_discardTrailingNewline false r)).
        destruct (feed _ _ _ bs) as [[this' r'] acc'].
        replace (acc ++ c :: bs) with ((acc ++ [c]) ++ bs)
          by (rewrite <- app_assoc; reflexivity).
        apply IH; [| discriminate].
        rewrite terminator_free_app, Hacc, terminator_free_cons, Ec. reflexivity.
Qed.

Lemma parser_inv_acc r :
  parser_inv r ->
  terminator_free (buffer_bytes r) = true /\
  (discardTrailingNewline r = true -> buffer_bytes r = []).
Proof.
  unfold parser_inv, buffer_bytes. destruct (buffer r) as [t |].
  - intros (_ & Hfree & Hd). split; [assumption | congruence].
  - auto.
Qed.

Lemma feed_retained this r (chunk : Buffer) :
  parser_inv r ->
  feed [] this r (buffer_bytes r ++ chunk) = feed (buffer_bytes r) this r chunk.
Proof.
  intros Hinv. unfold parser_inv, buffer_bytes in *.
  destruct (buffer r) as [t |]; [| reflexivity].
  destruct Hinv as (_ & Hfree & Hd).
  rewrite feed_app, feed_unterminated by assumption. reflexivity.
Qed.

(** [write] in terms of the byte-at-a-time reading. *)
Lemma write_feed this r (chunk : Buffer) now :
  parser_inv r ->
  write this r chunk now =
    let '(this', r', acc) := feed (buffer_bytes r) this r chunk in
    ((if heartbeat r then set_lastHeartbeat (Some now) this' else this'),
     set_buffer (retained acc) r').
Proof.
  intros Hinv. unfold write.
  replace (match buffer r with Some b => b ++ chunk | None => chunk end)
    with (buffer_bytes r ++ chunk) by (unfold buffer_bytes; destruct (buffer r); reflexivity).
  rewrite write_loop_feed0 by lia.
  rewrite feed_retained by assumption.
  destruct (parser_inv_acc r Hinv) as [Hfree Hd].
  pose proof (feed_retains chunk (buffer_bytes r) this r Hfree Hd) as R.
  pose proof (feed_heartbeat chunk (buffer_bytes r) this r) as Hhb.
  destruct (feed (buffer_bytes r) this r chunk) as [[this' r'] acc].
  destruct R as [Racc _].
  set (b := buffer_bytes r ++ chunk) in *.
  pose proof (after_last_terminator_length b) as Hlen.
  pose proof (after_last_terminator_drop b) as Hdrop.
  rewrite <- Racc in Hlen, Hdrop.
  assert (Hbuf :
    (if Z.of_nat (length b) - Z.of_nat (length acc) =? Z.of_nat (length b)
     then set_buffer None r'
     else if 0 <? Z.of_nat (length b) - Z.of_nat (length acc)
          then set_buffer (Some (slice_from b (Z.of_nat (length b) - Z.of_nat (length acc)))) r'
          else set_buffer (Some b) r') = set_buffer (retained acc) r').
  { destruct (Z.eqb_spec (Z.of_nat (length b) - Z.of_nat (length acc)) (Z.of_nat (length b))) as [E | E].
    - destruct acc; [reflexivity | simpl in E; lia].
    - assert (acc <> []) by (intros ->; simpl in E; lia).
      replace (retained acc) with (Some acc) by (destruct acc; [congruence | reflexivity]).
      destruct (Z.ltb_spec 0 (Z.of_nat (length b) - Z.of_nat (length acc))) as [P | P].
      + unfold slice_from.
        replace (Z.to_nat (Z.of_nat (length b) - Z.of_nat (length acc)))
          with (length b - length acc)%nat by lia.
        rewrite Hdrop. reflexivity.
      + replace (length b - length acc)%nat with 0%nat in Hdrop by lia.
        rewrite drop_0 in Hdrop. rewrite Hdrop. reflexivity. }
  rewrite Hbuf. cbn [heartbeat set_buffer]. rewrite Hhb. reflexivity.
Qed.

Lemma write_inv this r (chunk : Buffer) now :
  parser_inv r -> parser_inv (snd (write this r chunk now)).
Proof.
  intros Hinv. rewrite write_feed by assumption.
  destruct (parser_inv_acc r Hinv) as [Hfree Hd].
  pose proof (feed_retains chunk (buffer_bytes r) this r Hfree Hd) as R.
  destruct (feed (buffer_bytes r) this r chunk) as [[this' r'] acc].
  destruct R as [Racc Rd]. cbn [snd]. unfold parser_inv. cbn [buffer set_buffer].
  destruct acc as [| c acc]; [exact I |]. cbn [retained discardTrailingNewline].
  split; [discriminate |]. split.
  - rewrite Racc. apply after_last_terminator_is_free.
  - change (discardTrailingNewline r' = false).
    destruct (discardTrailingNewline r'); [specialize (Rd eq_refl); discriminate | reflexivity].
Qed.

(** ** Chunked delivery *)

Lemma set_lastHeartbeat_same this : set_lastHeartbeat (lastHeartbeat this) this = this.
Proof. destruct this; reflexivity. Qed.

Lemma set_buffer_same r : set_buffer (buffer r) r = r.
Proof. destruct r; reflexivity. Qed.

Lemma retained_buffer_bytes r : parser_inv r -> retained (buffer_bytes r) = buffer r.
Proof.
  unfold parser_inv, buffer_bytes. destruct (buffer r) as [[| c t] |]; try reflexivity.
  intros (H & _). congruence.
Qed.

Lemma buffer_bytes_retained acc r : buffer_bytes (set_buffer (retained acc) r) = acc.
Proof. destruct acc; reflexivity. Qed.

Lemma write_all_feed (chunks : list (Buffer * Z)) : forall this r,
  parser_inv r ->
  exists hb,
    write_all this r chunks =
      let '(this', r', acc) := feed (buffer_bytes r) this r (concat (map fst chunks)) in
      (set_lastHeartbeat hb this', set_buffer (retained acc) r').
Proof.
  induction chunks as [| [chunk now] chunks IH]; intros this r Hinv.
  - exists (lastHeartbeat this). simpl.
    rewrite set_lastHeartbeat_same, retained_buffer_bytes, set_buffer_same by assumption.
    reflexivity.
  - cbn [write_all map fst concat].
    pose proof (write_inv this r chunk now Hinv) as Hinv'.
    rewrite write_feed in * by assumption.
    rewrite feed_app.
    destruct (feed (buffer_bytes r) this r chunk) as [[this1 r1] acc1].
    cbn [snd] in Hinv'.
    assert (Hv : exists v, (if heartbeat r then set_lastHeartbeat (Some now) this1 else this1)
                           = set_lastHeartbeat v this1).
    { destruct (heartbeat r); [eauto |].
      exists (lastHeartbeat this1). symmetry. apply set_lastHeartbeat_same. }
    destruct Hv as [v ->].
    destruct (IH (set_lastHeartbeat v this1) (set_buffer (retained acc1) r1) Hinv') as [hb ->].
    exists hb. rewrite buffer_bytes_retained.
    rewrite feed_set_lastHeartbeat, feed_set_buffer.
    destruct (feed acc1 this1 r1 (concat (map fst chunks))) as [[this2 r2] acc2].
    reflexivity.
Qed.

(** C1.  Whatever the chunk boundaries, the parser and the assembler emit
    the same events, keep the same last event id and end in the same
    state as on the whole stream delivered at once; and the buffer they
    retain is the stream after its last line terminator, so no
    unconsumed byte is lost. *)
Theorem chunking_preserves_events this r (chunks : list (Buffer * Z)) now :
  parser_inv r ->
  let stream := concat (map fst chunks) in
  emitted (fst (write_all this r chunks)) = emitted (fst (write this r stream now)) /\
  lastEventId (fst (write_all this r chunks)) = lastEventId (fst (write this r stream now)) /\
  snd (write_all this r chunks) = snd (write this r stream now) /\
  buffer_bytes (snd (write_all this r chunks)) =
    after_last_terminator (buffer_bytes r ++ stream).
Proof.
  intros Hinv stream. subst stream.
  destruct (write_all_feed chunks this r Hinv) as [hb ->].
  rewrite write_feed by assumption.
  destruct (parser_inv_acc r Hinv) as [Hfree Hd].
  pose proof (feed_retains (concat (map fst chunks)) (buffer_bytes r) this r Hfree Hd) as R.
  destruct (feed (buffer_bytes r) this r (concat (map fst chunks))) as [[this' r'] acc].
  destruct R as [Racc _]. cbn [fst snd].
  repeat split.
  - destruct (heartbeat r); reflexivity.
  - destruct (heartbeat r); reflexivity.
  - rewrite buffer_bytes_retained. exact Racc.
Qed.

Lemma chunking_preserves_events_witness :
  parser_inv (new_response true) /\
  emitted (fst (write_all (new_EventSource DefaultOptions) (new_response true)
                  [(bytes "data:a", 1); ([CARRIAGE_RETURN_CHARACTER], 2);
                   (LINE_FEED_CHARACTER :: bytes "da", 3);
                   (bytes "ta: b" ++ [LINE_FEED_CHARACTER; LINE_FEED_CHARACTER] ++ bytes "id", 4)]))
  = [Event "message" None (Some EmptyString)
       (String "a" (String LINE_FEED_CHARACTER (String "b" EmptyString)))].
Proof.
  split; [exact I |].
  etransitivity.
  - apply (chunking_preserves_events (new_EventSource DefaultOptions) (new_response true)
             [(bytes "data:a", 1); ([CARRIAGE_RETURN_CHARACTER], 2);
              (LINE_FEED_CHARACTER :: bytes "da", 3);
              (bytes "ta: b" ++ [LINE_FEED_CHARACTER; LINE_FEED_CHARACTER] ++ bytes "id", 4)]
             0 I).
  - vm_compute. reflexivity.
Defined.

(** ** Line terminators *)

Lemma process_line_set_discardTrailingNewline this r d (line : Buffer) t :
  process_line this (set_discardTrailingNewline d r) line t =
    let '(this', r') := process_line this r line t in
    (this', set_discardTrailingNewline d r').
Proof. unfold process_line. parse_cases r; reflexivity. Qed.

Lemma process_line_discard this r (line : Buffer) t :
  discardTrailingNewline (snd (process_line this r line t)) = discardTrailingNewline r.
Proof.
  unfold process_line.
  pose proof (parseEventStreamLine_keeps this r (line ++ [t]) 0 (colon_index line 0)
                (Z.of_nat (length line))) as K.
  destruct (parseEventStreamLine _ _ _ _ _ _) as [this' r']. apply K.
Qed.

Lemma byte_at_terminator (line : Buffer) t j :
  is_terminator t = true -> 0 <= j <= Z.of_nat (length line) ->
  bool_decide (byte_at (line ++ [t]) j = Some SPACE_CHARACTER) =
  bool_decide (byte_at line j = Some SPACE_CHARACTER).
Proof.
  intros Ht Hj.
  destruct (Z.eq_dec j (Z.of_nat (length line))) as [-> | Hne].
  - pose proof (byte_at_shift line [t] 0 ltac:(lia)) as E.
    rewrite Z.add_0_r in E. rewrite E. clear E.
    assert (E : byte_at line (Z.of_nat (length line)) = None).
    { unfold byte_at. destruct (Z.ltb_spec (Z.of_nat (length line)) 0); [lia |].
      apply lookup_ge_None_2. lia. }
    rewrite E.
    rewrite !bool_decide_false; [reflexivity | discriminate |].
    destruct (is_terminator_cases t Ht) as [-> | ->]; discriminate.
  - rewrite byte_at_prefix by lia. reflexivity.
Qed.

(** The assembler does not look at which terminator ended the line. *)
Lemma process_line_terminator this r (line : Buffer) t t' :
  is_terminator t = true -> is_terminator t' = true ->
  process_line this r line t = process_line this r line t'.
Proof.
  intros Ht Ht'. unfold process_line, parseEventStreamLine.
  destruct (Z.of_nat (length line) =? 0); [reflexivity |].
  destruct (Z.ltb_spec 0 (colon_index line 0)) as [Hfl | Hfl]; [| reflexivity].
  destruct (colon_index_range line 0 ltac:(lia)) as [E | E]; [lia |].
  destruct (Z.ltb_spec (colon_index line 0) 0); [lia |].
  rewrite !byte_at_terminator by (assumption || lia).
  destruct (negb (bool_decide _)); rewrite !(slice_prefix line) by lia; reflexivity.
Qed.

Lemma set_discardTrailingNewline_false r :
  discardTrailingNewline r = false -> set_discardTrailingNewline false r = r.
Proof. intros <-. apply set_discardTrailingNewline_same. Qed.

Lemma feed_discard_irrelevant acc this r d d' c (bs : Buffer) :
  c <> LINE_FEED_CHARACTER ->
  feed acc this (set_discardTrailingNewline d r) (c :: bs) =
  feed acc this (set_discardTrailingNewline d' r) (c :: bs).
Proof.
  intros Hne. apply Ascii.eqb_neq in Hne. cbn [feed]. rewrite Hne, !andb_false_r.
  rewrite !set_discardTrailingNewline_twice. reflexivity.
Qed.

Lemma feed_normalize n : forall (b acc : Buffer) this r,
  (length b <= n)%nat -> discardTrailingNewline r = false ->
  feed acc this r (normalize b) =
    let '(this', r', acc') := feed acc this r b in
    (this', set_discardTrailingNewline false r', acc').
Proof.
  induction n as [| n IH]; intros b acc this r Hn Hd.
  { destruct b; [| simpl in Hn; lia]. simpl.
    rewrite set_discardTrailingNewline_false by assumption. reflexivity. }
  destruct b as [| c b].
  { simpl. rewrite set_discardTrailingNewline_false by assumption. reflexivity. }
  cbn [normalize].
  destruct (Ascii.eqb_spec c CARRIAGE_RETURN_CHARACTER) as [-> | Hcr].
  - (* a carriage return *)
    cbn [feed]. rewrite Hd. cbn [andb Ascii.eqb]. 
    change (is_terminator CARRIAGE_RETURN_CHARACTER) with true. cbv iota.
    change (Ascii.eqb CARRIAGE_RETURN_CHARACTER CARRIAGE_RETURN_CHARACTER) with true.
    rewrite (process_line_set_discardTrailingNewline this r true).
    assert (Hlf : forall tl : Buffer,
      feed acc this r (LINE_FEED_CHARACTER :: tl) =
        let '(this', r') := process_line this r acc CARRIAGE_RETURN_CHARACTER in
        feed [] this' (set_discardTrailingNewline false r') tl).
    { intros tl. cbn [feed]. rewrite Hd. cbn [andb].
      change (is_terminator LINE_FEED_CHARACTER) with true. cbv iota.
      change (Ascii.eqb LINE_FEED_CHARACTER CARRIAGE_RETURN_CHARACTER) with false.
      rewrite (process_line_set_discardTrailingNewline this r false).
      rewrite (process_line_terminator this r acc LINE_FEED_CHARACTER
                 CARRIAGE_RETURN_CHARACTER eq_refl eq_refl).
      destruct (process_line _ _ _ _); reflexivity. }
    destruct b as [| c' b].
    + rewrite Hlf. destruct (process_line _ _ _ _) as [this' r']. reflexivity.
    + destruct (Ascii.eqb_spec c' LINE_FEED_CHARACTER) as [-> | Hne].
      * rewrite Hlf. destruct (process_line _ _ _ _) as [this' r'].
        cbn [feed discardTrailingNewline set_discardTrailingNewline andb].
        change (Ascii.eqb LINE_FEED_CHARACTER LINE_FEED_CHARACTER) with true. cbv iota.
        apply IH; [simpl in Hn; lia | reflexivity].
      * rewrite Hlf. destruct (process_line _ _ _ _) as [this' r'].
        rewrite (feed_discard_irrelevant [] this' r' true false c' b Hne).
        apply IH; [simpl in *; lia | reflexivity].
  - (* any other byte is read alike on both sides *)
    apply Ascii.eqb_neq in Hcr. cbn [feed]. rewrite Hd. cbn [andb].
    destruct (is_terminator c) eqn:Ec.
    + rewrite Hcr.
      pose proof (process_line_discard this (set_discardTrailingNewline false r) acc c) as K.
      destruct (process_line _ _ _ _) as [this' r'].
      apply IH; [simpl in Hn; lia | exact K].
    + apply IH; [simpl in Hn; lia | reflexivity].
Qed.

Lemma normalize_free (line rest : Buffer) :
  terminator_free line = true -> normalize (line ++ rest) = line ++ normalize rest.
Proof.
  induction line as [| c line IH]; intros Hfree; [reflexivity |].
  rewrite terminator_free_cons in Hfree. apply andb_true_iff in Hfree.
  destruct Hfree as [Hc Hfree]. apply negb_true_iff in Hc.
  destruct (not_terminator_neq c Hc) as [Hcr _].
  cbn [app normalize]. rewrite Hcr, IH by assumption. reflexivity.
Qed.

Lemma feed_line_feed_last acc this r (b : Buffer) :
  discardTrailingNewline (snd (fst (feed acc this r (b ++ [LINE_FEED_CHARACTER])))) = false.
Proof.
  rewrite feed_app. destruct (feed acc this r b) as [[this1 r1] acc1].
  cbn [feed]. change (Ascii.eqb LINE_FEED_CHARACTER LINE_FEED_CHARACTER) with true.
  rewrite andb_true_r. destruct (discardTrailingNewline r1); [reflexivity |].
  change (is_terminator LINE_FEED_CHARACTER) with true. cbv iota.
  pose proof (process_line_discard this1
    (set_discardTrailingNewline
       (Ascii.eqb LINE_FEED_CHARACTER CARRIAGE_RETURN_CHARACTER) r1)
    acc1 LINE_FEED_CHARACTER) as K.
  destruct (process_line _ _ _ _) as [this2 r2]. exact K.
Qed.

(** The parser reads a stream as it reads the same stream with every
    CRLF pair and every CR rewritten as one LF; only the carried discard
    flag can differ, after a final CR. *)
Lemma write_normalize this r (b : Buffer) now :
  parser_inv r -> discardTrailingNewline r = false ->
  write this r (normalize b) now =
    (fst (write this r b now),
     set_discardTrailingNewline false (snd (write this r b now))).
Proof.
  intros Hinv Hd. rewrite !write_feed by assumption.
  rewrite (feed_normalize (length b)) by (reflexivity || assumption).
  destruct (feed (buffer_bytes r) this r b) as [[this' r'] acc]. reflexivity.
Qed.

Lemma write_split_pair this r (x y : Buffer) earlier now :
  parser_inv r ->
  write_all this r [(x ++ [CARRIAGE_RETURN_CHARACTER], earlier);
                    (LINE_FEED_CHARACTER :: y, now)] =
  write this r (x ++ CARRIAGE_RETURN_CHARACTER :: LINE_FEED_CHARACTER :: y) now.
Proof.
  intros Hinv. cbn [write_all].
  pose proof (write_inv this r (x ++ [CARRIAGE_RETURN_CHARACTER]) earlier Hinv) as Hinv'.
  rewrite (write_feed this r (x ++ CARRIAGE_RETURN_CHARACTER :: LINE_FEED_CHARACTER :: y))
    by assumption.
  replace (x ++ CARRIAGE_RETURN_CHARACTER :: LINE_FEED_CHARACTER :: y)
    with ((x ++ [CARRIAGE_RETURN_CHARACTER]) ++ LINE_FEED_CHARACTER :: y)
    by (rewrite <- app_assoc; reflexivity).
  rewrite feed_app.
  rewrite (write_feed this r (x ++ [CARRIAGE_RETURN_CHARACTER])) in * by assumption.
  pose proof (feed_heartbeat (x ++ [CARRIAGE_RETURN_CHARACTER]) (buffer_bytes r) this r) as Hhb.
  destruct (feed (buffer_bytes r) this r (x ++ [CARRIAGE_RETURN_CHARACTER]))
    as [[this1 r1] acc1].
  cbn [snd] in Hinv'. rewrite write_feed by assumption.
  rewrite buffer_bytes_retained. cbn [heartbeat set_buffer]. rewrite Hhb.
  destruct (heartbeat r).
  + rewrite feed_set_lastHeartbeat, feed_set_buffer.
    destruct (feed acc1 this1 r1 (LINE_FEED_CHARACTER :: y)) as [[this2 r2] acc2].
    reflexivity.
  + rewrite feed_set_buffer.
    destruct (feed acc1 this1 r1 (LINE_FEED_CHARACTER :: y)) as [[this2 r2] acc2].
    reflexivity.
Qed.

Lemma normalize_terminator t (tail : Buffer) :
  (t = Term_CR -> head tail <> Some LINE_FEED_CHARACTER) ->
  normalize (terminator_bytes t ++ tail) = LINE_FEED_CHARACTER :: normalize tail.
Proof.
  intros H. destruct t; cbn [terminator_bytes app normalize].
  - reflexivity.
  - change (Ascii.eqb CARRIAGE_RETURN_CHARACTER CARRIAGE_RETURN_CHARACTER) with true.
    cbv iota. destruct tail as [| c tail]; [reflexivity |].
    destruct (Ascii.eqb_spec c LINE_FEED_CHARACTER) as [-> | _]; [| reflexivity].
    exfalso. apply H; reflexivity.
  - reflexivity.
Qed.

Lemma record_line_inv_head (line rest : Buffer) :
  record_line line = true ->
  terminator_free line = true /\ head (line ++ rest) <> Some LINE_FEED_CHARACTER.
Proof.
  unfold record_line. intros H. apply andb_true_iff in H. destruct H as [Hlen Hfree].
  split; [exact Hfree |].
  destruct line as [| c line]; [discriminate |].
  rewrite terminator_free_cons in Hfree. apply andb_true_iff in Hfree.
  destruct Hfree as [Hc _]. apply negb_true_iff in Hc.
  destruct (not_terminator_neq c Hc) as [_ Hlf]. apply Ascii.eqb_neq in Hlf.
  cbn. congruence.
Qed.

(** Rewriting the terminators of record lines leaves the lines, each
    ended by LF. *)
Lemma normalize_ended_lines (lines : list (Buffer * Terminator)) : forall rest : Buffer,
  Forall (fun l => record_line (fst l) = true) lines ->
  (ends_in_CR lines = true -> head rest <> Some LINE_FEED_CHARACTER) ->
  normalize (ended_lines lines ++ rest) = lines_stream (map fst lines) ++ normalize rest.
Proof.
  induction lines as [| [l t] lines IH]; intros rest Hl Hr; [reflexivity |].
  inversion Hl as [| ? ? Hline Hrest]; subst. cbn [fst] in Hline.
  destruct (record_line_inv_head l [] Hline) as [Hfree _].
  change (ended_lines ((l, t) :: lines)) with ((l ++ terminator_bytes t) ++ ended_lines lines).
  change (lines_stream (map fst ((l, t) :: lines)))
    with ((l ++ [LINE_FEED_CHARACTER]) ++ lines_stream (map fst lines)).
  rewrite <- !app_assoc. rewrite normalize_free by exact Hfree.
  rewrite normalize_terminator.
  - cbn [app]. rewrite IH; [reflexivity | exact Hrest |].
    intros H. apply Hr. destruct lines as [| l2 lines]; [discriminate | exact H].
  - intros ->. destruct lines as [| [l2 t2] lines].
    + apply Hr. reflexivity.
    + inversion Hrest as [| ? ? Hline2 _]; subst. cbn [fst] in Hline2.
      change (ended_lines ((l2, t2) :: lines))
        with ((l2 ++ terminator_bytes t2) ++ ended_lines lines).
      rewrite <- !app_assoc.
      apply (record_line_inv_head l2 _ Hline2).
Qed.

(** ** Fields and values *)

Lemma append_cons x (a b : string) : String x a +:+ b = String x (a +:+ b).
Proof. reflexivity. Qed.

Lemma append_nil_l (b : string) : EmptyString +:+ b = b.
Proof. reflexivity. Qed.

Lemma append_assoc (a b c : string) : (a +:+ b) +:+ c = a +:+ b +:+ c.
Proof.
  induction a as [| x a IH]; [reflexivity |].
  rewrite !append_cons, IH. reflexivity.
Qed.

Lemma append_nil_r (a : string) : a +:+ EmptyString = a.
Proof.
  induction a as [| x a IH]; [reflexivity |]. rewrite append_cons, IH. reflexivity.
Qed.

Lemma append_empty (a b : string) : a +:+ b = EmptyString -> a = EmptyString.
Proof. destruct a; [reflexivity |]. rewrite append_cons. discriminate. Qed.

Lemma slice_0_m1_append (a s : string) :
  s <> EmptyString -> slice_0_m1 (a +:+ s) = a +:+ slice_0_m1 s.
Proof.
  intros Hs. induction a as [| x a IH]; [reflexivity |].
  rewrite !append_cons. cbn [slice_0_m1]. rewrite IH.
  destruct (a +:+ s) eqn:E; [| reflexivity].
  destruct a; [rewrite append_nil_l in E; congruence | rewrite append_cons in E; discriminate].
Qed.

Lemma slice_0_m1_LF (a : string) : slice_0_m1 (a +:+ LF) = a.
Proof.
  rewrite slice_0_m1_append by discriminate. apply append_nil_r.
Qed.

Lemma each_with_LF_joined (values : list string) :
  values <> [] -> slice_0_m1 (each_with_LF values) = joined_by_LF values.
Proof.
  induction values as [| v values IH]; [congruence |]. intros _.
  destruct values as [| v' values].
  - cbn [each_with_LF joined_by_LF]. rewrite append_nil_r. apply slice_0_m1_LF.
  - specialize (IH ltac:(discriminate)).
    change (each_with_LF (v :: v' :: values)) with (v +:+ LF +:+ each_with_LF (v' :: values)).
    change (joined_by_LF (v :: v' :: values)) with (v +:+ LF +:+ joined_by_LF (v' :: values)).
    rewrite <- IH.
    assert (Hne : each_with_LF (v' :: values) <> EmptyString).
    { cbn [each_with_LF]. intros E. pose proof (append_empty _ _ E) as E'. subst v'.
      revert E. rewrite append_nil_l. discriminate. }
    rewrite <- !append_assoc. apply slice_0_m1_append, Hne.
Qed.

(** The slices and the index test of [parseEventStreamLine] compute the
    field before the first colon and the value after it. *)
Lemma process_line_field this r (line : Buffer) t :
  line <> [] -> is_terminator t = true ->
  process_line this r line t =
    (this,
     if 0 <? colon_index line 0
     then assemble_field r (line_field line) (line_value line)
     else r).
Proof.
  intros Hne Ht. unfold process_line, parseEventStreamLine.
  destruct (Z.eqb_spec (Z.of_nat (length line)) 0) as [E | _].
  { destruct line; [congruence | simpl in E; lia]. }
  destruct (Z.ltb_spec 0 (colon_index line 0)) as [Hfl | Hfl]; [| reflexivity].
  destruct (colon_index_range line 0 ltac:(lia)) as [E | E]; [lia |].
  destruct (Z.ltb_spec (colon_index line 0) 0); [lia |].
  set (k := colon_index line 0) in *.
  rewrite byte_at_terminator by (assumption || lia).
  assert (Hfield : toString (slice (line ++ [t]) 0 (0 + k)) = line_field line).
  { rewrite slice_prefix by lia. unfold slice, line_field. fold k.
    rewrite drop_0. do 2 f_equal. lia. }
  rewrite Hfield.
  assert (Hvalue : forall step, k + 1 <= step <= Z.of_nat (length line) ->
    slice (line ++ [t]) (0 + step) (0 + step + (Z.of_nat (length line) - step)) =
    drop (Z.to_nat step) line).
  { intros step Hstep. rewrite slice_prefix by lia. unfold slice.
    rewrite take_ge; [f_equal; lia |]. rewrite length_drop. lia. }
  assert (Hval :
    toString
      (slice (line ++ [t])
         (0 + (if negb (bool_decide (byte_at line (0 + k + 1) = Some SPACE_CHARACTER))
               then k + 1 else k + 2))
         (0 + (if negb (bool_decide (byte_at line (0 + k + 1) = Some SPACE_CHARACTER))
               then k + 1 else k + 2) +
          (Z.of_nat (length line) -
           (if negb (bool_decide (byte_at line (0 + k + 1) = Some SPACE_CHARACTER))
            then k + 1 else k + 2)))) = line_value line).
  { unfold line_value. fold k. unfold byte_at.
    destruct (Z.ltb_spec (0 + k + 1) 0); [lia |].
    replace (Z.to_nat (0 + k + 1)) with (S (Z.to_nat k)) by lia.
    destruct (line !! S (Z.to_nat k)) as [c |] eqn:Hc.
    - rewrite (drop_S line c (S (Z.to_nat k)) Hc).
      pose proof (lookup_lt_Some _ _ _ Hc) as Hlt.
      destruct (Ascii.eqb_spec c SPACE_CHARACTER) as [-> | Hsp].
      + rewrite bool_decide_true by reflexivity. cbn [negb].
        rewrite Hvalue by lia. do 2 f_equal. lia.
      + rewrite bool_decide_false by congruence. cbn [negb].
        rewrite Hvalue by lia.
        replace (Z.to_nat (k + 1)) with (S (Z.to_nat k)) by lia.
        rewrite (drop_S line c (S (Z.to_nat k)) Hc). reflexivity.
    - apply lookup_ge_None in Hc.
      rewrite bool_decide_false by discriminate. cbn [negb].
      rewrite Hvalue by lia.
      replace (Z.to_nat (k + 1)) with (S (Z.to_nat k)) by lia.
      rewrite drop_ge by lia. reflexivity. }
  rewrite Hval. unfold assemble_field.
  repeat match goal with |- context [if ?c then _ else _] => destruct c end; reflexivity.
Qed.

(** ** One record *)

Lemma is_data_line_guard (line : Buffer) :
  is_data_line line = (0 <? colon_index line 0) && String.eqb (line_field line) "data".
Proof.
  unfold is_data_line.
  destruct (Z.ltb_spec 0 (colon_index line 0)) as [H | H];
    destruct (Z.leb_spec 0 (colon_index line 0)) as [H' | H']; try lia; try reflexivity.
  assert (E : colon_index line 0 = 0) by lia.
  unfold line_field. rewrite E. reflexivity.
Qed.

Lemma assemble_field_data r field value :
  eventData (assemble_field r field value) =
    if String.eqb field "data" then eventData r +:+ value +:+ LF else eventData r.
Proof.
  unfold assemble_field.
  destruct (String.eqb field "data"); [reflexivity |].
  destruct (String.eqb field "event"); [reflexivity |].
  destruct (String.eqb field "id"); reflexivity.
Qed.

Lemma is_id_line_guard (line : Buffer) :
  is_id_line line = (0 <? colon_index line 0) && String.eqb (line_field line) "id".
Proof.
  unfold is_id_line.
  destruct (Z.ltb_spec 0 (colon_index line 0)) as [H | H];
    destruct (Z.leb_spec 0 (colon_index line 0)) as [H' | H']; try lia; try reflexivity.
  assert (E : colon_index line 0 = 0) by lia.
  unfold line_field. rewrite E. reflexivity.
Qed.

Lemma assemble_field_id r field value :
  eventId (assemble_field r field value) =
    if String.eqb field "id" then Some value else eventId r.
Proof.
  unfold assemble_field.
  destruct (String.eqb_spec field "data") as [-> | _]; [reflexivity |].
  destruct (String.eqb_spec field "event") as [-> | _]; [reflexivity |].
  destruct (String.eqb field "id"); reflexivity.
Qed.

Lemma assemble_field_keeps r field value :
  discardTrailingNewline (assemble_field r field value) = discardTrailingNewline r /\
  buffer (assemble_field r field value) = buffer r /\
  heartbeat (assemble_field r field value) = heartbeat r.
Proof.
  unfold assemble_field.
  destruct (String.eqb field "data"); [auto |].
  destruct (String.eqb field "event"); [auto |].
  destruct (String.eqb field "id"); auto.
Qed.

Lemma record_line_inv (line : Buffer) :
  record_line line = true -> line <> [] /\ terminator_free line = true.
Proof.
  unfold record_line. intros H. apply andb_true_iff in H. destruct H as [H1 H2].
  split; [| assumption]. intros ->. discriminate.
Qed.

(** The lines of a record only fill the pending fields; the data
    accumulator receives each [data:] value followed by a line feed. *)
Lemma feed_lines (lines : list Buffer) : forall this r (rest : Buffer),
  discardTrailingNewline r = false ->
  Forall (fun line => record_line line = true) lines ->
  exists r',
    feed [] this r (lines_stream lines ++ rest) = feed [] this r' rest /\
    eventData r' = eventData r +:+ each_with_LF (data_values lines) /\
    discardTrailingNewline r' = false /\
    buffer r' = buffer r /\ heartbeat r' = heartbeat r /\
    eventId r' = pending_id lines (eventId r).
Proof.
  induction lines as [| line lines IH]; intros this r rest Hd Hlines.
  - exists r. cbn. rewrite append_nil_r. auto 6.
  - inversion Hlines as [| ? ? Hline Hlines']; subst.
    destruct (record_line_inv line Hline) as [Hne Hfree].
    unfold lines_stream. cbn [map concat]. fold (lines_stream lines).
    rewrite <- !app_assoc. cbn [app].
    rewrite feed_line by (assumption || reflexivity).
    change (Ascii.eqb LINE_FEED_CHARACTER CARRIAGE_RETURN_CHARACTER) with false.
    rewrite set_discardTrailingNewline_false by assumption.
    cbn [app]. rewrite process_line_field by (assumption || reflexivity).
    set (r1 := if 0 <? colon_index line 0
               then assemble_field r (line_field line) (line_value line) else r).
    assert (Hr1 : eventData r1 =
                  (if is_data_line line
                   then eventData r +:+ line_value line +:+ LF else eventData r) /\
                  discardTrailingNewline r1 = false /\
                  buffer r1 = buffer r /\ heartbeat r1 = heartbeat r /\
                  eventId r1 =
                    (if is_id_line line then Some (line_value line) else eventId r)).
    { subst r1. rewrite is_data_line_guard, is_id_line_guard.
      destruct (0 <? colon_index line 0); cbn [andb]; [| auto 6].
      rewrite assemble_field_data, assemble_field_id.
      destruct (assemble_field_keeps r (line_field line) (line_value line)) as (K1 & K2 & K3).
      rewrite K1, K2, K3. auto 6. }
    destruct Hr1 as (Hdata & Hd1 & Hb1 & Hh1 & Hid1).
    destruct (IH this r1 rest Hd1 Hlines') as (r' & Hfeed & Hdata' & Hd' & Hb' & Hh' & Hid').
    exists r'. split; [exact Hfeed |].
    split; [| split; [assumption | split; [congruence | split; [congruence |]]]];
      [| rewrite Hid', Hid1; reflexivity].
    rewrite Hdata', Hdata. unfold data_values. cbn [List.filter].
    destruct (is_data_line line); [| reflexivity].
    cbn [map each_with_LF]. rewrite !append_assoc. reflexivity.
Qed.

Lemma each_with_LF_nonempty (values : list string) :
  values <> [] -> each_with_LF values <> EmptyString.
Proof.
  destruct values as [| v values]; [congruence |]. intros _ E.
  cbn [each_with_LF] in E. pose proof (append_empty _ _ E). subst v.
  revert E. rewrite append_nil_l. discriminate.
Qed.

(** The blank line: dispatch the pending event if it has data, record the
    pending id, reset the pending fields. *)
Lemma process_line_blank this r t :
  process_line this r [] t =
    (let this1 :=
       match eventData r with
       | EmptyString => this
       | _ => emit (Event (or_message (eventName r)) (eventId r) (eventName r)
                      (slice_0_m1 (eventData r))) this
       end in
     match eventId r with
     | Some id => set_lastEventId (Some id) this1
     | None => this1
     end,
     set_eventName None (set_eventId None (set_eventData EmptyString r))).
Proof.
  destruct r as [eid en ed hb buf d]. unfold process_line, parseEventStreamLine.
  cbn [length Z.of_nat Z.eqb]. unfold_response.
  destruct ed as [| c ed].
  - cbn [String.length Z.of_nat Z.ltb Z.compare]. unfold_response.
    destruct eid; reflexivity.
  - destruct (Z.ltb_spec 0 (Z.of_nat (String.length (String c ed)))) as [_ | H];
      [| cbn [String.length] in H; lia].
    unfold_response. destruct eid; reflexivity.
Qed.

(** C2.  A record's event carries the values of its [data:] lines, each
    followed by a line feed, less the final line feed (that is, the
    values joined by line feeds); a record without [data:] lines emits
    nothing.  So [data:a\ndata:b\n\n] emits one event with data "a\nb". *)
Theorem event_data_joins_data_lines this r (lines : list Buffer) now :
  buffer r = None -> discardTrailingNewline r = false ->
  eventData r = EmptyString ->
  Forall (fun line => record_line line = true) lines ->
  match data_values lines with
  | [] => emitted (fst (write this r (record_stream lines) now)) = emitted this
  | values =>
    slice_0_m1 (each_with_LF values) = joined_by_LF values /\
    exists channel id name,
      emitted (fst (write this r (record_stream lines) now)) =
        emitted this ++ [Event channel id name (slice_0_m1 (each_with_LF values))]
  end.
Proof.
  intros Hbuf Hd Hdata Hlines.
  assert (Hinv : parser_inv r) by (unfold parser_inv; rewrite Hbuf; exact I).
  rewrite write_feed by assumption.
  unfold buffer_bytes. rewrite Hbuf. unfold record_stream.
  destruct (feed_lines lines this r [LINE_FEED_CHARACTER] Hd Hlines)
    as (r' & -> & Hdata' & Hd' & _ & _ & _).
  rewrite Hdata, append_nil_l in Hdata'.
  cbn [feed]. rewrite Hd'. cbn [andb].
  change (is_terminator LINE_FEED_CHARACTER) with true. cbv iota.
  rewrite process_line_blank. unfold_response. rewrite Hdata'.
  destruct (data_values lines) as [| v values] eqn:Ev.
  - cbn [each_with_LF fst].
    destruct (eventId r'); destruct (heartbeat r); reflexivity.
  - split; [apply each_with_LF_joined; discriminate |].
    pose proof (each_with_LF_nonempty (v :: values) ltac:(discriminate)) as Hne.
    destruct (each_with_LF (v :: values)) as [| c s] eqn:Es; [congruence |].
    exists (or_message (eventName r')), (eventId r'), (eventName r').
    cbn [fst]. destruct (eventId r'); destruct (heartbeat r); reflexivity.
Qed.

Lemma event_data_joins_data_lines_witness :
  Forall (fun line => record_line line = true) [bytes "data:a"; bytes "data:b"] /\
  exists channel id name,
    emitted (fst (write (new_EventSource DefaultOptions) (new_response true)
                    (record_stream [bytes "data:a"; bytes "data:b"]) 0)) =
    emitted (new_EventSource DefaultOptions) ++
      [Event channel id name
         (String "a" (String LINE_FEED_CHARACTER (String "b" EmptyString)))].
Proof.
  split; [repeat constructor |].
  exact (proj2 (event_data_joins_data_lines (new_EventSource DefaultOptions)
                  (new_response true) [bytes "data:a"; bytes "data:b"] 0
                  eq_refl eq_refl eq_refl ltac:(repeat constructor))).
Defined.

Example Fetch_data_keeps_last_LF :
  Fetch.data (Fetch.new_EventSourceEvent
                (String.append "data:a" (String.append LF "data:b"))) =
  String "a" (String LINE_FEED_CHARACTER (String "b" LF)).
Proof. vm_compute. reflexivity. Qed.

Example data_a_data_b :
  emitted (fst (write (new_EventSource DefaultOptions) (new_response true)
                  (bytes "data:a" ++ [LINE_FEED_CHARACTER] ++ bytes "data:b" ++
                   [LINE_FEED_CHARACTER; LINE_FEED_CHARACTER]) 0)) =
  [Event "message" None (Some EmptyString)
     (String "a" (String LINE_FEED_CHARACTER (String "b" EmptyString)))].
Proof. vm_compute. reflexivity. Qed.

(** ** Lines without a colon, and ids with NUL *)

Lemma process_line_no_colon this r (line : Buffer) t :
  line <> [] -> is_terminator t = true -> colon_index line 0 = -1 ->
  process_line this r line t = (this, r).
Proof.
  intros Hne Ht Hk. rewrite process_line_field by assumption. rewrite Hk. reflexivity.
Qed.

(** C5.  The scanning variant drops a line without a colon: after the
    bare line [data] and a blank line nothing was appended to the data
    accumulator and no event is emitted, where the claim has the line
    append one line feed (the earlier variant does, see
    [Fetch_bare_data_line]). *)
Theorem bare_field_line_dropped :
  process_line (new_EventSource DefaultOptions) (new_response true)
    (bytes "data") LINE_FEED_CHARACTER =
    (new_EventSource DefaultOptions, new_response true) /\
  emitted (fst (write (new_EventSource DefaultOptions) (new_response true)
                  (record_stream [bytes "data"]) 0)) = [] /\
  eventData (assemble_field (new_response true) "data" EmptyString) = LF.
Proof. vm_compute. repeat split. Qed.

Example Fetch_bare_data_line :
  Fetch.data (Fetch.new_EventSourceEvent "data") = LF /\
  Fetch.empty (Fetch.new_EventSourceEvent "data") = false.
Proof. vm_compute. split; reflexivity. Qed.

(** C4.  The scanning variant takes an [id] value with a NUL in it: the
    record [id:123 NUL] sets the last event id to that value, where the
    claim has the field ignored (the earlier variant ignores it, see
    [Fetch_id_with_NUL]). *)
Theorem id_with_NUL_not_ignored :
  lastEventId (fst (write (new_EventSource DefaultOptions) (new_response true)
                      (record_stream [bytes "id:123" ++ [NUL]]) 0)) =
    Some (String "1" (String "2" (String "3" (String NUL EmptyString)))) /\
  includes_NUL (String "1" (String "2" (String "3" (String NUL EmptyString)))) = true.
Proof. vm_compute. split; reflexivity. Qed.

Example Fetch_id_with_NUL :
  Fetch.id (Fetch.new_EventSourceEvent (String.append "id:123" (String NUL EmptyString)))
    = None /\
  Fetch.id (Fetch.new_EventSourceEvent "id:456") = Some "456".
Proof. vm_compute. split; reflexivity. Qed.

(** ** The request headers *)

Lemma connect_opens this :
  connecting_or_connected (readyState this) = false ->
  snd (connect this) = true /\
  requests (fst (connect this)) =
    requests this ++
      [if truthy (lastEventId this)
       then match lastEventId this with
            | Some id => <["Last-Event-ID" := id]> (∅ : gmap string string)
            | None => ∅
            end
       else ∅].
Proof.
  intros H. unfold connect. rewrite H. cbn. auto.
Qed.

Lemma request_headers_disconnected this :
  connecting_or_connected (readyState this) = false ->
  request_headers this =
    Some (if truthy (lastEventId this)
          then match lastEventId this with
               | Some id => <["Last-Event-ID" := id]> (∅ : gmap string string)
               | None => ∅
               end
          else ∅).
Proof.
  intros H. unfold request_headers.
  destruct (connect_opens this H) as [-> ->]. apply last_snoc.
Qed.

(** C10.  A request opened by [connect()] carries the [Last-Event-ID]
    header exactly when the stored last event id is a non-empty string,
    and then with that value; a record whose [id:] field has an empty
    value stores the empty string, so the next request has no such
    header. *)
Theorem last_event_id_header_only_if_nonempty this :
  connecting_or_connected (readyState this) = false ->
  (exists headers,
     request_headers this = Some headers /\
     headers !! "Last-Event-ID" =
       match lastEventId this with
       | Some EmptyString | None => None
       | Some id => Some id
       end) /\
  lastEventId (fst (write this (new_response true) (record_stream [bytes "id:"]) 0)) =
    Some EmptyString.
Proof.
  intros H. split.
  - eexists. split; [apply request_headers_disconnected, H |].
    destruct (lastEventId this) as [[| c id] |]; cbn [truthy].
    + apply lookup_empty.
    + apply lookup_insert_eq.
    + apply lookup_empty.
  - destruct this. vm_compute. reflexivity.
Qed.

Lemma last_event_id_header_only_if_nonempty_witness :
  connecting_or_connected
    (readyState (set_lastEventId (Some EmptyString) (new_EventSource DefaultOptions))) = false /\
  exists headers,
    request_headers (set_lastEventId (Some EmptyString) (new_EventSource DefaultOptions))
      = Some headers /\
    headers !! "Last-Event-ID" = None.
Proof.
  split; [reflexivity |].
  exact (proj1 (last_event_id_header_only_if_nonempty
                  (set_lastEventId (Some EmptyString) (new_EventSource DefaultOptions))
                  eq_refl)).
Defined.

(** ** The last event id *)


Lemma write_loop_keeps fuel : forall (buffer : Buffer) len this r position,
  let '(this', r', _) := write_loop fuel buffer len this r position in
  readyState this' = readyState this /\
  heartbeatInterval this' = heartbeatInterval this /\
  lastHeartbeat this' = lastHeartbeat this /\
  backoff this' = backoff this /\
  requests this' = requests this /\
  destroyed this' = destroyed this /\
  options this' = options this.
Proof.
  induction fuel as [| fuel IH]; intros buffer len this r position; [cbn; auto 8 |].
  cbn [write_loop]. destruct (position <? len); [| auto 8].
  destruct (if discardTrailingNewline r then _ else _) as [position1 r1].
  destruct (scan_line _ _ _ _ _ _) as [[lineLength fieldLength] discard].
  destruct (lineLength <? 0); [auto 8 |].
  assert (K : let '(this', _) :=
                parseEventStreamLine this (set_discardTrailingNewline discard r1)
                  buffer position1 fieldLength lineLength in
              readyState this' = readyState this /\
              heartbeatInterval this' = heartbeatInterval this /\
              lastHeartbeat this' = lastHeartbeat this /\
              backoff this' = backoff this /\
              requests this' = requests this /\
              destroyed this' = destroyed this /\
              options this' = options this).
  { generalize (set_discardTrailingNewline discard r1). intros r2.
    parse_cases r2; cbn; auto 8. }
  destruct (parseEventStreamLine _ _ _ _ _ _) as [this2 r2].
  specialize (IH buffer len this2 r2 (position1 + lineLength + 1)).
  destruct (write_loop fuel buffer len this2 r2 _) as [[this3 r3] p3].
  destruct K as (K1 & K2 & K3 & K4 & K5 & K6 & K7).
  destruct IH as (I1 & I2 & I3 & I4 & I5 & I6 & I7).
  repeat split; congruence.
Qed.

(** [write] touches only the emitter's log, the last event id and the
    heartbeat mark. *)
Lemma write_keeps this r (chunk : Buffer) now :
  readyState (fst (write this r chunk now)) = readyState this /\
  heartbeatInterval (fst (write this r chunk now)) = heartbeatInterval this /\
  backoff (fst (write this r chunk now)) = backoff this /\
  requests (fst (write this r chunk now)) = requests this /\
  destroyed (fst (write this r chunk now)) = destroyed this.
Proof.
  unfold write.
  set (b := match buffer r with Some b => b ++ chunk | None => chunk end).
  pose proof (write_loop_keeps (S (length b)) b (Z.of_nat (length b)) this r 0) as K.
  destruct (write_loop _ _ _ _ _ _) as [[this' r'] position].
  destruct K as (K1 & K2 & K3 & K4 & K5 & K6 & K7).
  cbn [fst].
  match goal with |- context [if heartbeat ?x then _ else _] => destruct (heartbeat x) end;
    cbn; auto.
Qed.

Ltac settle_cases outcome this :=
  unfold connect_settled, emit_error;
  destruct outcome;
    [destruct (Nat.eqb (errorListeners this) 0) eqn:? |]; cbn;
    try destruct (backoff_backoff _).








(** ** One request at a time *)

Lemma connect_guard this :
  connecting_or_connected (readyState this) = true -> connect this = (this, false).
Proof. intros H. unfold connect. rewrite H. reflexivity. Qed.

(** [connect()] resumes in one of two ways: it is left by the throw of
    [emit('error', err)], or it runs to its end. *)
Lemma connect_settled_cases outcome this :
  (exists err, outcome = Some err /\ errorListeners this = 0%nat /\
     connect_settled outcome this = reject err this) \/
  ((outcome = None \/ errorListeners this <> 0%nat) /\
   readyState (connect_settled outcome this) = DISCONNECTED /\
   uncaught (connect_settled outcome this) = uncaught this).
Proof.
  unfold connect_settled, emit_error. destruct outcome as [err |].
  - destruct (Nat.eqb_spec (errorListeners this) 0) as [E | E].
    + left. eauto.
    + right. cbn. destruct (backoff_backoff _); auto.
  - right. cbn. destruct (backoff_backoff _); auto.
Qed.

Lemma connect_settled_readyState outcome this :
  outcome = None \/ errorListeners this <> 0%nat ->
  readyState (connect_settled outcome this) = DISCONNECTED.
Proof.
  intros H. destruct (connect_settled_cases outcome this)
    as [(err & -> & E & _) | (_ & K & _)]; [| exact K].
  destruct H as [H | H]; [discriminate | contradiction].
Qed.

Lemma write_loop_listeners fuel : forall (buffer : Buffer) len this r position,
  let '(this', r', _) := write_loop fuel buffer len this r position in
  errorListeners this' = errorListeners this /\ uncaught this' = uncaught this.
Proof.
  induction fuel as [| fuel IH]; intros buffer len this r position; [cbn; auto |].
  cbn [write_loop]. destruct (position <? len); [| auto].
  destruct (if discardTrailingNewline r then _ else _) as [position1 r1].
  destruct (scan_line _ _ _ _ _ _) as [[lineLength fieldLength] discard].
  destruct (lineLength <? 0); [auto |].
  assert (K : let '(this', _) :=
                parseEventStreamLine this (set_discardTrailingNewline discard r1)
                  buffer position1 fieldLength lineLength in
              errorListeners this' = errorListeners this /\ uncaught this' = uncaught this).
  { generalize (set_discardTrailingNewline discard r1). intros r2.
    parse_cases r2; cbn; auto. }
  destruct (parseEventStreamLine _ _ _ _ _ _) as [this2 r2].
  specialize (IH buffer len this2 r2 (position1 + lineLength + 1)).
  destruct (write_loop fuel buffer len this2 r2 _) as [[this3 r3] p3].
  destruct K as (K1 & K2). destruct IH as (I1 & I2). split; congruence.
Qed.

(** [write] neither adds a listener nor throws. *)
Lemma write_listeners this r (chunk : Buffer) now :
  errorListeners (fst (write this r chunk now)) = errorListeners this /\
  uncaught (fst (write this r chunk now)) = uncaught this.
Proof.
  unfold write.
  set (b := match buffer r with Some b => b ++ chunk | None => chunk end).
  pose proof (write_loop_listeners (S (length b)) b (Z.of_nat (length b)) this r 0) as K.
  destruct (write_loop _ _ _ _ _ _) as [[this' r'] position].
  cbn [fst].
  match goal with |- context [if heartbeat ?x then _ else _] => destruct (heartbeat x) end;
    cbn; exact K.
Qed.

Lemma client_inv_waiting c :
  client_inv c -> inflight c <> 0%nat ->
  connecting_or_connected (readyState (this_ c)) = true /\ uncaught (this_ c) = None /\
  inflight c = 1%nat.
Proof.
  intros (Hin & _ & _) H.
  destruct (connecting_or_connected _); [| congruence].
  destruct (uncaught (this_ c)); [congruence | auto].
Qed.

Lemma client_inv_writable c :
  client_inv c -> writable c <> None ->
  readyState (this_ c) = CONNECTED /\ uncaught (this_ c) = None /\ inflight c = 1%nat.
Proof.
  intros (Hin & Hw & _) H. destruct (Hw H) as [Hs Hu].
  rewrite Hs, Hu in Hin. auto.
Qed.

Lemma client_connect_inv c : client_inv c -> client_inv (client_connect c).
Proof.
  intros (Hin & Hw & Hu). unfold client_connect, connect.
  destruct (bool_dec (connecting_or_connected (readyState (this_ c))) true) as [E | E].
  - rewrite E. split; [cbn; rewrite E; rewrite E in Hin; exact Hin |].
    split; [exact Hw | intros _; exact E].
  - apply not_true_is_false in E. rewrite E. rewrite E in Hin.
    assert (Hnone : uncaught (this_ c) = None).
    { destruct (uncaught (this_ c)) eqn:Eu; [| reflexivity].
      rewrite Hu in E by discriminate. discriminate. }
    assert (Hwn : writable c = None).
    { destruct (writable c) eqn:Ew; [| reflexivity].
      destruct Hw as [Hs _]; [discriminate |].
      rewrite Hs in E. discriminate. }
    split; [cbn; rewrite Hnone, Hin; reflexivity |]. split; cbn.
    + intros H. rewrite Hwn in H. contradiction.
    + reflexivity.
Qed.

Lemma client_settle_inv outcome c :
  client_inv c -> connecting_or_connected (readyState (this_ c)) = true ->
  uncaught (this_ c) = None ->
  client_inv (client_settle outcome c).
Proof.
  intros (Hin & Hw & Hu) E Hn. rewrite E, Hn in Hin. unfold client_settle.
  destruct (connect_settled_cases outcome (this_ c))
    as [(err & -> & _ & ->) | (_ & Hs & Hk)].
  - split; [cbn; rewrite E, Hin; reflexivity |].
    split; cbn; [congruence | intros _; exact E].
  - split; [cbn [inflight this_]; rewrite Hs, Hin; reflexivity |].
    split; cbn [writable this_]; [congruence |].
    rewrite Hk, Hn. congruence.
Qed.

Lemma client_inv_set_backoff b c :
  client_inv c ->
  client_inv (mkClient (set_backoff b (this_ c)) (inflight c) (writable c) (writables c)).
Proof. intros H. exact H. Qed.

Lemma handleResponse_readyState w statusCode contentType this this' r :
  handleResponse w statusCode contentType this = inr (this', r) ->
  readyState this' = CONNECTED.
Proof.
  unfold handleResponse. destruct (negb (statusCode =? 200)); [discriminate |].
  destruct contentType as [ct |]; [| discriminate].
  destruct (negb (header_includes _ ct)); [discriminate |].
  unfold resetHeartbeatTimeout. cbn [heartbeatInterval set_backoff].
  destruct (heartbeatInterval this); intros E; inversion E; reflexivity.
Qed.

Lemma handleResponse_listeners w statusCode contentType this this' r :
  handleResponse w statusCode contentType this = inr (this', r) ->
  errorListeners this' = errorListeners this /\ uncaught this' = uncaught this.
Proof.
  unfold handleResponse. destruct (negb (statusCode =? 200)); [discriminate |].
  destruct contentType as [ct |]; [| discriminate].
  destruct (negb (header_includes _ ct)); [discriminate |].
  unfold resetHeartbeatTimeout. cbn [heartbeatInterval set_backoff].
  destruct (heartbeatInterval this); intros E; inversion E; split; reflexivity.
Qed.

Lemma step_inv c i : client_inv c -> client_inv (step c i).
Proof.
  intros Hc. pose proof Hc as (Hin & Hw & Hu).
  destruct i as [| statusCode contentType | chunk now | | message | now | |]; cbn [step];
    try exact Hc.
  - destruct (timerPending _); [| exact Hc].
    apply client_connect_inv, client_inv_set_backoff, Hc.
  - destruct (inflight c) as [| n] eqn:En; [exact Hc |].
    destruct (writable c) eqn:Ew; [exact Hc |].
    destruct (client_inv_waiting c Hc) as (E & Hn & H1); [rewrite En; discriminate |].
    destruct (handleResponse _ _ _ _) as [err | [this' r]] eqn:Eh.
    + apply client_settle_inv; assumption.
    + pose proof (handleResponse_readyState _ _ _ _ _ _ Eh) as Hs.
      destruct (handleResponse_listeners _ _ _ _ _ _ Eh) as [_ Hk].
      split; cbn [inflight this_ writable]; [rewrite Hs, Hk, Hn; cbn; congruence |].
      split; [intros _; split; congruence | congruence].
  - destruct (writable c) as [[w r] |] eqn:Ew; [| exact Hc].
    pose proof (write_keeps (this_ c) r chunk now) as (K & _).
    destruct (write_listeners (this_ c) r chunk now) as [_ Kn].
    destruct (write (this_ c) r chunk now) as [this' r']. cbn [fst] in K, Kn.
    destruct (client_inv_writable c Hc) as (Hs & Hn & H1); [try rewrite Ew; discriminate |].
    split; cbn [inflight this_ writable]; rewrite K, Kn; [exact Hin |].
    split; [intros _; auto | exact Hu].
  - destruct (writable c) eqn:Ew; [| exact Hc].
    destruct (client_inv_writable c Hc) as (Hs & Hn & H1); [try rewrite Ew; discriminate |].
    apply client_settle_inv; [exact Hc | rewrite Hs; reflexivity | exact Hn].
  - destruct (inflight c) as [| n] eqn:En; [exact Hc |].
    destruct (client_inv_waiting c Hc) as (E & Hn & H1); [rewrite En; discriminate |].
    apply client_settle_inv; assumption.
  - unfold heartbeat_tick.
    destruct (heartbeatInterval (this_ c)) as [w |]; [| exact Hc].
    destruct (heartbeat_seen _ _); [exact Hc |]. cbn [writable].
    destruct (writable c) as [[w' r] |] eqn:Ew;
      [| split; [exact Hin | split; [intros H; contradiction | exact Hu]]].
    destruct (client_inv_writable c Hc) as (Hs & Hn & H1); [try rewrite Ew; discriminate |].
    assert (Hc' : client_inv
              (mkClient (destroy w (NoHeartbeat (heartbeatTimeout (options (this_ c))))
                           (set_heartbeatInterval None (this_ c)))
                 (inflight c) (Some (w', r)) (writables c))).
    { split; [exact Hin | split; [intros _; split; [exact Hs | exact Hn] | exact Hu]]. }
    destruct (Nat.eqb w w'); [| exact Hc'].
    apply client_settle_inv; [exact Hc' | cbn; rewrite Hs; reflexivity | exact Hn].
Qed.

Lemma run_inv inputs : forall c, client_inv c -> client_inv (run c inputs).
Proof.
  induction inputs as [| i inputs IH]; intros c Hc; [exact Hc |].
  apply IH, step_inv, Hc.
Qed.

Lemma new_client_inv options : client_inv (new_client options).
Proof.
  split; [reflexivity |].
  split; [intros H; exfalso; apply H; reflexivity | reflexivity].
Qed.

(** C7.  While the state is [CONNECTING] or [CONNECTED], [connect()]
    returns at once: the instance is unchanged (state, notifications,
    requests) and no request is opened; so from construction on, under
    any sequence of inputs, at most one request is in flight. *)
Theorem connect_while_connected_is_noop :
  (forall this,
     connecting_or_connected (readyState this) = true ->
     connect this = (this, false)) /\
  (forall c,
     connecting_or_connected (readyState (this_ c)) = true ->
     this_ (client_connect c) = this_ c /\
     inflight (client_connect c) = inflight c /\
     requests (this_ (client_connect c)) = requests (this_ c) /\
     emitted (this_ (client_connect c)) = emitted (this_ c)) /\
  (forall options inputs, (inflight (run (new_client options) inputs) <= 1)%nat).
Proof.
  split; [exact connect_guard |]. split.
  - intros c H. unfold client_connect. rewrite connect_guard by exact H. cbn. auto.
  - intros options inputs.
    destruct (run_inv inputs (new_client options) (new_client_inv options)) as [-> _].
    destruct (connecting_or_connected _); [destruct (uncaught _) |]; lia.
Qed.

Lemma connect_while_connected_is_noop_witness :
  connecting_or_connected (readyState (this_ (new_client DefaultOptions))) = true /\
  connect (this_ (new_client DefaultOptions)) = (this_ (new_client DefaultOptions), false).
Proof.
  split; [reflexivity |].
  apply (proj1 connect_while_connected_is_noop). reflexivity.
Defined.

(** ** Failures *)

Lemma connect_settled_failure err this :
  errorListeners this <> 0%nat ->
  emitted (connect_settled (Some err) this) = emitted this ++ [Error err; Disconnected] /\
  seen (connect_settled (Some err) this) = seen this ++ [readyState this; readyState this] /\
  readyState (connect_settled (Some err) this) = DISCONNECTED /\
  timerPending (backoff (connect_settled (Some err) this)) = true /\
  requests (connect_settled (Some err) this) = requests this /\
  uncaught (connect_settled (Some err) this) = uncaught this.
Proof.
  intros Hl. unfold connect_settled, emit_error, backoff_backoff.
  destruct (Nat.eqb_spec (errorListeners this) 0) as [E | _]; [contradiction |].
  cbn [backoff set_readyState emit].
  destruct (timerPending (backoff this)) eqn:E; cbn; rewrite <- ?app_assoc; auto 7.
Qed.

Lemma connect_settled_thrown err this :
  errorListeners this = 0%nat -> connect_settled (Some err) this = reject err this.
Proof.
  intros Hl. unfold connect_settled, emit_error. rewrite Hl. reflexivity.
Qed.

Lemma failure_settles c i err :
  failure c i err ->
  exists this0,
    step c i = client_settle (Some err) (mkClient this0 (inflight c) (writable c) (writables c)) /\
    emitted this0 = emitted (this_ c) /\ requests this0 = requests (this_ c) /\
    seen this0 = seen (this_ c) /\ readyState this0 = readyState (this_ c) /\
    errorListeners this0 = errorListeners (this_ c) /\
    backoff this0 = backoff (this_ c) /\ uncaught this0 = uncaught (this_ c).
Proof.
  intros F. destruct F as [c n message Hin | c n statusCode contentType Hin Hw Hs
                           | c n contentType Hin Hw Hct | c n Hin Hw
                           | c w r now Hi Hw Hseen].
  - exists (this_ c). cbn [step]. rewrite Hin. destruct c; cbn in *; subst; auto 9.
  - exists (this_ c). cbn [step]. rewrite Hin, Hw. unfold handleResponse.
    destruct (Z.eqb_spec statusCode 200); [congruence |]. cbn [negb].
    destruct c; cbn in *; subst; auto 9.
  - exists (this_ c). cbn [step]. rewrite Hin, Hw. unfold handleResponse.
    cbn [Z.eqb Pos.eqb negb]. rewrite Hct. cbn [negb].
    destruct c; cbn in *; subst; auto 9.
  - exists (this_ c). cbn [step]. rewrite Hin, Hw. unfold handleResponse.
    cbn [Z.eqb Pos.eqb negb]. destruct c; cbn in *; subst; auto 9.
  - eexists. cbn [step]. unfold heartbeat_tick. rewrite Hi, Hseen. cbn [writable].
    rewrite Hw, Nat.eqb_refl. split; [reflexivity |]. repeat split; reflexivity.
Qed.

Lemma failure_not_disconnected c i err :
  client_inv c -> failure c i err ->
  readyState (this_ c) <> DISCONNECTED /\ uncaught (this_ c) = None.
Proof.
  intros Hc F.
  assert (H : inflight c <> 0%nat \/ writable c <> None).
  { destruct F as [c n message Hin' | c n statusCode contentType Hin' _ _
                   | c n contentType Hin' _ _ | c n Hin' _
                   | c w r now _ Hw' _];
      try (left; rewrite Hin'; discriminate).
    right. rewrite Hw'. discriminate. }
  destruct H as [H | H].
  - destruct (client_inv_waiting c Hc H) as (E & Hn & _).
    split; [intros Hd; rewrite Hd in E; discriminate | exact Hn].
  - destruct (client_inv_writable c Hc H) as (E & Hn & _).
    split; [congruence | exact Hn].
Qed.

(** C8, amended.  On an instance with a listener for [error], a
    transport error, a response with a bad status code or content type,
    and a heartbeat timeout all end the attempt the same way: [error] is
    emitted with the failure, then [disconnected], both while the state
    is still that of the attempt; then the state is [DISCONNECTED], a
    backoff timer is pending and [connect()] has returned; and when the
    timer elapses [connect()] opens a new request, so the subscription
    goes on. *)
Theorem failures_handled_alike c i err :
  client_inv c -> failure c i err -> errorListeners (this_ c) <> 0%nat ->
  emitted (this_ (step c i)) = emitted (this_ c) ++ [Error err; Disconnected] /\
  seen (this_ (step c i)) = seen (this_ c) ++ [readyState (this_ c); readyState (this_ c)] /\
  readyState (this_ c) <> DISCONNECTED /\
  readyState (this_ (step c i)) = DISCONNECTED /\
  timerPending (backoff (this_ (step c i))) = true /\
  uncaught (this_ (step c i)) = None /\
  readyState (this_ (step (step c i) Ready)) = CONNECTING /\
  emitted (this_ (step (step c i) Ready)) =
    emitted (this_ c) ++ [Error err; Disconnected; Connecting] /\
  length (requests (this_ (step (step c i) Ready))) = S (length (requests (this_ c))) /\
  inflight (step (step c i) Ready) = 1%nat.
Proof.
  intros Hinv F Hl. destruct (failure_not_disconnected c i err Hinv F) as [Hnd Hn].
  pose proof (step_inv c i Hinv) as Hinv'.
  destruct (failure_settles c i err F)
    as (this0 & Estep & He & Hr & Hs & Hst & Hl0 & _ & Hu0).
  rewrite Estep in *. clear Estep.
  unfold client_settle in *. cbn [this_ inflight writable writables] in *.
  destruct (connect_settled_failure err this0) as (E1 & E0 & E2 & E3 & E4 & E5);
    [congruence |].
  rewrite He in E1. rewrite Hr in E4. rewrite Hs, Hst in E0. rewrite Hu0, Hn in E5.
  destruct Hinv' as (Hin' & _ & _). cbn [this_ inflight] in Hin'. rewrite E2 in Hin'.
  cbn in Hin'.
  split; [exact E1 |]. split; [exact E0 |]. split; [exact Hnd |].
  split; [exact E2 |]. split; [exact E3 |]. split; [exact E5 |].
  cbn [step this_]. rewrite E3. unfold client_connect. cbn [this_].
  unfold connect. cbn [readyState set_backoff]. rewrite E2. cbn [connecting_or_connected].
  cbn [fst snd this_ open_request emit set_readyState readyState emitted requests
       set_backoff lastEventId inflight].
  rewrite E1, E4, <- app_assoc, length_app, Hin'. cbn [app length].
  split; [reflexivity |]. split; [reflexivity |]. split; [lia | reflexivity].
Qed.

Lemma failures_handled_alike_witness :
  client_inv (step (new_client DefaultOptions) On_error) /\
  failure (step (new_client DefaultOptions) On_error)
    (ResponseHead 503 event_stream) (ResponseNotOK 503) /\
  errorListeners (this_ (step (new_client DefaultOptions) On_error)) <> 0%nat /\
  emitted (this_ (step (step (new_client DefaultOptions) On_error)
                    (ResponseHead 503 event_stream))) =
    emitted (this_ (step (new_client DefaultOptions) On_error)) ++
      [Error (ResponseNotOK 503); Disconnected].
Proof.
  assert (F : failure (step (new_client DefaultOptions) On_error)
                (ResponseHead 503 event_stream) (ResponseNotOK 503)).
  { apply (status_failure _ 0); [reflexivity | reflexivity | discriminate]. }
  assert (I : client_inv (step (new_client DefaultOptions) On_error))
    by (apply step_inv, new_client_inv).
  split; [exact I |]. split; [exact F |]. split; [discriminate |].
  exact (proj1 (failures_handled_alike _ _ _ I F ltac:(discriminate))).
Defined.

(** C8, as stated, fails: on a transport failure while connecting, with
    a listener for [error] in place, [disconnected] is emitted with the
    state still [CONNECTING]. *)
Lemma disconnected_emitted_after_state_set_counterexample :
  ~ disconnected_emitted_after_state_set
      (step (new_client DefaultOptions) On_error) (Failure "ECONNRESET").
Proof.
  unfold disconnected_emitted_after_state_set. intros [_ H].
  vm_compute in H. discriminate.
Qed.

(** ** The heartbeat timer *)

Lemma connect_heartbeatInterval this :
  heartbeatInterval (fst (connect this)) = heartbeatInterval this.
Proof.
  unfold connect. destruct (connecting_or_connected _); reflexivity.
Qed.

Lemma connect_settled_heartbeatInterval outcome this :
  heartbeatInterval (connect_settled outcome this) = heartbeatInterval this.
Proof. settle_cases outcome this; reflexivity. Qed.

Lemma heartbeat_armed_by_response c i w :
  heartbeatInterval (this_ c) = None ->
  heartbeatInterval (this_ (step c i)) = Some w ->
  (exists statusCode contentType, i = ResponseHead statusCode contentType) /\
  readyState (this_ (step c i)) = CONNECTED.
Proof.
  intros Hnone Hsome.
  destruct i as [| statusCode contentType | chunk now | | message | now | |];
    cbn [step] in *; try (exfalso; cbn in Hsome; congruence).
  - exfalso. destruct (timerPending _); [| congruence].
    unfold client_connect in Hsome. cbn [this_] in Hsome.
    match type of Hsome with context [connect ?t] =>
      pose proof (connect_heartbeatInterval t) as K; destruct (connect t) as [t' o] end.
    cbn [this_ fst] in *. cbn in K. congruence.
  - split; [eauto |].
    destruct (inflight c); [congruence |]. destruct (writable c); [congruence |].
    destruct (handleResponse _ _ _ _) as [err | [this' r]] eqn:E.
    + exfalso. unfold client_settle in Hsome. cbn [this_] in Hsome.
      rewrite connect_settled_heartbeatInterval in Hsome. congruence.
    + cbn [this_]. eapply handleResponse_readyState, E.
  - exfalso. destruct (writable c) as [[w' r] |]; [| congruence].
    pose proof (write_keeps (this_ c) r chunk now) as (_ & K & _).
    destruct (write (this_ c) r chunk now) as [this' r']. cbn [this_ fst] in *. congruence.
  - exfalso. destruct (writable c); [| congruence].
    unfold client_settle in Hsome. cbn [this_] in Hsome.
    rewrite connect_settled_heartbeatInterval in Hsome. congruence.
  - exfalso. destruct (inflight c); [congruence |].
    unfold client_settle in Hsome. cbn [this_] in Hsome.
    rewrite connect_settled_heartbeatInterval in Hsome. congruence.
  - exfalso. unfold heartbeat_tick in Hsome. rewrite Hnone in Hsome. congruence.
Qed.

Lemma heartbeat_expiry c now w :
  heartbeatInterval (this_ c) = Some w ->
  heartbeat_seen (this_ c) now = false ->
  destroyed (this_ (step c (Tick now))) =
    destroyed (this_ c) ++ [(w, NoHeartbeat (heartbeatTimeout (options (this_ c))))] /\
  heartbeatInterval (this_ (step c (Tick now))) = None.
Proof.
  intros Hi Hseen. cbn [step]. unfold heartbeat_tick. rewrite Hi, Hseen. cbn [writable].
  assert (K : forall this outcome,
            destroyed (connect_settled outcome this) = destroyed this).
  { intros this outcome. settle_cases outcome this; reflexivity. }
  destruct (writable c) as [[w' r] |]; [destruct (Nat.eqb w w') |];
    unfold client_settle; cbn [this_];
    rewrite ?K, ?connect_settled_heartbeatInterval; auto.
Qed.

Lemma handleResponse_arms w statusCode contentType this this' r :
  heartbeatInterval this = None ->
  handleResponse w statusCode contentType this = inr (this', r) ->
  heartbeatInterval this' = Some w /\ heartbeat r = true.
Proof.
  intros Hnone. unfold handleResponse.
  destruct (negb (statusCode =? 200)); [discriminate |].
  destruct contentType as [ct |]; [| discriminate].
  destruct (negb (header_includes _ ct)); [discriminate |].
  unfold resetHeartbeatTimeout. cbn [heartbeatInterval set_backoff]. rewrite Hnone.
  intros E. inversion E. split; reflexivity.
Qed.

(** What the timer does besides: it is armed only by a response that
    brings the connection to [CONNECTED], and such a response arms it
    when none is armed; a tick that finds a heartbeat within the timeout
    does nothing; a tick that finds none calls the callback once and
    clears the timer, after which ticks do nothing. *)
Lemma heartbeat_timer_arming_and_expiry :
  (forall c i w,
     heartbeatInterval (this_ c) = None ->
     heartbeatInterval (this_ (step c i)) = Some w ->
     (exists statusCode contentType, i = ResponseHead statusCode contentType) /\
     readyState (this_ (step c i)) = CONNECTED) /\
  (forall w statusCode contentType this this' r,
     heartbeatInterval this = None ->
     handleResponse w statusCode contentType this = inr (this', r) ->
     heartbeatInterval this' = Some w /\ heartbeat r = true) /\
  (forall c now, heartbeat_seen (this_ c) now = true -> step c (Tick now) = c) /\
  (forall c now w,
     heartbeatInterval (this_ c) = Some w ->
     heartbeat_seen (this_ c) now = false ->
     destroyed (this_ (step c (Tick now))) =
       destroyed (this_ c) ++ [(w, NoHeartbeat (heartbeatTimeout (options (this_ c))))] /\
     heartbeatInterval (this_ (step c (Tick now))) = None /\
     forall later, step (step c (Tick now)) (Tick later) = step c (Tick now)).
Proof.
  split; [exact heartbeat_armed_by_response |].
  split; [exact handleResponse_arms |]. split.
  - intros c now Hseen. cbn [step]. unfold heartbeat_tick. rewrite Hseen.
    destruct (heartbeatInterval (this_ c)); reflexivity.
  - intros c now w Hi Hseen.
    destruct (heartbeat_expiry c now w Hi Hseen) as [Hd Hn].
    split; [exact Hd |]. split; [exact Hn |].
    intros later. cbn [step] in *. unfold heartbeat_tick at 1. rewrite Hn. reflexivity.
Qed.

(** C9.  The code does not stop the heartbeat timer when a connection
    tears down: however an attempt ends, [connect()] leaves
    [heartbeatInterval] as it is.  So after an accepted response and the
    normal end of its stream the client is disconnected with the timer
    still armed; the timer's next expiry calls the callback, which
    destroys the writable of the transport that is already closed; and
    the response of the next connection, accepted while that timer is
    armed, gets no marking function, so that the deliveries of the new
    connection leave no heartbeat mark. *)
Theorem heartbeat_timer_survives_teardown :
  (forall outcome c,
     heartbeatInterval (this_ (client_settle outcome c)) = heartbeatInterval (this_ c)) /\
  ~ timer_stopped_by_teardown
      (run (new_client DefaultOptions) [ResponseHead 200 event_stream]) End /\
  (let c := run (new_client DefaultOptions) [ResponseHead 200 event_stream; End] in
   readyState (this_ c) = DISCONNECTED /\ inflight c = 0%nat /\ writable c = None /\
   heartbeatInterval (this_ c) = Some 0%nat /\
   destroyed (this_ c) = [] /\
   destroyed (this_ (step c (Tick 30000))) = [(0%nat, NoHeartbeat 30000)]) /\
  (let c := run (new_client DefaultOptions)
              [ResponseHead 200 event_stream; End; Ready;
               ResponseHead 200 event_stream; Chunk (bytes "data:x") 5000] in
   readyState (this_ c) = CONNECTED /\
   heartbeatInterval (this_ c) = Some 0%nat /\
   (exists r, writable c = Some (1%nat, r) /\ heartbeat r = false) /\
   lastHeartbeat (this_ c) = None).
Proof.
  split; [intros outcome c; apply connect_settled_heartbeatInterval |]. split.
  - unfold timer_stopped_by_teardown. intros H.
    specialize (H eq_refl). vm_compute in H. discriminate.
  - split.
    + vm_compute. repeat split.
    + split; [vm_compute; reflexivity |]. split; [vm_compute; reflexivity |].
      split; [| vm_compute; reflexivity].
      eexists. split; [vm_compute; reflexivity | reflexivity].
Qed.

(** * Further properties of the code *)

(** ** The event of a record *)

Lemma is_event_line_guard (line : Buffer) :
  is_event_line line = (0 <? colon_index line 0) && String.eqb (line_field line) "event".
Proof.
  unfold is_event_line.
  destruct (Z.ltb_spec 0 (colon_index line 0)) as [H | H];
    destruct (Z.leb_spec 0 (colon_index line 0)) as [H' | H']; try lia; try reflexivity.
  assert (E : colon_index line 0 = 0) by lia.
  unfold line_field. rewrite E. reflexivity.
Qed.

Lemma assemble_field_name r field value :
  eventName (assemble_field r field value) =
    if String.eqb field "event" then Some value else eventName r.
Proof.
  unfold assemble_field.
  destruct (String.eqb_spec field "data") as [-> | _]; [reflexivity |].
  destruct (String.eqb field "event"); [reflexivity |].
  destruct (String.eqb field "id"); reflexivity.
Qed.

(** The lines of a record, field by field. *)
Lemma feed_record_lines (lines : list Buffer) : forall this r (rest : Buffer),
  discardTrailingNewline r = false ->
  Forall (fun line => record_line line = true) lines ->
  exists r',
    feed [] this r (lines_stream lines ++ rest) = feed [] this r' rest /\
    eventData r' = eventData r +:+ each_with_LF (data_values lines) /\
    eventName r' = pending_name lines (eventName r) /\
    eventId r' = pending_id lines (eventId r) /\
    discardTrailingNewline r' = false /\
    buffer r' = buffer r /\ heartbeat r' = heartbeat r.
Proof.
  induction lines as [| line lines IH]; intros this r rest Hd Hlines.
  - exists r. cbn. rewrite append_nil_r. auto 8.
  - inversion Hlines as [| ? ? Hline Hlines']; subst.
    destruct (record_line_inv line Hline) as [Hne Hfree].
    unfold lines_stream. cbn [map concat]. fold (lines_stream lines).
    rewrite <- !app_assoc. cbn [app].
    rewrite feed_line by (assumption || reflexivity).
    change (Ascii.eqb LINE_FEED_CHARACTER CARRIAGE_RETURN_CHARACTER) with false.
    rewrite set_discardTrailingNewline_false by assumption.
    cbn [app]. rewrite process_line_field by (assumption || reflexivity).
    set (r1 := if 0 <? colon_index line 0
               then assemble_field r (line_field line) (line_value line) else r).
    assert (Hr1 : eventData r1 =
                  (if is_data_line line
                   then eventData r +:+ line_value line +:+ LF else eventData r) /\
                  eventName r1 =
                    (if is_event_line line then Some (line_value line) else eventName r) /\
                  eventId r1 =
                    (if is_id_line line then Some (line_value line) else eventId r) /\
                  discardTrailingNewline r1 = false /\
                  buffer r1 = buffer r /\ heartbeat r1 = heartbeat r).
    { subst r1. rewrite is_data_line_guard, is_id_line_guard, is_event_line_guard.
      destruct (0 <? colon_index line 0); cbn [andb]; [| auto 8].
      rewrite assemble_field_data, assemble_field_id, assemble_field_name.
      destruct (assemble_field_keeps r (line_field line) (line_value line)) as (K1 & K2 & K3).
      rewrite K1, K2, K3. auto 8. }
    destruct Hr1 as (Hdata & Hname & Hid & Hd1 & Hb1 & Hh1).
    destruct (IH this r1 rest Hd1 Hlines')
      as (r' & Hfeed & Hdata' & Hname' & Hid' & Hd' & Hb' & Hh').
    exists r'. split; [exact Hfeed |].
    split; [| split; [| split; [| split; [assumption | split; congruence]]]].
    + rewrite Hdata', Hdata. unfold data_values. cbn [List.filter].
      destruct (is_data_line line); [| reflexivity].
      cbn [map each_with_LF]. rewrite !append_assoc. reflexivity.
    + rewrite Hname', Hname. reflexivity.
    + rewrite Hid', Hid. reflexivity.
Qed.

(** One record inside a stream: its event, its id, and the reset. *)
Lemma feed_record (lines : list Buffer) this r (rest : Buffer) :
  discardTrailingNewline r = false -> eventData r = EmptyString ->
  Forall (fun line => record_line line = true) lines ->
  feed [] this r (record_stream lines ++ rest) =
    feed []
      (let this1 :=
         fold_left (fun t n => emit n t)
           (record_notification lines (eventName r) (eventId r)) this in
       match pending_id lines (eventId r) with
       | Some id => set_lastEventId (Some id) this1
       | None => this1
       end)
      (reset_response r) rest.
Proof.
  intros Hd Hdata Hlines. unfold record_stream. rewrite <- app_assoc.
  destruct (feed_record_lines lines this r ([LINE_FEED_CHARACTER] ++ rest) Hd Hlines)
    as (r' & -> & Hdata' & Hname & Hid & Hd' & Hb & Hh).
  rewrite Hdata, append_nil_l in Hdata'.
  cbn [app feed]. rewrite Hd'. cbn [andb].
  change (is_terminator LINE_FEED_CHARACTER) with true. cbv iota.
  change (Ascii.eqb LINE_FEED_CHARACTER CARRIAGE_RETURN_CHARACTER) with false.
  rewrite process_line_blank. unfold_response. rewrite Hdata', Hname, Hid.
  assert (Hreset : set_eventName None (set_eventId None (set_eventData EmptyString
                     (set_discardTrailingNewline false r'))) = reset_response r).
  { unfold reset_response. rewrite <- Hb, <- Hh, Hd. destruct r'; reflexivity. }
  rewrite Hreset. unfold record_notification.
  destruct (data_values lines) as [| v values] eqn:Ev.
  - reflexivity.
  - pose proof (each_with_LF_nonempty (v :: values) ltac:(discriminate)) as Hne.
    rewrite each_with_LF_joined by discriminate.
    destruct (each_with_LF (v :: values)) as [| c s]; [congruence |]. reflexivity.
Qed.

Lemma emitted_fold_emit (ns : list Notification) : forall this,
  emitted (fold_left (fun t n => emit n t) ns this) = emitted this ++ ns /\
  lastEventId (fold_left (fun t n => emit n t) ns this) = lastEventId this.
Proof.
  induction ns as [| n ns IH]; intros this; cbn [fold_left].
  - rewrite app_nil_r. auto.
  - destruct (IH (emit n this)) as [-> ->]. cbn [emit emitted lastEventId].
    rewrite <- app_assoc. auto.
Qed.

Lemma write_fresh_feed this r (b : Buffer) now :
  buffer r = None ->
  write this r b now =
    let '(this', r', acc) := feed [] this r b in
    ((if heartbeat r then set_lastHeartbeat (Some now) this' else this'),
     set_buffer (retained acc) r').
Proof.
  intros Hbuf.
  assert (Hinv : parser_inv r) by (unfold parser_inv; rewrite Hbuf; exact I).
  rewrite write_feed by assumption. unfold buffer_bytes. rewrite Hbuf. reflexivity.
Qed.



(** ** Line terminators, on records *)

(** C3.  LF, CR and CRLF end a line alike.  A record whose lines are
    each ended by any of the three, followed by a blank line ended by
    any of the three (a blank line ended by LF right after a line ended
    by CR would be a CRLF pair, and is left out), emits exactly the
    event of the record, and leaves the parser as a blank line does: so
    each terminator, the CRLF pair too, ends exactly one line, and no
    pair adds a blank line, which would dispatch the record early.  The
    parser reads every stream as it reads the same stream with every
    CRLF pair and every CR rewritten as one LF (only the carried discard
    flag can differ, after a final CR); a line ended by CRLF is read
    exactly as the line ended by LF; and a CR ending one chunk with the
    LF opening the next is read as the unsplit pair. *)
Theorem line_terminators_uniform this r now :
  parser_inv r -> discardTrailingNewline r = false ->
  (forall (lines : list (Buffer * Terminator)) t,
     buffer r = None -> eventData r = EmptyString ->
     Forall (fun l => record_line (fst l) = true) lines ->
     (ends_in_CR lines = true -> t <> Term_LF) ->
     emitted (fst (write this r (ended_lines lines ++ terminator_bytes t) now)) =
       emitted this ++ record_notification (map fst lines) (eventName r) (eventId r) /\
     set_discardTrailingNewline false
       (snd (write this r (ended_lines lines ++ terminator_bytes t) now)) =
       reset_response r) /\
  (forall b : Buffer,
     write this r (normalize b) now =
       (fst (write this r b now),
        set_discardTrailingNewline false (snd (write this r b now)))) /\
  (forall line : Buffer, terminator_free line = true ->
     write this r (line ++ [CARRIAGE_RETURN_CHARACTER; LINE_FEED_CHARACTER]) now =
     write this r (line ++ [LINE_FEED_CHARACTER]) now) /\
  (forall (x y : Buffer) earlier,
     write_all this r [(x ++ [CARRIAGE_RETURN_CHARACTER], earlier);
                       (LINE_FEED_CHARACTER :: y, now)] =
     write this r (x ++ CARRIAGE_RETURN_CHARACTER :: LINE_FEED_CHARACTER :: y) now).
Proof.
  intros Hinv Hd.
  split; [| split; [intros b; apply write_normalize; assumption | split]].
  - intros lines t Hbuf Hdata Hlines Ht.
    pose proof (write_normalize this r (ended_lines lines ++ terminator_bytes t) now
                  Hinv Hd) as E.
    rewrite normalize_ended_lines in E; [| exact Hlines |].
    2: { intros Hcr. destruct t; [exfalso; apply (Ht Hcr); reflexivity | |]; discriminate. }
    assert (Hn : normalize (terminator_bytes t) = [LINE_FEED_CHARACTER])
      by (destruct t; reflexivity).
    rewrite Hn in E. fold (record_stream (map fst lines)) in E.
    assert (Hrec : Forall (fun line => record_line line = true) (map fst lines)).
    { apply Forall_map. exact Hlines. }
    rewrite write_fresh_feed in E by assumption.
    rewrite <- (app_nil_r (record_stream (map fst lines))) in E.
    rewrite feed_record in E by assumption. cbn [feed fst snd retained] in E.
    destruct (emitted_fold_emit
                (record_notification (map fst lines) (eventName r) (eventId r)) this)
      as [He _].
    destruct (write this r (ended_lines lines ++ terminator_bytes t) now) as [this' r'].
    cbn [fst snd] in *.
    pose proof (f_equal fst E) as E1. pose proof (f_equal snd E) as E2.
    cbn [fst snd] in E1, E2. clear E. split.
    + rewrite <- E1.
      destruct (pending_id (map fst lines) (eventId r)); destruct (heartbeat r); exact He.
    + rewrite <- E2. unfold reset_response, set_buffer. cbn. rewrite Hbuf. reflexivity.
  - intros line Hfree.
    pose proof (write_normalize this r
                  (line ++ [CARRIAGE_RETURN_CHARACTER; LINE_FEED_CHARACTER]) now Hinv Hd) as E.
    rewrite normalize_free in E by assumption. cbn [normalize] in E.
    change (Ascii.eqb CARRIAGE_RETURN_CHARACTER CARRIAGE_RETURN_CHARACTER) with true in E.
    change (Ascii.eqb LINE_FEED_CHARACTER LINE_FEED_CHARACTER) with true in E.
    cbv iota in E. rewrite E. clear E.
    rewrite write_feed by assumption.
    pose proof (feed_line_feed_last (buffer_bytes r) this r
                  (line ++ [CARRIAGE_RETURN_CHARACTER])) as K.
    rewrite <- app_assoc in K. cbn [app] in K.
    destruct (feed (buffer_bytes r) this r _) as [[this' r'] acc].
    cbn [fst snd] in *.
    rewrite set_discardTrailingNewline_false by exact K. reflexivity.
  - intros x y earlier. apply write_split_pair, Hinv.
Qed.

Lemma line_terminators_uniform_witness :
  parser_inv (new_response true) /\
  Forall (fun l => record_line (fst l) = true)
    [(bytes "data:a", Term_CRLF); (bytes "data:b", Term_CR)] /\
  emitted (fst (write (new_EventSource DefaultOptions) (new_response true)
                  (ended_lines [(bytes "data:a", Term_CRLF); (bytes "data:b", Term_CR)] ++
                   terminator_bytes Term_CRLF) 7)) =
    [Event "message" None (Some EmptyString) ("a" +:+ LF +:+ "b")].
Proof.
  assert (H : Forall (fun l => record_line (fst l) = true)
                [(bytes "data:a", Term_CRLF); (bytes "data:b", Term_CR)])
    by (repeat constructor).
  split; [exact I |]. split; [exact H |].
  exact (proj1 (proj1 (line_terminators_uniform (new_EventSource DefaultOptions)
                         (new_response true) 7 I eq_refl)
                  [(bytes "data:a", Term_CRLF); (bytes "data:b", Term_CR)] Term_CRLF
                  eq_refl eq_refl H ltac:(discriminate))).
Defined.

(** ** Streams of records *)

Lemma reset_response_twice r : reset_response (reset_response r) = reset_response r.
Proof. reflexivity. Qed.




(** ** Lines that change nothing, and the space after the colon *)

Lemma feed_after_line_feed this r (b0 : Buffer) :
  parser_inv r ->
  let '(this1, r1, acc1) := feed (buffer_bytes r) this r (b0 ++ [LINE_FEED_CHARACTER]) in
  acc1 = [] /\ discardTrailingNewline r1 = false.
Proof.
  intros Hinv. destruct (parser_inv_acc r Hinv) as [Hfree Hd].
  pose proof (feed_retains (b0 ++ [LINE_FEED_CHARACTER]) (buffer_bytes r) this r Hfree Hd) as R.
  pose proof (feed_line_feed_last (buffer_bytes r) this r b0) as K.
  destruct (feed (buffer_bytes r) this r (b0 ++ [LINE_FEED_CHARACTER])) as [[this1 r1] acc1].
  destruct R as [Racc _]. split; [| exact K].
  rewrite Racc, app_assoc.
  rewrite (after_last_terminator_terminated (buffer_bytes r ++ b0) [] LINE_FEED_CHARACTER eq_refl).
  reflexivity.
Qed.

(** After a complete line, two continuations the reading cannot tell
    apart give the same [write]. *)
Lemma write_after_line this r (b0 s1 s2 : Buffer) now :
  parser_inv r ->
  (forall this' r', discardTrailingNewline r' = false ->
     feed [] this' r' s1 = feed [] this' r' s2) ->
  write this r (b0 ++ [LINE_FEED_CHARACTER] ++ s1) now =
  write this r (b0 ++ [LINE_FEED_CHARACTER] ++ s2) now.
Proof.
  intros Hinv Hsame. rewrite !write_feed by assumption.
  rewrite !app_assoc.
  rewrite (feed_app _ _ _ (b0 ++ [LINE_FEED_CHARACTER]) s1),
          (feed_app _ _ _ (b0 ++ [LINE_FEED_CHARACTER]) s2).
  pose proof (feed_after_line_feed this r b0 Hinv) as K.
  destruct (feed (buffer_bytes r) this r (b0 ++ [LINE_FEED_CHARACTER])) as [[this1 r1] acc1].
  destruct K as [-> Hd1]. rewrite (Hsame this1 r1 Hd1). reflexivity.
Qed.

Lemma passed_over_process this r (line : Buffer) t :
  passed_over line = true -> is_terminator t = true ->
  process_line this r line t = (this, r).
Proof.
  intros Hp Ht.
  assert (Hne : line <> []).
  { intros ->. cbn in Hp. discriminate. }
  rewrite process_line_field by assumption.
  unfold passed_over in Hp. apply orb_true_iff in Hp. destruct Hp as [Hp | Hp].
  - apply Z.eqb_eq in Hp. rewrite Hp. reflexivity.
  - apply andb_true_iff in Hp. destruct Hp as [Hp Hid].
    apply andb_true_iff in Hp. destruct Hp as [Hp Hev].
    apply andb_true_iff in Hp. destruct Hp as [Hk Hda].
    rewrite Hk. unfold assemble_field.
    apply negb_true_iff in Hda, Hev, Hid. rewrite Hda, Hev, Hid. reflexivity.
Qed.

(** X3.  A comment line (one that begins with a colon) or a line whose
    field is none of [data], [event] and [id] changes nothing: the
    stream with such a line after any complete line is read exactly as
    the stream without it. *)
Theorem passed_over_line_changes_nothing this r (b0 line b2 : Buffer) now :
  parser_inv r -> terminator_free line = true -> passed_over line = true ->
  write this r (b0 ++ [LINE_FEED_CHARACTER] ++ line ++ [LINE_FEED_CHARACTER] ++ b2) now =
  write this r (b0 ++ [LINE_FEED_CHARACTER] ++ b2) now.
Proof.
  intros Hinv Hfree Hp. apply write_after_line; [assumption |].
  intros this' r' Hd. cbn [app].
  rewrite feed_line by (assumption || reflexivity). cbn [app].
  change (Ascii.eqb LINE_FEED_CHARACTER CARRIAGE_RETURN_CHARACTER) with false.
  rewrite set_discardTrailingNewline_false by assumption.
  rewrite passed_over_process by (assumption || reflexivity). reflexivity.
Qed.

Lemma passed_over_line_changes_nothing_witness :
  parser_inv (new_response true) /\
  terminator_free (bytes ": keep-alive") = true /\
  passed_over (bytes ": keep-alive") = true /\
  write (new_EventSource DefaultOptions) (new_response true)
    (bytes "data:a" ++ [LINE_FEED_CHARACTER] ++ bytes ": keep-alive" ++
     [LINE_FEED_CHARACTER] ++ bytes "data:b") 3 =
  write (new_EventSource DefaultOptions) (new_response true)
    (bytes "data:a" ++ [LINE_FEED_CHARACTER] ++ bytes "data:b") 3.
Proof.
  split; [exact I |]. split; [reflexivity |]. split; [reflexivity |].
  apply (passed_over_line_changes_nothing (new_EventSource DefaultOptions)
           (new_response true) (bytes "data:a") (bytes ": keep-alive") (bytes "data:b") 3 I);
    reflexivity.
Defined.

Lemma colon_index_after_field (f rest : Buffer) i :
  colon_free f = true ->
  colon_index (f ++ COLON_CHARACTER :: rest) i = i + Z.of_nat (length f).
Proof.
  revert i. induction f as [| c f IH]; intros i Hf.
  - cbn [app colon_index length].
    change (Ascii.eqb COLON_CHARACTER COLON_CHARACTER) with true. cbv iota.
    change (Z.of_nat 0) with 0. lia.
  - cbn [colon_free forallb] in Hf. apply andb_true_iff in Hf. destruct Hf as [Hc Hf].
    apply negb_true_iff in Hc. cbn [app colon_index]. rewrite Hc.
    rewrite IH by exact Hf. cbn [length]. lia.
Qed.

Lemma line_field_after_field (f rest : Buffer) :
  colon_free f = true -> line_field (f ++ COLON_CHARACTER :: rest) = toString f.
Proof.
  intros Hf. unfold line_field. rewrite colon_index_after_field by assumption.
  rewrite Z.add_0_l, Nat2Z.id, take_app_length. reflexivity.
Qed.

Lemma line_value_after_field (f rest : Buffer) :
  colon_free f = true ->
  line_value (f ++ COLON_CHARACTER :: rest) =
    match rest with
    | c :: v => if Ascii.eqb c SPACE_CHARACTER then toString v else toString rest
    | [] => EmptyString
    end.
Proof.
  intros Hf. unfold line_value. rewrite colon_index_after_field by assumption.
  rewrite Z.add_0_l, Nat2Z.id.
  replace (S (length f)) with (length (f ++ [COLON_CHARACTER]))
    by (rewrite length_app; simpl; lia).
  change (f ++ COLON_CHARACTER :: rest) with (f ++ [COLON_CHARACTER] ++ rest).
  rewrite app_assoc, drop_app_length. destruct rest; reflexivity.
Qed.

(** X4.  One space after the colon is not part of the value, and only
    one: a line [field: value] is read exactly as [field:value] when the
    value does not itself begin with a space. *)
Theorem one_space_after_colon_dropped this r (b0 f v b2 : Buffer) now :
  parser_inv r ->
  colon_free f = true -> terminator_free f = true -> terminator_free v = true ->
  no_leading_space v = true ->
  write this r (b0 ++ [LINE_FEED_CHARACTER] ++
                (f ++ COLON_CHARACTER :: SPACE_CHARACTER :: v) ++
                [LINE_FEED_CHARACTER] ++ b2) now =
  write this r (b0 ++ [LINE_FEED_CHARACTER] ++
                (f ++ COLON_CHARACTER :: v) ++
                [LINE_FEED_CHARACTER] ++ b2) now.
Proof.
  intros Hinv Hcf Hff Hfv Hsp. apply write_after_line; [assumption |].
  intros this' r' Hd. cbn [app].
  assert (H1 : terminator_free (f ++ COLON_CHARACTER :: SPACE_CHARACTER :: v) = true).
  { rewrite terminator_free_app, Hff, !terminator_free_cons, Hfv. reflexivity. }
  assert (H2 : terminator_free (f ++ COLON_CHARACTER :: v) = true).
  { rewrite terminator_free_app, Hff, terminator_free_cons, Hfv. reflexivity. }
  rewrite !feed_line by (assumption || reflexivity). cbn [app].
  rewrite !process_line_field by (reflexivity || (destruct f; discriminate)).
  rewrite !colon_index_after_field, !line_field_after_field, !line_value_after_field
    by assumption.
  change (Ascii.eqb SPACE_CHARACTER SPACE_CHARACTER) with true. cbv iota.
  destruct v as [| c v]; [reflexivity |].
  cbn [no_leading_space] in Hsp. apply negb_true_iff in Hsp. rewrite Hsp. reflexivity.
Qed.

Lemma one_space_after_colon_dropped_witness :
  parser_inv (new_response true) /\
  write (new_EventSource DefaultOptions) (new_response true)
    ([] ++ [LINE_FEED_CHARACTER] ++
     (bytes "data" ++ COLON_CHARACTER :: SPACE_CHARACTER :: bytes "x y") ++
     [LINE_FEED_CHARACTER] ++ [LINE_FEED_CHARACTER]) 0 =
  write (new_EventSource DefaultOptions) (new_response true)
    ([] ++ [LINE_FEED_CHARACTER] ++
     (bytes "data" ++ COLON_CHARACTER :: bytes "x y") ++
     [LINE_FEED_CHARACTER] ++ [LINE_FEED_CHARACTER]) 0.
Proof.
  split; [exact I |].
  apply (one_space_after_colon_dropped (new_EventSource DefaultOptions)
           (new_response true) [] (bytes "data") (bytes "x y") [LINE_FEED_CHARACTER] 0 I);
    reflexivity.
Defined.

(** ** What a delivery does besides parsing *)

Lemma write_loop_heartbeat fuel : forall (buffer : Buffer) len this r position,
  heartbeat (snd (fst (write_loop fuel buffer len this r position))) = heartbeat r.
Proof.
  induction fuel as [| fuel IH]; intros buffer len this r position; [reflexivity |].
  cbn [write_loop]. destruct (position <? len); [| reflexivity].
  assert (H1 : heartbeat (snd (if discardTrailingNewline r
                 then (if bool_decide (byte_at buffer position = Some LINE_FEED_CHARACTER)
                       then position + 1 else position,
                       set_discardTrailingNewline false r)
                 else (position, r))) = heartbeat r).
  { destruct (discardTrailingNewline r); reflexivity. }
  destruct (if discardTrailingNewline r then _ else _) as [position1 r1].
  cbn [snd] in H1.
  destruct (scan_line _ _ _ _ _ _) as [[lineLength fieldLength] discard].
  destruct (lineLength <? 0); [exact H1 |].
  pose proof (parseEventStreamLine_keeps this (set_discardTrailingNewline discard r1)
                buffer position1 fieldLength lineLength) as K.
  destruct (parseEventStreamLine _ _ _ _ _ _) as [this2 r2].
  destruct K as (K & _ & _). rewrite IH, K. exact H1.
Qed.

Lemma write_lastHeartbeat this r (chunk : Buffer) now :
  lastHeartbeat (fst (write this r chunk now)) =
    (if heartbeat r then Some now else lastHeartbeat this) /\
  heartbeat (snd (write this r chunk now)) = heartbeat r /\
  options (fst (write this r chunk now)) = options this.
Proof.
  unfold write.
  set (b := match buffer r with Some b => b ++ chunk | None => chunk end).
  pose proof (write_loop_keeps (S (length b)) b (Z.of_nat (length b)) this r 0) as K.
  pose proof (write_loop_heartbeat (S (length b)) b (Z.of_nat (length b)) this r 0) as H.
  destruct (write_loop _ _ _ _ _ _) as [[this' r'] position].
  destruct K as (_ & _ & K & _ & _ & _ & Ko). cbn [fst snd] in *.
  assert (E : heartbeat (if position =? Z.of_nat (length b) then set_buffer None r'
                         else if 0 <? position
                              then set_buffer (Some (slice_from b position)) r'
                              else set_buffer (Some b) r') = heartbeat r).
  { destruct (position =? _); [exact H |]. destruct (0 <? position); exact H. }
  rewrite E. destruct (heartbeat r); cbn; auto.
Qed.



Lemma parseEventStreamLine_emits this r (b : Buffer) p fl ll :
  exists events,
    emitted (fst (parseEventStreamLine this r b p fl ll)) = emitted this ++ events /\
    seen (fst (parseEventStreamLine this r b p fl ll)) =
      seen this ++ repeat (readyState this) (length events) /\
    forallb is_Event events = true.
Proof.
  destruct r as [eid en ed hb buf d]. unfold parseEventStreamLine. unfold_response.
  destruct (ll =? 0).
  - destruct (0 <? Z.of_nat (String.length ed)).
    + eexists [_]. destruct eid; cbn; auto.
    + exists []. destruct eid; cbn; rewrite !app_nil_r; auto.
  - exists []. cbn [app length repeat forallb]. rewrite !app_nil_r.
    destruct (0 <? fl); [| auto].
    repeat match goal with |- context [if ?c then _ else _] => destruct c end; auto.
Qed.

Lemma write_loop_emits fuel : forall (buffer : Buffer) len this r position,
  exists events,
    emitted (fst (fst (write_loop fuel buffer len this r position))) =
      emitted this ++ events /\
    seen (fst (fst (write_loop fuel buffer len this r position))) =
      seen this ++ repeat (readyState this) (length events) /\
    forallb is_Event events = true.
Proof.
  induction fuel as [| fuel IH]; intros buffer len this r position.
  { exists []. cbn. rewrite !app_nil_r. auto. }
  cbn [write_loop]. destruct (position <? len);
    [| exists []; cbn; rewrite !app_nil_r; auto].
  destruct (if discardTrailingNewline r then _ else _) as [position1 r1].
  destruct (scan_line _ _ _ _ _ _) as [[lineLength fieldLength] discard].
  destruct (lineLength <? 0); [exists []; cbn; rewrite !app_nil_r; auto |].
  destruct (parseEventStreamLine_emits this (set_discardTrailingNewline discard r1)
              buffer position1 fieldLength lineLength) as (ev1 & E1 & S1 & F1).
  assert (K : readyState (fst (parseEventStreamLine this
                (set_discardTrailingNewline discard r1) buffer position1
                fieldLength lineLength)) = readyState this).
  { generalize (set_discardTrailingNewline discard r1). intros r2.
    parse_cases r2; reflexivity. }
  destruct (parseEventStreamLine _ _ _ _ _ _) as [this2 r2]. cbn [fst] in *.
  destruct (IH buffer len this2 r2 (position1 + lineLength + 1)) as (ev2 & E2 & S2 & F2).
  exists (ev1 ++ ev2). rewrite E2, S2, E1, S1, K.
  rewrite length_app, repeat_app, <- !app_assoc, forallb_app, F1, F2. auto.
Qed.

Lemma write_emits this r (chunk : Buffer) now :
  exists events,
    emitted (fst (write this r chunk now)) = emitted this ++ events /\
    seen (fst (write this r chunk now)) =
      seen this ++ repeat (readyState this) (length events) /\
    forallb is_Event events = true.
Proof.
  unfold write.
  set (b := match buffer r with Some b => b ++ chunk | None => chunk end).
  destruct (write_loop_emits (S (length b)) b (Z.of_nat (length b)) this r 0)
    as (events & E & S & F).
  destruct (write_loop _ _ _ _ _ _) as [[this' r'] position]. cbn [fst] in *.
  exists events.
  match goal with |- context [if heartbeat ?x then _ else _] => destruct (heartbeat x) end;
    cbn [fst set_lastHeartbeat emitted seen]; auto.
Qed.

(** X6.  Parsing never touches the connection: [write] leaves the
    options, the ready state, the heartbeat timer, the backoff, the
    requests opened and the writables destroyed as they were, and what
    it emits are events only. *)
Theorem write_leaves_connection_alone this r (chunk : Buffer) now :
  options (fst (write this r chunk now)) = options this /\
  readyState (fst (write this r chunk now)) = readyState this /\
  heartbeatInterval (fst (write this r chunk now)) = heartbeatInterval this /\
  backoff (fst (write this r chunk now)) = backoff this /\
  requests (fst (write this r chunk now)) = requests this /\
  destroyed (fst (write this r chunk now)) = destroyed this /\
  exists events,
    emitted (fst (write this r chunk now)) = emitted this ++ events /\
    forallb is_Event events = true.
Proof.
  destruct (write_keeps this r chunk now) as (K1 & K2 & K3 & K4 & K5).
  destruct (write_emits this r chunk now) as (events & E & _ & F).
  destruct (write_lastHeartbeat this r chunk now) as (_ & _ & Ko).
  eauto 12.
Qed.

(** ** The notifications of a client *)

Lemma count_app kind (l1 l2 : list Notification) :
  count kind (l1 ++ l2) = (count kind l1 + count kind l2)%nat.
Proof. unfold count. rewrite List.filter_app, length_app. reflexivity. Qed.

Lemma count_events kind (events : list Notification) :
  (forall n, is_Event n = true -> kind n = false) ->
  forallb is_Event events = true -> count kind events = 0%nat.
Proof.
  intros Hk. induction events as [| n events IH]; intros H; [reflexivity |].
  cbn [forallb] in H. apply andb_true_iff in H. destruct H as [Hn H].
  unfold count in *. cbn [List.filter]. rewrite (Hk n Hn). apply IH, H.
Qed.

Lemma read_during_events (events : list Notification) :
  forallb is_Event events = true ->
  Forall2 (fun n s => read_during n s = true) events
    (repeat CONNECTED (length events)).
Proof.
  induction events as [| n events IH]; intros H; [constructor |].
  cbn [forallb] in H. apply andb_true_iff in H. destruct H as [Hn H].
  cbn [length repeat]. constructor; [| apply IH, H].
  destruct n; try discriminate. reflexivity.
Qed.

Lemma client_connect_trace c :
  client_inv c -> trace_inv c -> trace_inv (client_connect c).
Proof.
  intros (Hin & Hw & Hu) (T1 & T2 & T3 & T4 & T5). unfold client_connect, connect.
  destruct (bool_dec (connecting_or_connected (readyState (this_ c))) true) as [E | E].
  - rewrite E. repeat split; assumption.
  - apply not_true_is_false in E. rewrite E.
    assert (Hnone : writable c = None).
    { destruct (writable c) eqn:Ew; [| reflexivity].
      destruct Hw as [Hs _]; [discriminate |]. rewrite Hs in E. discriminate. }
    unfold trace_inv, thrown in *.
    cbn [this_ inflight writable open_request emit set_readyState emitted requests seen
         readyState uncaught].
    rewrite !count_app, length_app. cbn. rewrite Hnone in *.
    repeat split; try lia.
    apply Forall2_app; [exact T5 | repeat constructor].
Qed.

Lemma client_settle_trace outcome c :
  client_inv c -> connecting_or_connected (readyState (this_ c)) = true ->
  uncaught (this_ c) = None ->
  trace_inv c -> trace_inv (client_settle outcome c).
Proof.
  intros (Hin & Hw & Hu) E Hn (T1 & T2 & T3 & T4 & T5). rewrite E, Hn in Hin.
  unfold client_settle, connect_settled, emit_error, trace_inv, thrown in *.
  rewrite Hn in T2, T3.
  assert (Hs : forall n, is_Error n || is_Disconnected n = true ->
                 read_during n (readyState (this_ c)) = true).
  { intros n Hk. destruct (readyState (this_ c)); try discriminate;
      destruct n; try discriminate; reflexivity. }
  assert (Hwr : (match writable c with Some _ => 1 | None => 0 end <= 1)%nat)
    by (destruct (writable c); lia).
  destruct outcome as [err |]; [destruct (Nat.eqb (errorListeners (this_ c)) 0) |];
    try destruct (backoff_backoff _);
    cbn [this_ inflight writable emit set_readyState set_backoff emitted requests seen
         readyState uncaught reject];
    rewrite ?Hn, ?count_app, <- ?app_assoc; cbn [app]; cbn;
    (repeat split; try lia;
     repeat (apply Forall2_app; [| repeat constructor; apply Hs; reflexivity]);
     assumption).
Qed.

Lemma step_trace c i : client_inv c -> trace_inv c -> trace_inv (step c i).
Proof.
  intros Hc T. pose proof Hc as (Hin & Hw & Hu). pose proof T as (T1 & T2 & T3 & T4 & T5).
  destruct i as [| statusCode contentType | chunk now | | message | now | |]; cbn [step];
    try exact T.
  - destruct (timerPending _); [| exact T].
    apply client_connect_trace; [apply client_inv_set_backoff, Hc | exact T].
  - destruct (inflight c) as [| n] eqn:En; [exact T |].
    destruct (writable c) eqn:Ew; [exact T |].
    destruct (client_inv_waiting c Hc) as (E & Hn & H1); [rewrite En; discriminate |].
    unfold handleResponse.
    destruct (negb (statusCode =? 200)); [apply client_settle_trace; assumption |].
    destruct contentType as [ct |]; [| apply client_settle_trace; assumption].
    destruct (negb (header_includes _ ct)); [apply client_settle_trace; assumption |].
    unfold resetHeartbeatTimeout, trace_inv, thrown in *.
    cbn [heartbeatInterval set_backoff].
    destruct (heartbeatInterval (this_ c));
      cbn [this_ inflight writable emit set_readyState set_backoff set_heartbeatInterval
           emitted requests seen readyState uncaught];
      rewrite !count_app; cbn;
      (repeat split; try lia;
       apply Forall2_app; [exact T5 | repeat constructor]).
  - destruct (writable c) as [[w r] |] eqn:Ew; [| exact T].
    destruct (client_inv_writable c Hc) as (Hs & Hn & H1); [try rewrite Ew; discriminate |].
    destruct (write_emits (this_ c) r chunk now) as (events & E & S & F).
    pose proof (write_keeps (this_ c) r chunk now) as (_ & _ & _ & Kr & _).
    destruct (write_listeners (this_ c) r chunk now) as [_ Kn].
    destruct (write (this_ c) r chunk now) as [this' r']. cbn [fst] in *.
    unfold trace_inv, thrown in *. cbn [this_ inflight writable].
    rewrite Kr, Kn, E, S, Hs, !count_app.
    rewrite !(count_events _ events) by (assumption || (intros [] ?; try discriminate; reflexivity)).
    rewrite !Nat.add_0_r.
    repeat split; try assumption.
    apply Forall2_app; [exact T5 | apply read_during_events, F].
  - destruct (writable c) eqn:Ew; [| exact T].
    destruct (client_inv_writable c Hc) as (Hs & Hn & H1); [try rewrite Ew; discriminate |].
    apply client_settle_trace; [exact Hc | rewrite Hs; reflexivity | exact Hn | exact T].
  - destruct (inflight c) as [| n] eqn:En; [exact T |].
    destruct (client_inv_waiting c Hc) as (E & Hn & H1); [rewrite En; discriminate |].
    apply client_settle_trace; assumption.
  - unfold heartbeat_tick.
    destruct (heartbeatInterval (this_ c)) as [w |]; [| exact T].
    destruct (heartbeat_seen _ _); [exact T |]. cbn [writable].
    destruct (writable c) as [[w' r] |] eqn:Ew;
      [| unfold trace_inv; cbn [this_ inflight writable]; cbn; repeat split; assumption].
    destruct (client_inv_writable c Hc) as (Hs & Hn & H1); [try rewrite Ew; discriminate |].
    assert (T' : trace_inv
              (mkClient (destroy w (NoHeartbeat (heartbeatTimeout (options (this_ c))))
                           (set_heartbeatInterval None (this_ c)))
                 (inflight c) (Some (w', r)) (writables c))).
    { unfold trace_inv. cbn [this_ inflight writable]. cbn. repeat split; assumption. }
    destruct (Nat.eqb w w'); [| exact T'].
    apply client_settle_trace; [| cbn; rewrite Hs; reflexivity | exact Hn | exact T'].
    split; [exact Hin | split; [intros _; split; [exact Hs | exact Hn] | exact Hu]].
Qed.

Lemma run_trace inputs : forall c, client_inv c -> trace_inv c -> trace_inv (run c inputs).
Proof.
  induction inputs as [| i inputs IH]; intros c Hc T; [exact T |].
  apply IH; [apply step_inv, Hc | apply step_trace; assumption].
Qed.

Lemma new_client_trace options : trace_inv (new_client options).
Proof.
  unfold trace_inv. cbn. repeat split; try lia. repeat constructor.
Qed.

Lemma connect_settled_listeners outcome this :
  errorListeners (connect_settled outcome this) = errorListeners this /\
  (errorListeners this <> 0%nat ->
   uncaught (connect_settled outcome this) = uncaught this).
Proof.
  unfold connect_settled, emit_error. destruct outcome as [err |];
    [destruct (Nat.eqb_spec (errorListeners this) 0) |];
    cbn; try destruct (backoff_backoff _); split; try reflexivity; intros; contradiction.
Qed.

(** While a listener for [error] is in place no input but its removal
    takes it away, and [connect()] is not left by a throw. *)
Lemma step_listeners c i :
  i <> Off_error -> errorListeners (this_ c) <> 0%nat ->
  errorListeners (this_ (step c i)) <> 0%nat /\
  uncaught (this_ (step c i)) = uncaught (this_ c).
Proof.
  intros Hi Hl.
  assert (Hsettle : forall outcome c',
            errorListeners (this_ c') = errorListeners (this_ c) ->
            uncaught (this_ c') = uncaught (this_ c) ->
            errorListeners (this_ (client_settle outcome c')) <> 0%nat /\
            uncaught (this_ (client_settle outcome c')) = uncaught (this_ c)).
  { intros outcome c' El Eu. unfold client_settle. cbn [this_].
    destruct (connect_settled_listeners outcome (this_ c')) as [K1 K2].
    rewrite K1, K2, El, Eu by congruence. auto. }
  destruct i as [| statusCode contentType | chunk now | | message | now | |]; cbn [step];
    try congruence; auto.
  - destruct (timerPending _); [| auto].
    unfold client_connect, connect. cbn [this_ readyState set_backoff].
    destruct (connecting_or_connected _); cbn; auto.
  - destruct (inflight c); [auto |]. destruct (writable c); [auto |].
    destruct (handleResponse _ _ _ _) as [err | [this' r]] eqn:E; [auto |].
    destruct (handleResponse_listeners _ _ _ _ _ _ E) as [K1 K2].
    cbn [this_]. rewrite K1, K2. auto.
  - destruct (writable c) as [[w r] |]; [| auto].
    destruct (write_listeners (this_ c) r chunk now) as [K1 K2].
    destruct (write (this_ c) r chunk now) as [this' r']. cbn [fst this_] in *.
    rewrite K1, K2. auto.
  - destruct (writable c); auto.
  - destruct (inflight c); auto.
  - unfold heartbeat_tick. destruct (heartbeatInterval (this_ c)) as [w |]; [| auto].
    destruct (heartbeat_seen _ _); [auto |]. cbn [writable].
    destruct (writable c) as [[w' r] |]; [| cbn; auto].
    destruct (Nat.eqb w w'); [| cbn; auto].
    apply Hsettle; reflexivity.
Qed.

Lemma run_listeners inputs : forall c,
  Forall (fun i => i <> Off_error) inputs -> errorListeners (this_ c) <> 0%nat ->
  uncaught (this_ (run c inputs)) = uncaught (this_ c).
Proof.
  induction inputs as [| i inputs IH]; intros c Hi Hl; [reflexivity |].
  inversion Hi as [| ? ? Hne Hrest]; subst.
  destruct (step_listeners c i Hne Hl) as [Hl' Hu'].
  cbn [run fold_left]. change (fold_left step inputs (step c i)) with (run (step c i) inputs).
  rewrite IH by assumption. exact Hu'.
Qed.

(** X7.  Whatever reaches a client after its construction: as many
    requests were opened as [connecting] notifications emitted; every
    attempt that ended gave exactly one [disconnected], but for the one,
    if any, whose [connect()] was left by the throw of
    [emit('error', err)], and the one still running gave none; there are
    never more [connected] than [connecting], nor more [error] than
    [disconnected]; and when the owner adds a listener for [error] right
    after construction and never removes one, no [connect()] is left by
    a throw, so the attempts that ended and the [disconnected]
    notifications are equal in number. *)
Theorem lifecycle_notifications_balance options inputs :
  let c := run (new_client options) inputs in
  length (requests (this_ c)) = count is_Connecting (emitted (this_ c)) /\
  count is_Connecting (emitted (this_ c)) =
    (count is_Disconnected (emitted (this_ c)) + inflight c + thrown (this_ c))%nat /\
  (count is_Connected (emitted (this_ c)) <= count is_Connecting (emitted (this_ c)))%nat /\
  (count is_Error (emitted (this_ c)) <= count is_Disconnected (emitted (this_ c)))%nat /\
  (Forall (fun i => i <> Off_error) inputs ->
   let c' := run (new_client options) (On_error :: inputs) in
   uncaught (this_ c') = None /\
   count is_Connecting (emitted (this_ c')) =
     (count is_Disconnected (emitted (this_ c')) + inflight c')%nat).
Proof.
  intros c.
  destruct (run_trace inputs (new_client options) (new_client_inv options)
              (new_client_trace options)) as (T1 & T2 & T3 & T4 & _).
  pose proof (run_inv inputs (new_client options) (new_client_inv options)) as Hc.
  fold c in T1, T2, T3, T4, Hc.
  split; [exact T1 |]. split; [exact T2 |]. split; [| split; [exact T4 |]].
  - destruct (writable c) eqn:Ew; [| unfold thrown in *; destruct (uncaught _); lia].
    destruct (client_inv_writable c Hc) as (_ & Hn & H1); [rewrite Ew; discriminate |].
    unfold thrown in *. rewrite Hn in *. lia.
  - intros Hi c'.
    assert (Hn : uncaught (this_ c') = None).
    { unfold c'. cbn [run fold_left].
      change (fold_left step inputs ?x) with (run x inputs).
      rewrite run_listeners; [reflexivity | exact Hi | discriminate]. }
    split; [exact Hn |].
    destruct (run_trace (On_error :: inputs) (new_client options) (new_client_inv options)
                (new_client_trace options)) as (_ & T2' & _).
    fold c' in T2'. unfold thrown in T2'. rewrite Hn in T2'. lia.
Qed.

Lemma lifecycle_notifications_balance_witness :
  Forall (fun i => i <> Off_error) [ResponseHead 503 event_stream] /\
  uncaught (this_ (run (new_client DefaultOptions)
                     [On_error; ResponseHead 503 event_stream])) = None.
Proof.
  assert (H : Forall (fun i => i <> Off_error) [ResponseHead 503 event_stream])
    by (repeat constructor; discriminate).
  split; [exact H |].
  exact (proj1 (proj2 (proj2 (proj2 (proj2
           (lifecycle_notifications_balance DefaultOptions
              [ResponseHead 503 event_stream])))) H)).
Defined.

(** X8.  Whatever reaches a client after its construction, a listener
    reads state CONNECTING during [connecting], CONNECTED during
    [connected] and during every event, and CONNECTING or CONNECTED,
    never DISCONNECTED, during [error] and [disconnected]. *)
Theorem notifications_read_state options inputs :
  Forall2 (fun n s => read_during n s = true)
    (emitted (this_ (run (new_client options) inputs)))
    (seen (this_ (run (new_client options) inputs))).
Proof.
  apply (run_trace inputs (new_client options) (new_client_inv options)
           (new_client_trace options)).
Qed.

(** ** The watchdog after a delivery *)



(** ** The earlier variant: [EventSourceEvent] *)

Lemma Fetch_constructor_line_field st (line : string) :
  Fetch.constructor_line st line =
    match FetchStream.field_of line with
    | None => st
    | Some (fieldName, fieldValue) =>
      let '(eventId, eventName, eventData) := st in
      if String.eqb fieldName "event" then (eventId, fieldValue, eventData)
      else if String.eqb fieldName "data"
           then (eventId, eventName, eventData +:+ fieldValue +:+ LF)
      else if String.eqb fieldName "id" then
        if negb (includes_NUL fieldValue) then (Some fieldValue, eventName, eventData)
        else st
      else st
    end.
Proof.
  destruct st as [[eventId eventName] eventData].
  unfold Fetch.constructor_line, FetchStream.field_of.
  destruct (Fetch.startsWith COLON_CHARACTER line); [reflexivity |].
  destruct (-1 <? Fetch.indexOf_colon line 0); reflexivity.
Qed.

Lemma last_snoc_filter {A} (p : A -> bool) (l : list A) x :
  last (List.filter p (l ++ [x])) = if p x then Some x else last (List.filter p l).
Proof.
  rewrite List.filter_app. cbn [List.filter]. destruct (p x).
  - apply last_snoc.
  - rewrite app_nil_r. reflexivity.
Qed.

Lemma each_with_LF_snoc (values : list string) v :
  each_with_LF (values ++ [v]) = each_with_LF values +:+ v +:+ LF.
Proof.
  induction values as [| w values IH].
  - cbn [app each_with_LF]. rewrite append_nil_l, append_nil_r. reflexivity.
  - cbn [app each_with_LF]. rewrite IH, !append_assoc. reflexivity.
Qed.

(** The three locals of the constructor, each from the fields of its
    own name. *)
Lemma Fetch_fold_fields (lines : list string) :
  fold_left Fetch.constructor_line lines (None, EmptyString, EmptyString) =
    (last (List.filter (fun v => negb (includes_NUL v))
             (FetchStream.values_of "id" (omap FetchStream.field_of lines))),
     match last (FetchStream.values_of "event" (omap FetchStream.field_of lines)) with
     | Some v => v
     | None => EmptyString
     end,
     each_with_LF (FetchStream.values_of "data" (omap FetchStream.field_of lines))).
Proof.
  induction lines as [| line lines IH] using rev_ind; [reflexivity |].
  rewrite fold_left_app, IH. cbn [fold_left].
  rewrite Fetch_constructor_line_field, omap_app. cbn [omap list_omap].
  destruct (FetchStream.field_of line) as [[f v] |]; [| rewrite !app_nil_r; reflexivity].
  unfold FetchStream.values_of. rewrite !List.filter_app, !map_app.
  cbn [List.filter fst snd].
  destruct (String.eqb_spec f "event") as [-> | Hev].
  { cbn [String.eqb Ascii.eqb Bool.eqb map]. rewrite !app_nil_r, last_snoc. reflexivity. }
  destruct (String.eqb_spec f "data") as [-> | Hda].
  { cbn [String.eqb Ascii.eqb Bool.eqb map]. rewrite !app_nil_r.
    fold (FetchStream.values_of "data" (omap FetchStream.field_of lines)).
    rewrite each_with_LF_snoc. reflexivity. }
  destruct (String.eqb_spec f "id") as [-> | Hid].
  { cbn [String.eqb Ascii.eqb Bool.eqb map]. rewrite !app_nil_r.
    rewrite last_snoc_filter. cbn [fst snd]. destruct (includes_NUL v); reflexivity. }
  cbn [map]. rewrite !app_nil_r. reflexivity.
Qed.

(** X10.  The object built from an event text takes each property from
    the fields of its own name, whatever other lines surround them:
    [data] is every [data] value followed by a line feed (the last one
    included); [name] is the value of the last [event] field, or
    "message" when there is none or it is empty; [id] is the value of
    the last [id] field that has no NUL in it. *)
Theorem Fetch_event_from_fields (text : string) :
  Fetch.data (Fetch.new_EventSourceEvent text) =
    each_with_LF (FetchStream.values_of "data" (FetchStream.fields text)) /\
  Fetch.name (Fetch.new_EventSourceEvent text) =
    or_message (last (FetchStream.values_of "event" (FetchStream.fields text))) /\
  Fetch.id (Fetch.new_EventSourceEvent text) =
    last (List.filter (fun v => negb (includes_NUL v))
            (FetchStream.values_of "id" (FetchStream.fields text))).
Proof.
  unfold Fetch.new_EventSourceEvent, FetchStream.fields.
  rewrite Fetch_fold_fields. cbn [Fetch.data Fetch.name Fetch.id].
  split; [reflexivity |]. split; [| reflexivity].
  destruct (last _) as [[| c v] |]; reflexivity.
Qed.

(** X11.  Whatever the text, the object's [id], when set, has no NUL in
    it, its [name] is never the empty string, and it counts as empty
    exactly when the text has no [data] field. *)
Theorem Fetch_event_well_formed (text : string) :
  (forall v, Fetch.id (Fetch.new_EventSourceEvent text) = Some v ->
             includes_NUL v = false) /\
  Fetch.name (Fetch.new_EventSourceEvent text) <> EmptyString /\
  (Fetch.empty (Fetch.new_EventSourceEvent text) = true <->
   FetchStream.values_of "data" (FetchStream.fields text) = []).
Proof.
  unfold Fetch.new_EventSourceEvent, FetchStream.fields, Fetch.empty.
  rewrite Fetch_fold_fields. cbn [Fetch.data Fetch.name Fetch.id].
  split; [| split].
  - intros v Hv. apply last_Some in Hv. destruct Hv as [l' Hv].
    assert (Hin : In v (List.filter (fun v => negb (includes_NUL v))
                          (FetchStream.values_of "id"
                             (omap FetchStream.field_of (Fetch.split text))))).
    { rewrite Hv. apply in_or_app. right. left. reflexivity. }
    apply List.filter_In in Hin. destruct Hin as [_ Hin].
    apply negb_true_iff in Hin. exact Hin.
  - destruct (last _) as [[| c v] |]; discriminate.
  - destruct (FetchStream.values_of "data" _) as [| v values] eqn:E.
    + cbn. split; reflexivity || auto.
    + pose proof (each_with_LF_nonempty (v :: values) ltac:(discriminate)) as Hne.
      destruct (each_with_LF (v :: values)); [congruence |].
      split; discriminate.
Qed.

Lemma Fetch_split_nonempty (s : string) : Fetch.split s <> [].
Proof.
  destruct s as [| c s]; [discriminate |]. cbn [Fetch.split].
  destruct (is_terminator c); [discriminate |].
  destruct (Fetch.split s); discriminate.
Qed.

Lemma Fetch_split_terminator (a b : string) t :
  is_terminator t = true ->
  Fetch.split (a +:+ String t b) = Fetch.split a ++ Fetch.split b.
Proof.
  intros Ht. induction a as [| c a IH].
  - rewrite append_nil_l. cbn [Fetch.split app]. rewrite Ht. reflexivity.
  - rewrite append_cons. cbn [Fetch.split]. rewrite IH.
    destruct (is_terminator c); [reflexivity |].
    pose proof (Fetch_split_nonempty a) as Hne.
    destruct (Fetch.split a) as [| line lines]; [congruence | reflexivity].
Qed.

Lemma Fetch_blank_line st : Fetch.constructor_line st EmptyString = st.
Proof. destruct st as [[i n] d]. reflexivity. Qed.

(** X12.  In an event text the three line endings are alike, and blank
    lines do nothing: the text with CR LF, or with a lone CR, between
    two parts builds the same object as the text with LF there. *)
Theorem Fetch_line_endings_alike (a b : string) :
  Fetch.new_EventSourceEvent
    (a +:+ String CARRIAGE_RETURN_CHARACTER (String LINE_FEED_CHARACTER b)) =
  Fetch.new_EventSourceEvent (a +:+ String LINE_FEED_CHARACTER b) /\
  Fetch.new_EventSourceEvent (a +:+ String CARRIAGE_RETURN_CHARACTER b) =
  Fetch.new_EventSourceEvent (a +:+ String LINE_FEED_CHARACTER b).
Proof.
  unfold Fetch.new_EventSourceEvent.
  rewrite !Fetch_split_terminator by reflexivity.
  change (Fetch.split (String LINE_FEED_CHARACTER b))
    with (Fetch.split (EmptyString +:+ String LINE_FEED_CHARACTER b)).
  rewrite Fetch_split_terminator by reflexivity.
  rewrite !fold_left_app. cbn [Fetch.split fold_left].
  rewrite Fetch_blank_line. split; reflexivity.
Qed.

(** ** The earlier variant: the [data] handler *)

Lemma split_events_no_ending (s : string) :
  FetchStream.has_event_ending s = false -> FetchStream.split_events s = [s].
Proof.
  induction s as [| c s IH]; [reflexivity |]. intros H.
  destruct s as [| c' s]; [reflexivity |].
  cbn [FetchStream.has_event_ending] in H. apply orb_false_iff in H.
  destruct H as [Hpair Hrest].
  change (FetchStream.split_events (String c (String c' s)))
    with (if is_terminator c && is_terminator c'
          then EmptyString :: FetchStream.split_events s
          else match FetchStream.split_events (String c' s) with
               | piece :: pieces => String c piece :: pieces
               | [] => [String c EmptyString]
               end).
  rewrite Hpair, (IH Hrest). reflexivity.
Qed.


(** X13.  A delivery that leaves no two terminators in a row in the
    buffer only grows the buffer and re-arms the heartbeat timer:
    nothing is emitted and the last event id stays. *)
Theorem Fetch_delivery_without_ending_is_buffered timeout h (chunk : string) now :
  FetchStream.has_event_ending (FetchStream.buffer h +:+ chunk) = false ->
  FetchStream.on_data timeout h chunk now =
    FetchStream.mkHandler (FetchStream.buffer h +:+ chunk) (FetchStream.lastEventId h)
      (FetchStream.emitted h) (Some (now + timeout)).
Proof.
  intros H. unfold FetchStream.on_data, FetchStream.resetHeartbeatTimeout.
  cbn [FetchStream.buffer FetchStream.lastEventId FetchStream.emitted
       FetchStream.heartbeatTimeout].
  rewrite (split_events_no_ending _ H). reflexivity.
Qed.

Lemma Fetch_delivery_without_ending_is_buffered_witness :
  FetchStream.has_event_ending
    (FetchStream.buffer (FetchStream.mkHandler "data:a" None [] None) +:+ "bc") = false /\
  FetchStream.on_data 30000 (FetchStream.mkHandler "data:a" None [] None) "bc" 5 =
    FetchStream.mkHandler "data:abc" None [] (Some 30005).
Proof.
  split; [reflexivity |].
  apply (Fetch_delivery_without_ending_is_buffered 30000
           (FetchStream.mkHandler "data:a" None [] None) "bc" 5).
  reflexivity.
Defined.



(** ** Before the blank line *)

(** X15.  Until the blank line arrives nothing is dispatched: after the
    lines of a record, without its blank line, no event has been
    emitted and the last event id is as before; the lines have only
    filled the pending name, id and data. *)
Theorem nothing_before_blank_line this r (lines : list Buffer) now :
  buffer r = None -> discardTrailingNewline r = false ->
  Forall (fun line => record_line line = true) lines ->
  emitted (fst (write this r (lines_stream lines) now)) = emitted this /\
  lastEventId (fst (write this r (lines_stream lines) now)) = lastEventId this /\
  eventName (snd (write this r (lines_stream lines) now)) =
    pending_name lines (eventName r) /\
  eventId (snd (write this r (lines_stream lines) now)) =
    pending_id lines (eventId r) /\
  eventData (snd (write this r (lines_stream lines) now)) =
    eventData r +:+ each_with_LF (data_values lines) /\
  buffer (snd (write this r (lines_stream lines) now)) = None.
Proof.
  intros Hbuf Hd Hlines.
  rewrite write_fresh_feed by assumption.
  rewrite <- (app_nil_r (lines_stream lines)).
  destruct (feed_record_lines lines this r [] Hd Hlines)
    as (r' & -> & Hdata & Hname & Hid & _ & _ & _).
  cbn [feed fst snd retained]. unfold_response.
  destruct (heartbeat r); cbn; auto 8.
Qed.

Lemma nothing_before_blank_line_witness :
  Forall (fun line => record_line line = true) [bytes "id:9"; bytes "data:x"] /\
  emitted (fst (write (new_EventSource DefaultOptions) (new_response true)
                  (lines_stream [bytes "id:9"; bytes "data:x"]) 0)) = [] /\
  lastEventId (fst (write (new_EventSource DefaultOptions) (new_response true)
                      (lines_stream [bytes "id:9"; bytes "data:x"]) 0)) = None.
Proof.
  split; [repeat constructor |].
  destruct (nothing_before_blank_line (new_EventSource DefaultOptions) (new_response true)
              [bytes "id:9"; bytes "data:x"] 0 eq_refl eq_refl ltac:(repeat constructor))
    as (H1 & H2 & _).
  split; [exact H1 | exact H2].
Defined.

(** ** A response accepted while a timer is armed *)

(** X16.  A response accepted while a heartbeat timer is still armed
    leaves that timer, with its old writable as target, in place and
    gets no marking function: no delivery to its writable changes the
    heartbeat mark. *)
Theorem response_with_armed_timer_is_unmarked w w0 statusCode contentType this this' r :
  heartbeatInterval this = Some w0 ->
  handleResponse w statusCode contentType this = inr (this', r) ->
  heartbeatInterval this' = Some w0 /\
  heartbeat r = false /\
  lastHeartbeat this' = lastHeartbeat this /\
  forall (chunks : list (Buffer * Z)),
    lastHeartbeat (fst (write_all this' r chunks)) = lastHeartbeat this.
Proof.
  intros Harmed. unfold handleResponse.
  destruct (negb (statusCode =? 200)); [discriminate |].
  destruct contentType as [ct |]; [| discriminate].
  destruct (negb (header_includes _ ct)); [discriminate |].
  unfold resetHeartbeatTimeout. cbn [heartbeatInterval set_backoff]. rewrite Harmed.
  intros E. inversion E. subst this' r. clear E.
  split; [exact Harmed |]. split; [reflexivity |]. split; [reflexivity |].
  intros chunks.
  set (this1 := emit Connected _).
  change (lastHeartbeat this) with (lastHeartbeat this1).
  assert (Hhb : heartbeat (new_response false) = false) by reflexivity.
  generalize dependent (new_response false). generalize this1.
  induction chunks as [| [chunk now] chunks IH]; intros t r Hhb; [reflexivity |].
  cbn [write_all].
  destruct (write_lastHeartbeat t r chunk now) as (Hmark & Hr & _).
  rewrite Hhb in Hr.
  destruct (write t r chunk now) as [t1 r1]. cbn [fst snd] in *.
  rewrite (IH t1 r1 Hr), Hmark, Hhb. reflexivity.
Qed.

Lemma response_with_armed_timer_is_unmarked_witness :
  heartbeatInterval
    (this_ (run (new_client DefaultOptions) [ResponseHead 200 event_stream; End; Ready]))
    = Some 0%nat /\
  match handleResponse 1 200 event_stream
          (this_ (run (new_client DefaultOptions)
                    [ResponseHead 200 event_stream; End; Ready])) with
  | inr (this', r) => heartbeatInterval this' = Some 0%nat /\ heartbeat r = false
  | inl _ => False
  end.
Proof.
  split; [vm_compute; reflexivity |].
  destruct (handleResponse 1 200 event_stream
              (this_ (run (new_client DefaultOptions)
                        [ResponseHead 200 event_stream; End; Ready])))
    as [err | [this' r]] eqn:E.
  - vm_compute in E. discriminate.
  - destruct (response_with_armed_timer_is_unmarked 1 0 200 event_stream
                (this_ (run (new_client DefaultOptions)
                          [ResponseHead 200 event_stream; End; Ready]))
                this' r ltac:(vm_compute; reflexivity) E) as (H1 & H2 & _).
    split; assumption.
Defined.

(** ** Which responses are accepted *)

Lemma prefix_spec (sub s : string) :
  String.prefix sub s = true <-> exists post, s = sub +:+ post.
Proof.
  revert s. induction sub as [| c sub IH]; intros s.
  - split; [intros _; exists s; reflexivity | intros _; destruct s; reflexivity].
  - destruct s as [| c' s]; cbn [String.prefix].
    + split; [discriminate | intros [post H]; rewrite append_cons in H; discriminate].
    + destruct (ascii_dec c c') as [-> | Hne].
      * rewrite IH. split; intros [post H]; exists post.
        -- rewrite append_cons, H. reflexivity.
        -- rewrite append_cons in H. congruence.
      * split; [discriminate |].
        intros [post H]. rewrite append_cons in H. congruence.
Qed.

Lemma includes_spec (sub s : string) :
  includes sub s = true <-> exists pre post, s = pre +:+ sub +:+ post.
Proof.
  induction s as [| c s IH].
  - cbn [includes]. rewrite orb_false_r, prefix_spec. split.
    + intros [post H]. exists EmptyString, post. exact H.
    + intros (pre & post & H). destruct pre as [| c pre];
        [exists post; exact H | rewrite append_cons in H; discriminate].
  - cbn [includes]. rewrite orb_true_iff, prefix_spec, IH. split.
    + intros [[post H] | (pre & post & H)].
      * exists EmptyString, post. exact H.
      * exists (String c pre), post. rewrite append_cons, H. reflexivity.
    + intros (pre & post & H). destruct pre as [| c' pre].
      * left. exists post. exact H.
      * right. exists pre, post. rewrite append_cons in H. congruence.
Qed.

Lemma header_includes_spec (sub : string) contentType :
  header_includes sub contentType = true <->
  (exists pre post, contentType = Single (pre +:+ sub +:+ post)) \/
  (exists values, contentType = Repeated values /\ In sub values).
Proof.
  destruct contentType as [value | values]; cbn [header_includes].
  - rewrite includes_spec. split.
    + intros (pre & post & ->). left. eauto.
    + intros [(pre & post & H) | (values & H & _)]; [| discriminate].
      inversion H. eauto.
  - rewrite existsb_exists. split.
    + intros (x & Hin & Hx). apply String.eqb_eq in Hx. subst x. right. eauto.
    + intros [(pre & post & H) | (vs & H & Hin)]; [discriminate |].
      inversion H. subst vs. exists sub. split; [exact Hin | apply String.eqb_refl].
Qed.

(** X17.  [handleResponse] accepts a response exactly when its status
    code is 200 and its content type is either a string with
    [text/event-stream] somewhere in it, or an array, as the transport
    gives for a repeated header, with an element equal to
    [text/event-stream]; an accepted response sets the state to
    CONNECTED before [connected] is emitted, keeps the last event id and
    starts with fresh parser locals. *)
Theorem handleResponse_accepts w statusCode contentType this :
  ((exists this' r, handleResponse w statusCode contentType this = inr (this', r)) <->
   statusCode = 200 /\
   ((exists pre post,
       contentType = Some (Single (pre +:+ "text/event-stream" +:+ post))) \/
    (exists values,
       contentType = Some (Repeated values) /\ In "text/event-stream" values))) /\
  (forall this' r,
     handleResponse w statusCode contentType this = inr (this', r) ->
     readyState this' = CONNECTED /\
     emitted this' = emitted this ++ [Connected] /\
     seen this' = seen this ++ [CONNECTED] /\
     lastEventId this' = lastEventId this /\
     requests this' = requests this /\
     r = new_response (heartbeat r)).
Proof.
  unfold handleResponse. split.
  - destruct (Z.eqb_spec statusCode 200) as [-> | Hs]; cbn [negb].
    + destruct contentType as [ct |].
      * destruct (header_includes "text/event-stream" ct) eqn:Hinc; cbn [negb].
        -- apply header_includes_spec in Hinc.
           split; [intros _; split; [reflexivity |] |].
           ++ destruct Hinc as [(pre & post & ->) | (values & -> & Hin)]; eauto.
           ++ intros _. destruct (resetHeartbeatTimeout _ _) as [t hb]. eauto.
        -- split; [intros (? & ? & H); discriminate |].
           intros (_ & H).
           assert (Hc : header_includes "text/event-stream" ct = true).
           { apply header_includes_spec.
             destruct H as [(pre & post & H) | (values & H & Hin)];
               inversion H; eauto. }
           congruence.
      * split; [intros (? & ? & H); discriminate |].
        intros (_ & [(? & ? & H) | (? & H & _)]); discriminate.
    + split; [intros (? & ? & H); discriminate | intros [H _]; congruence].
  - intros this' r.
    destruct (negb (statusCode =? 200)); [discriminate |].
    destruct contentType as [ct |]; [| discriminate].
    destruct (negb (header_includes _ ct)); [discriminate |].
    unfold resetHeartbeatTimeout. cbn [heartbeatInterval set_backoff].
    destruct (heartbeatInterval this); intros E; inversion E; cbn; auto 8.
Qed.

Lemma handleResponse_accepts_witness :
  match handleResponse 0 200 (Some (Single "text/event-stream; charset=utf-8"))
          (this_ (new_client DefaultOptions)) with
  | inr (this', r) => readyState this' = CONNECTED /\ r = new_response true
  | inl _ => False
  end.
Proof.
  destruct (handleResponse 0 200 (Some (Single "text/event-stream; charset=utf-8"))
              (this_ (new_client DefaultOptions))) as [err | [this' r]] eqn:E.
  - vm_compute in E. discriminate.
  - destruct (proj2 (handleResponse_accepts 0 200
                       (Some (Single "text/event-stream; charset=utf-8"))
                       (this_ (new_client DefaultOptions))) this' r E)
      as (H1 & _ & _ & _ & _ & H6).
    split; [exact H1 |]. rewrite H6. vm_compute in E. inversion E. reflexivity.
Defined.

(** A repeated [Content-Type] header reaches [handleResponse] as an
    array, and an array whose elements only contain [text/event-stream]
    is turned away. *)
Example repeated_content_type_rejected :
  handleResponse 0 200
    (Some (Repeated ["text/event-stream; charset=utf-8"; "text/event-stream; charset=utf-8"]))
    (this_ (new_client DefaultOptions)) =
  inl (ContentTypeNotEventStream
         "text/event-stream; charset=utf-8,text/event-stream; charset=utf-8").
Proof. reflexivity. Qed.

(** ** A failure without a listener for [error] *)

Lemma step_after_throw c i :
  client_inv c -> uncaught (this_ c) <> None ->
  emitted (this_ (step c i)) = emitted (this_ c) /\
  requests (this_ (step c i)) = requests (this_ c) /\
  readyState (this_ (step c i)) = readyState (this_ c) /\
  uncaught (this_ (step c i)) = uncaught (this_ c).
Proof.
  intros (Hin & Hw & Hu) Hn. pose proof (Hu Hn) as E. rewrite E in Hin.
  assert (Hwn : writable c = None).
  { destruct (writable c) eqn:Ew; [| reflexivity].
    destruct Hw as [_ K]; [discriminate | contradiction]. }
  assert (H0 : inflight c = 0%nat) by (destruct (uncaught (this_ c)); congruence).
  destruct i as [| statusCode contentType | chunk now | | message | now | |]; cbn [step];
    rewrite ?H0, ?Hwn; auto.
  - destruct (timerPending _); [| auto].
    unfold client_connect, connect. cbn [this_ readyState set_backoff].
    rewrite E. cbn. auto.
  - unfold heartbeat_tick. destruct (heartbeatInterval (this_ c)) as [w |]; [| auto].
    destruct (heartbeat_seen _ _); [auto |]. cbn [writable]. rewrite Hwn. cbn. auto.
Qed.

Lemma run_after_throw inputs : forall c,
  client_inv c -> uncaught (this_ c) <> None ->
  emitted (this_ (run c inputs)) = emitted (this_ c) /\
  requests (this_ (run c inputs)) = requests (this_ c) /\
  readyState (this_ (run c inputs)) = readyState (this_ c).
Proof.
  induction inputs as [| i inputs IH]; intros c Hc Hn; [auto |].
  destruct (step_after_throw c i Hc Hn) as (E1 & E2 & E3 & E4).
  cbn [run fold_left]. change (fold_left step inputs (step c i)) with (run (step c i) inputs).
  destruct (IH (step c i)) as (I1 & I2 & I3); [apply step_inv, Hc | congruence |].
  repeat split; congruence.
Qed.

(** X18.  On an instance without a listener for [error], a failure of a
    connection attempt ends the subscription: [connect()] is left by
    the throw of [emit('error', err)], so that nothing is emitted, the
    state stays CONNECTING or CONNECTED and the backoff is not started;
    and whatever reaches the client afterwards, nothing is emitted, no
    request is opened and the state does not change. *)
Theorem failure_without_error_listener c i err :
  client_inv c -> failure c i err -> errorListeners (this_ c) = 0%nat ->
  uncaught (this_ (step c i)) = Some err /\
  emitted (this_ (step c i)) = emitted (this_ c) /\
  readyState (this_ (step c i)) = readyState (this_ c) /\
  readyState (this_ c) <> DISCONNECTED /\
  backoff (this_ (step c i)) = backoff (this_ c) /\
  inflight (step c i) = 0%nat /\
  forall inputs,
    emitted (this_ (run (step c i) inputs)) = emitted (this_ c) /\
    requests (this_ (run (step c i) inputs)) = requests (this_ c) /\
    readyState (this_ (run (step c i) inputs)) = readyState (this_ c).
Proof.
  intros Hinv F Hl. destruct (failure_not_disconnected c i err Hinv F) as [Hnd Hn].
  pose proof (step_inv c i Hinv) as Hinv'.
  destruct (failure_settles c i err F)
    as (this0 & Estep & He & Hr & Hs & Hst & Hl0 & Hb & Hu0).
  assert (Efield : this_ (step c i) = reject err this0).
  { rewrite Estep. unfold client_settle. cbn [this_].
    apply connect_settled_thrown. congruence. }
  assert (Eu : uncaught (this_ (step c i)) = Some err) by (rewrite Efield; reflexivity).
  assert (Ee : emitted (this_ (step c i)) = emitted (this_ c))
    by (rewrite Efield; exact He).
  assert (Es : readyState (this_ (step c i)) = readyState (this_ c))
    by (rewrite Efield; exact Hst).
  assert (Er : requests (this_ (step c i)) = requests (this_ c))
    by (rewrite Efield; exact Hr).
  split; [exact Eu |]. split; [exact Ee |]. split; [exact Es |]. split; [exact Hnd |].
  split; [rewrite Efield; exact Hb |]. split.
  - destruct Hinv' as (Hin' & _ & Hu'). rewrite Hin', Eu.
    destruct (connecting_or_connected _); reflexivity.
  - intros inputs.
    destruct (run_after_throw inputs (step c i) Hinv') as (I1 & I2 & I3); [congruence |].
    repeat split; congruence.
Qed.

Lemma failure_without_error_listener_witness :
  client_inv (new_client DefaultOptions) /\
  failure (new_client DefaultOptions) (ResponseHead 503 event_stream) (ResponseNotOK 503) /\
  errorListeners (this_ (new_client DefaultOptions)) = 0%nat /\
  uncaught (this_ (step (new_client DefaultOptions) (ResponseHead 503 event_stream))) =
    Some (ResponseNotOK 503) /\
  emitted (this_ (step (new_client DefaultOptions) (ResponseHead 503 event_stream))) =
    [Connecting].
Proof.
  assert (F : failure (new_client DefaultOptions) (ResponseHead 503 event_stream)
                (ResponseNotOK 503)).
  { apply (status_failure _ 0); [reflexivity | reflexivity | discriminate]. }
  split; [apply new_client_inv |]. split; [exact F |]. split; [reflexivity |].
  destruct (failure_without_error_listener _ _ _ (new_client_inv DefaultOptions) F eq_refl)
    as (H1 & H2 & _).
  split; [exact H1 | exact H2].
Defined.

Lemma Fetch_event_well_formed_witness :
  Fetch.id (Fetch.new_EventSourceEvent "id:7") = Some "7" /\ includes_NUL "7" = false.
Proof.
  split; [reflexivity |].
  exact (proj1 (Fetch_event_well_formed "id:7") "7" eq_refl).
Defined.
